(** * JUCE [Path]: a shallow embedding of juce_Path.cpp

    The path model of src/gui/graphics/geometry/juce_Path.cpp: a flat array
    of 32-bit floats in which reserved marker values introduce the records
    (move, line, quadratic, cubic, close), an incrementally maintained
    bounding box and a winding flag.

    Layout of this development:
    - [F32]: the C type [float] as its four-byte IEEE-754 binary32 image,
      with the arithmetic and the comparisons of the language given by
      the Standard Library's [SpecFloat] at precision 24 and [emax] 128;
    - the helpers of the JUCE core that the file calls;
    - the [Path] record and the member functions of juce_Path.cpp
      ([F64], the C type [double], with the one function that
      computes in it);
    - the properties of these functions. *)

From Stdlib Require Import ZArith List Lia Bool.
From Stdlib Require Import Strings.Byte.
From Stdlib Require Import Floats.SpecFloat.
Import ListNotations.
Local Open Scope Z_scope.

(* ================================================================== *)
(** ** The C type [float] *)
(* ================================================================== *)

Module F32.

Definition prec : Z := 24.
Definition emax : Z := 128.

(** A [float] is its image in memory: four bytes, least significant
    first (the order in which [OutputStream::writeFloat] emits them). *)
Record float : Type := Float { byte0 : byte; byte1 : byte; byte2 : byte; byte3 : byte }.

Definition byteZ (b : byte) : Z := Z.of_N (Byte.to_N b).

Definition Zbyte (z : Z) : byte :=
  match Byte.of_N (Z.to_N (z mod 256)) with
  | Some b => b
  | None => x00
  end.

(** The 32-bit pattern of a float, as an unsigned integer. *)
Definition bitsOf (f : float) : Z :=
  byteZ (byte0 f) + 2 ^ 8 * byteZ (byte1 f)
  + 2 ^ 16 * byteZ (byte2 f) + 2 ^ 24 * byteZ (byte3 f).

Definition ofBits (z : Z) : float :=
  Float (Zbyte z) (Zbyte (z / 2 ^ 8)) (Zbyte (z / 2 ^ 16)) (Zbyte (z / 2 ^ 24)).

(** IEEE-754 binary32 decoding: sign bit, 8 exponent bits biased by 127,
    23 fraction bits. *)
Definition decode (z : Z) : spec_float :=
  let s := 2 ^ 31 <=? z in
  let e := (z / 2 ^ 23) mod 2 ^ 8 in
  let m := z mod 2 ^ 23 in
  if e =? 0 then
    match m with
    | Zpos p => S754_finite s p (-149)
    | _ => S754_zero s
    end
  else if e =? 255 then
    if m =? 0 then S754_infinity s else S754_nan
  else
    match m + 2 ^ 23 with
    | Zpos p => S754_finite s p (e - 150)
    | _ => S754_nan
    end.

Definition signBit (s : bool) : Z := if s then 2 ^ 31 else 0.

(** IEEE-754 binary32 encoding; the NaN produced by an operation is the
    default quiet NaN.  (A processor may set the sign bit of such a NaN
    or keep the payload of a NaN operand; the model does not follow it
    there.) *)
Definition encode (x : spec_float) : Z :=
  match x with
  | S754_zero s => signBit s
  | S754_infinity s => signBit s + 255 * 2 ^ 23
  | S754_nan => 255 * 2 ^ 23 + 2 ^ 22
  | S754_finite s m e =>
      signBit s +
      (if 2 ^ 23 <=? Zpos m
       then (e + 150) * 2 ^ 23 + (Zpos m - 2 ^ 23)
       else Zpos m)
  end.

Definition value (f : float) : spec_float := decode (bitsOf f).
Definition ofSF (x : spec_float) : float := ofBits (encode x).

(** [(float) z] for an integer literal or an [int] value. *)
Definition ofZ (z : Z) : float := ofSF (binary_normalize prec emax z 0 false).

(** The operators of the language on [float]. *)
Definition add (a b : float) : float := ofSF (SFadd prec emax (value a) (value b)).
Definition sub (a b : float) : float := ofSF (SFsub prec emax (value a) (value b)).
Definition mul (a b : float) : float := ofSF (SFmul prec emax (value a) (value b)).
Definition div (a b : float) : float := ofSF (SFdiv prec emax (value a) (value b)).
(** Unary minus flips the sign bit. *)
Definition neg (a : float) : float :=
  let z := bitsOf a in
  ofBits (if 2 ^ 31 <=? z then z - 2 ^ 31 else z + 2 ^ 31).

Definition eqb (a b : float) : bool := SFeqb (value a) (value b).   (* a == b *)
Definition neqb (a b : float) : bool := negb (eqb a b).             (* a != b *)
Definition ltb (a b : float) : bool := SFltb (value a) (value b).   (* a < b *)
Definition leb (a b : float) : bool := SFleb (value a) (value b).   (* a <= b *)
Definition gtb (a b : float) : bool := SFltb (value b) (value a).   (* a > b *)
Definition geb (a b : float) : bool := SFleb (value b) (value a).   (* a >= b *)

Definition isNaN (a : float) : bool :=
  match value a with
  | S754_nan => true
  | _ => false
  end.

Definition zero : float := Eval vm_compute in ofZ 0.
Definition one : float := Eval vm_compute in ofZ 1.
(** The literals [0.5f] and [-0.5f]. *)
Definition half : float := Eval vm_compute in div (ofZ 1) (ofZ 2).
Definition minusHalf : float := Eval vm_compute in neg (div (ofZ 1) (ofZ 2)).

End F32.

Abbreviation float := F32.float.

(* ================================================================== *)
(** ** Helpers of the JUCE core used by juce_Path.cpp *)
(* ================================================================== *)

(** Modelled from the spec: [jmin] and [jmax] (juce_MathsFunctions.h is
    not among the sources) are the minimum and maximum the bounding box
    is folded with; on floats they are written with [<] only. *)
Definition jmax (a b : float) : float := if F32.ltb a b then b else a.
Definition jmin (a b : float) : float := if F32.ltb b a then b else a.

Definition jmax3 (a b c : float) : float :=
  if F32.ltb a b then (if F32.ltb b c then c else b)
  else (if F32.ltb a c then c else a).
Definition jmin3 (a b c : float) : float :=
  if F32.ltb b a then (if F32.ltb c b then c else b)
  else (if F32.ltb c a then c else a).

Definition jmax4 (a b c d : float) : float := jmax a (jmax3 b c d).
Definition jmin4 (a b c d : float) : float := jmin a (jmin3 b c d).

(** [swapVariables (a, b)]: the pair after the exchange. *)
Definition swapVariables {A : Type} (ab : A * A) : A * A := (snd ab, fst ab).

(** [size_t]: unsigned, 64 bits wide; arithmetic wraps around. *)
Definition SIZE_WIDTH : Z := 64.
Definition size_t (z : Z) : Z := z mod 2 ^ SIZE_WIDTH.

(** [int]: 32 bits, two's complement. *)
Definition int32 (z : Z) : Z := (z + 2 ^ 31) mod 2 ^ 32 - 2 ^ 31.

(** Modelled from the spec: [Point<float>] (juce_Point.h is not among
    the sources); the default-constructed point is the origin. *)
Record Point : Type := mkPoint { ptX : float; ptY : float }.
Definition Point_origin : Point := mkPoint F32.zero F32.zero.

(** Modelled from the spec: [Rectangle<float>] (juce_Rectangle.h is not
    among the sources): position and size as given, empty when the width
    or the height is not positive. *)
Record Rectangle : Type :=
  mkRectangle { rectX : float; rectY : float; rectW : float; rectH : float }.

Definition Rectangle_isEmpty (r : Rectangle) : bool :=
  F32.leb (rectW r) F32.zero || F32.leb (rectH r) F32.zero.

(** Modelled from the spec: [AffineTransform] (juce_AffineTransform.cpp
    is not among the sources), the matrix
    [[mat00 mat01 mat02] [mat10 mat11 mat12] [0 0 1]] acting on column
    vectors; [scaled] and [translated] apply the new map after the
    receiver. *)
Record AffineTransform : Type :=
  mkAffineTransform { mat00 : float; mat01 : float; mat02 : float;
                      mat10 : float; mat11 : float; mat12 : float }.

Definition AffineTransform_identity : AffineTransform :=
  mkAffineTransform F32.one F32.zero F32.zero F32.zero F32.one F32.zero.

Definition AffineTransform_translation (dx dy : float) : AffineTransform :=
  mkAffineTransform F32.one F32.zero dx F32.zero F32.one dy.

Definition scaled (t : AffineTransform) (fx fy : float) : AffineTransform :=
  mkAffineTransform (F32.mul fx (mat00 t)) (F32.mul fx (mat01 t)) (F32.mul fx (mat02 t))
                    (F32.mul fy (mat10 t)) (F32.mul fy (mat11 t)) (F32.mul fy (mat12 t)).

Definition translated (t : AffineTransform) (dx dy : float) : AffineTransform :=
  mkAffineTransform (mat00 t) (mat01 t) (F32.add (mat02 t) dx)
                    (mat10 t) (mat11 t) (F32.add (mat12 t) dy).

Definition transformPoint (t : AffineTransform) (x y : float) : float * float :=
  (F32.add (F32.add (F32.mul (mat00 t) x) (F32.mul (mat01 t) y)) (mat02 t),
   F32.add (F32.add (F32.mul (mat10 t) x) (F32.mul (mat11 t) y)) (mat12 t)).

(** Modelled from the spec: [Justification] (juce_Justification.h is not
    among the sources), a set of flags tested with a bitwise and. *)
Record Justification : Type := mkJustification { flags : Z }.

Definition Justification_left : Z := 1.
Definition Justification_right : Z := 2.
Definition Justification_horizontallyCentred : Z := 4.
Definition Justification_top : Z := 8.
Definition Justification_bottom : Z := 16.
Definition Justification_verticallyCentred : Z := 32.
Definition Justification_centred : Z := 36.

Definition testFlags (j : Justification) (flagsToTest : Z) : bool :=
  negb (Z.land (flags j) flagsToTest =? 0).

(** Modelled from the spec: the byte streams ([OutputStream] and
    [InputStream] are not among the sources).  A stream is the list of
    its bytes; a float is written as the four bytes of its image, and a
    float that the source can no longer supply in full reads as zero and
    exhausts the source. *)
Definition writeByte (dest : list byte) (b : byte) : list byte := dest ++ [b].

Definition writeFloat (dest : list byte) (f : float) : list byte :=
  dest ++ [F32.byte0 f; F32.byte1 f; F32.byte2 f; F32.byte3 f].

Definition isExhausted (source : list byte) : bool :=
  match source with
  | [] => true
  | _ => false
  end.

Definition readByte (source : list byte) : byte * list byte :=
  match source with
  | [] => (x00, [])
  | b :: rest => (b, rest)
  end.

Definition readFloat (source : list byte) : float * list byte :=
  match source with
  | a :: b :: c :: d :: rest => (F32.Float a b c d, rest)
  | _ => (F32.zero, [])
  end.

(* ================================================================== *)
(** ** The path and its builder functions *)
(* ================================================================== *)

Definition lineMarker : float := Eval vm_compute in F32.ofZ 100001.
Definition moveMarker : float := Eval vm_compute in F32.ofZ 100002.
Definition quadMarker : float := Eval vm_compute in F32.ofZ 100003.
Definition cubicMarker : float := Eval vm_compute in F32.ofZ 100004.
Definition closeSubPathMarker : float := Eval vm_compute in F32.ofZ 100005.

(** The members of [Path].  [data] holds the floats in use,
    [data.elements [0 .. numElements)]; what the array keeps beyond
    them is never read by a function that stays inside its bounds. *)
Record Path : Type :=
  mkPath { data : list float;
           pathXMin : float; pathXMax : float;
           pathYMin : float; pathYMax : float;
           useNonZeroWinding : bool }.

Definition numElements (p : Path) : Z := Z.of_nat (length (data p)).

(** [data.elements [i]]; [None] stands for a read outside the floats
    in use, on which the language defines no behaviour. *)
Definition element (p : Path) (i : Z) : option float :=
  if (0 <=? i) && (i <? numElements p)
  then nth_error (data p) (Z.to_nat i)
  else None.

(** [Path::Path()] *)
Definition Path_new : Path :=
  mkPath [] F32.zero F32.zero F32.zero F32.zero true.

Definition clear (p : Path) : Path :=
  mkPath [] F32.zero F32.zero F32.zero F32.zero (useNonZeroWinding p).

Definition swapWithPath (p other : Path) : Path * Path := (other, p).

Definition setUsingNonZeroWinding (p : Path) (isNonZero : bool) : Path :=
  mkPath (data p) (pathXMin p) (pathXMax p) (pathYMin p) (pathYMax p) isNonZero.

Fixpoint isEmptyFrom (l : list float) : bool :=
  match l with
  | [] => true
  | type :: rest =>
      if F32.eqb type moveMarker then
        match rest with
        | _ :: _ :: rest' => isEmptyFrom rest'
        | _ => true
        end
      else if F32.eqb type lineMarker || F32.eqb type quadMarker
              || F32.eqb type cubicMarker then false
      else isEmptyFrom rest
  end.

Definition isEmpty (p : Path) : bool := isEmptyFrom (data p).

Definition getBounds (p : Path) : Rectangle :=
  mkRectangle (pathXMin p) (pathYMin p)
              (F32.sub (pathXMax p) (pathXMin p))
              (F32.sub (pathYMax p) (pathYMin p)).

Definition startNewSubPath (p : Path) (x y : float) : Path :=
  let first := numElements p =? 0 in
  mkPath (data p ++ [moveMarker; x; y])
         (if first then x else jmin (pathXMin p) x)
         (if first then x else jmax (pathXMax p) x)
         (if first then y else jmin (pathYMin p) y)
         (if first then y else jmax (pathYMax p) y)
         (useNonZeroWinding p).

Definition lineTo (p : Path) (x y : float) : Path :=
  let p := if numElements p =? 0 then startNewSubPath p F32.zero F32.zero else p in
  mkPath (data p ++ [lineMarker; x; y])
         (jmin (pathXMin p) x) (jmax (pathXMax p) x)
         (jmin (pathYMin p) y) (jmax (pathYMax p) y)
         (useNonZeroWinding p).

Definition quadraticTo (p : Path) (x1 y1 x2 y2 : float) : Path :=
  let p := if numElements p =? 0 then startNewSubPath p F32.zero F32.zero else p in
  mkPath (data p ++ [quadMarker; x1; y1; x2; y2])
         (jmin3 (pathXMin p) x1 x2) (jmax3 (pathXMax p) x1 x2)
         (jmin3 (pathYMin p) y1 y2) (jmax3 (pathYMax p) y1 y2)
         (useNonZeroWinding p).

Definition cubicTo (p : Path) (x1 y1 x2 y2 x3 y3 : float) : Path :=
  let p := if numElements p =? 0 then startNewSubPath p F32.zero F32.zero else p in
  mkPath (data p ++ [cubicMarker; x1; y1; x2; y2; x3; y3])
         (jmin4 (pathXMin p) x1 x2 x3) (jmax4 (pathXMax p) x1 x2 x3)
         (jmin4 (pathYMin p) y1 y2 y3) (jmax4 (pathYMax p) y1 y2 y3)
         (useNonZeroWinding p).

Definition closeSubPath (p : Path) : Path :=
  if numElements p >? 0 then
    match element p (numElements p - 1) with
    | Some last =>
        if F32.neqb last closeSubPathMarker
        then mkPath (data p ++ [closeSubPathMarker])
                    (pathXMin p) (pathXMax p) (pathYMin p) (pathYMax p)
                    (useNonZeroWinding p)
        else p
    | None => p
    end
  else p.

(** The result of [getCurrentPosition]: a point, or a read outside the
    floats in use; [OutOfFuel] is the bounded model of the backward loop
    giving up, which the loop itself never does. *)
Inductive Position : Type :=
| Returned (pt : Point)
| OutOfBounds
| OutOfFuel.

(** [while (i >= 0)]: on a [size_t] the guard always holds; the loop is
    left through [break] only. *)
Fixpoint scanBackForMove (fuel : nat) (p : Path) (i : Z) : option (option Z) :=
  match fuel with
  | O => None
  | S fuel' =>
      match element p i with
      | None => Some None
      | Some v =>
          if F32.eqb v moveMarker then Some (Some (size_t (i + 2)))
          else scanBackForMove fuel' p (size_t (i - 1))
      end
  end.

Definition pointAt (p : Path) (i : Z) : Position :=
  if i >? 0 then
    match element p (i - 1), element p i with
    | Some x, Some y => Returned (mkPoint x y)
    | _, _ => OutOfBounds
    end
  else Returned Point_origin.

Definition getCurrentPosition (p : Path) : Position :=
  let i := size_t (numElements p - 1) in
  if i >? 0 then
    match element p i with
    | None => OutOfBounds
    | Some last =>
        if F32.eqb last closeSubPathMarker then
          match scanBackForMove (S (length (data p))) p i with
          | None => OutOfFuel
          | Some None => OutOfBounds
          | Some (Some i') => pointAt p i'
          end
        else pointAt p i
    end
  else pointAt p i.

Definition addRectangle (p : Path) (x y w h : float) : Path :=
  let x1 := x in
  let y1 := y in
  let x2 := F32.add x w in
  let y2 := F32.add y h in
  let '(x1, x2) := if F32.ltb w F32.zero then swapVariables (x1, x2) else (x1, x2) in
  let '(y1, y2) := if F32.ltb h F32.zero then swapVariables (y1, y2) else (y1, y2) in
  let first := numElements p =? 0 in
  mkPath (data p ++ [moveMarker; x1; y2;
                     lineMarker; x1; y1;
                     lineMarker; x2; y1;
                     lineMarker; x2; y2;
                     closeSubPathMarker])
         (if first then x1 else jmin (pathXMin p) x1)
         (if first then x2 else jmax (pathXMax p) x2)
         (if first then y1 else jmin (pathYMin p) y1)
         (if first then y2 else jmax (pathYMax p) y2)
         (useNonZeroWinding p).

(** The literals [0.45f] and [0.55f]. *)
Definition f045 : float := Eval vm_compute in F32.div (F32.ofZ 45) (F32.ofZ 100).
Definition f055 : float := Eval vm_compute in F32.div (F32.ofZ 55) (F32.ofZ 100).

Definition addRoundedRectangle (p : Path) (x y w h csx csy : float) : Path :=
  let csx := jmin csx (F32.mul w F32.half) in
  let csy := jmin csy (F32.mul h F32.half) in
  let cs45x := F32.mul csx f045 in
  let cs45y := F32.mul csy f045 in
  let x2 := F32.add x w in
  let y2 := F32.add y h in
  let p := startNewSubPath p (F32.add x csx) y in
  let p := lineTo p (F32.sub x2 csx) y in
  let p := cubicTo p (F32.sub x2 cs45x) y x2 (F32.add y cs45y) x2 (F32.add y csy) in
  let p := lineTo p x2 (F32.sub y2 csy) in
  let p := cubicTo p x2 (F32.sub y2 cs45y) (F32.sub x2 cs45x) y2 (F32.sub x2 csx) y2 in
  let p := lineTo p (F32.add x csx) y2 in
  let p := cubicTo p (F32.add x cs45x) y2 x (F32.sub y2 cs45y) x (F32.sub y2 csy) in
  let p := lineTo p x (F32.add y csy) in
  let p := cubicTo p x (F32.add y cs45y) (F32.add x cs45x) y (F32.add x csx) y in
  closeSubPath p.

Definition addTriangle (p : Path) (x1 y1 x2 y2 x3 y3 : float) : Path :=
  let p := startNewSubPath p x1 y1 in
  let p := lineTo p x2 y2 in
  let p := lineTo p x3 y3 in
  closeSubPath p.

Definition addQuadrilateral (p : Path) (x1 y1 x2 y2 x3 y3 x4 y4 : float) : Path :=
  let p := startNewSubPath p x1 y1 in
  let p := lineTo p x2 y2 in
  let p := lineTo p x3 y3 in
  let p := lineTo p x4 y4 in
  closeSubPath p.

Definition addEllipse (p : Path) (x y w h : float) : Path :=
  let hw := F32.mul w F32.half in
  let hw55 := F32.mul hw f055 in
  let hh := F32.mul h F32.half in
  let hh45 := F32.mul hh f055 in
  let cx := F32.add x hw in
  let cy := F32.add y hh in
  let p := startNewSubPath p cx (F32.sub cy hh) in
  let p := cubicTo p (F32.add cx hw55) (F32.sub cy hh) (F32.add cx hw) (F32.sub cy hh45)
                     (F32.add cx hw) cy in
  let p := cubicTo p (F32.add cx hw) (F32.add cy hh45) (F32.add cx hw55) (F32.add cy hh)
                     cx (F32.add cy hh) in
  let p := cubicTo p (F32.sub cx hw55) (F32.add cy hh) (F32.sub cx hw) (F32.add cy hh45)
                     (F32.sub cx hw) cy in
  let p := cubicTo p (F32.sub cx hw) (F32.sub cy hh45) (F32.sub cx hw55) (F32.sub cy hh)
                     cx (F32.sub cy hh) in
  closeSubPath p.

(** [addPath (other)]: the receiver and [other] are distinct objects.
    [None] stands for a read past the floats of [other]. *)
Fixpoint addPathFrom (p : Path) (l : list float) : option Path :=
  match l with
  | [] => Some p
  | type :: rest =>
      if F32.eqb type moveMarker then
        match rest with
        | x :: y :: rest' => addPathFrom (startNewSubPath p x y) rest'
        | _ => None
        end
      else if F32.eqb type lineMarker then
        match rest with
        | x :: y :: rest' => addPathFrom (lineTo p x y) rest'
        | _ => None
        end
      else if F32.eqb type quadMarker then
        match rest with
        | x1 :: y1 :: x2 :: y2 :: rest' => addPathFrom (quadraticTo p x1 y1 x2 y2) rest'
        | _ => None
        end
      else if F32.eqb type cubicMarker then
        match rest with
        | x1 :: y1 :: x2 :: y2 :: x3 :: y3 :: rest' =>
            addPathFrom (cubicTo p x1 y1 x2 y2 x3 y3) rest'
        | _ => None
        end
      else if F32.eqb type closeSubPathMarker then
        addPathFrom (closeSubPath p) rest
      else
        addPathFrom p rest
  end.

Definition addPath (p other : Path) : option Path := addPathFrom p (data other).

(** The four bounds while [applyTransform] recomputes them. *)
Record Bounds : Type :=
  mkBounds { bXMin : float; bXMax : float; bYMin : float; bYMax : float }.

Definition foldPoint (b : Bounds) (x y : float) : Bounds :=
  mkBounds (jmin (bXMin b) x) (jmax (bXMax b) x) (jmin (bYMin b) y) (jmax (bYMax b) y).

Fixpoint applyTransformFrom (t : AffineTransform) (l : list float)
         (b : Bounds) (setMaxMin : bool) : option (list float * Bounds) :=
  match l with
  | [] => Some ([], b)
  | type :: rest =>
      if F32.eqb type moveMarker then
        match rest with
        | x :: y :: rest' =>
            let '(x, y) := transformPoint t x y in
            let b := if setMaxMin then foldPoint b x y else mkBounds x x y y in
            option_map (fun r => (type :: x :: y :: fst r, snd r))
                       (applyTransformFrom t rest' b true)
        | _ => None
        end
      else if F32.eqb type lineMarker then
        match rest with
        | x :: y :: rest' =>
            let '(x, y) := transformPoint t x y in
            let b := foldPoint b x y in
            option_map (fun r => (type :: x :: y :: fst r, snd r))
                       (applyTransformFrom t rest' b setMaxMin)
        | _ => None
        end
      else if F32.eqb type quadMarker then
        match rest with
        | x1 :: y1 :: x2 :: y2 :: rest' =>
            let '(x1, y1) := transformPoint t x1 y1 in
            let '(x2, y2) := transformPoint t x2 y2 in
            let b := mkBounds (jmin3 (bXMin b) x1 x2) (jmax3 (bXMax b) x1 x2)
                              (jmin3 (bYMin b) y1 y2) (jmax3 (bYMax b) y1 y2) in
            option_map (fun r => (type :: x1 :: y1 :: x2 :: y2 :: fst r, snd r))
                       (applyTransformFrom t rest' b setMaxMin)
        | _ => None
        end
      else if F32.eqb type cubicMarker then
        match rest with
        | x1 :: y1 :: x2 :: y2 :: x3 :: y3 :: rest' =>
            let '(x1, y1) := transformPoint t x1 y1 in
            let '(x2, y2) := transformPoint t x2 y2 in
            let '(x3, y3) := transformPoint t x3 y3 in
            let b := mkBounds (jmin4 (bXMin b) x1 x2 x3) (jmax4 (bXMax b) x1 x2 x3)
                              (jmin4 (bYMin b) y1 y2 y3) (jmax4 (bYMax b) y1 y2 y3) in
            option_map (fun r => (type :: x1 :: y1 :: x2 :: y2 :: x3 :: y3 :: fst r, snd r))
                       (applyTransformFrom t rest' b setMaxMin)
        | _ => None
        end
      else
        option_map (fun r => (type :: fst r, snd r))
                   (applyTransformFrom t rest b setMaxMin)
  end.

Definition applyTransform (p : Path) (t : AffineTransform) : option Path :=
  option_map
    (fun r => mkPath (fst r) (bXMin (snd r)) (bXMax (snd r)) (bYMin (snd r)) (bYMax (snd r))
                     (useNonZeroWinding p))
    (applyTransformFrom t (data p) (mkBounds F32.zero F32.zero F32.zero F32.zero) false).

Definition getTransformToScaleToFit (p : Path) (x y w h : float)
           (preserveProportions : bool) (justification : Justification) : AffineTransform :=
  let bounds := getBounds p in
  if preserveProportions then
    if F32.leb w F32.zero || F32.leb h F32.zero || Rectangle_isEmpty bounds
    then AffineTransform_identity
    else
      let srcRatio := F32.div (rectH bounds) (rectW bounds) in
      let '(newW, newH) :=
        if F32.gtb srcRatio (F32.div h w)
        then (F32.div h srcRatio, h)
        else (w, F32.mul w srcRatio) in
      let newXCentre :=
        if testFlags justification Justification_left
        then F32.add x (F32.mul newW F32.half)
        else if testFlags justification Justification_right
        then F32.add x (F32.sub w (F32.mul newW F32.half))
        else F32.add x (F32.mul w F32.half) in
      let newYCentre :=
        if testFlags justification Justification_top
        then F32.add y (F32.mul newH F32.half)
        else if testFlags justification Justification_bottom
        then F32.add y (F32.sub h (F32.mul newH F32.half))
        else F32.add y (F32.mul h F32.half) in
      translated
        (scaled
           (AffineTransform_translation
              (F32.sub (F32.mul (rectW bounds) F32.minusHalf) (rectX bounds))
              (F32.sub (F32.mul (rectH bounds) F32.minusHalf) (rectY bounds)))
           (F32.div newW (rectW bounds)) (F32.div newH (rectH bounds)))
        newXCentre newYCentre
  else
    translated
      (scaled
         (AffineTransform_translation (F32.neg (rectX bounds)) (F32.neg (rectY bounds)))
         (F32.div w (rectW bounds)) (F32.div h (rectH bounds)))
      x y.

Definition scaleToFit (p : Path) (x y w h : float) (preserveProportions : bool)
  : option Path :=
  applyTransform p
    (getTransformToScaleToFit p x y w h preserveProportions
                              (mkJustification Justification_centred)).

(** One straight piece of the flattened path, as [PathFlatteningIterator]
    exposes it after [next()]. *)
Record LineSegment : Type :=
  mkLineSegment { x1 : float; y1 : float; x2 : float; y2 : float }.

Section Contains.

(** juce_PathIterator.cpp is not among the sources: the pieces that the
    successive calls of [next()] yield are a parameter. *)
Variable PathFlatteningIterator : Path -> AffineTransform -> float -> list LineSegment.

Definition countCrossing (x y : float) (counts : Z * Z) (i : LineSegment) : Z * Z :=
  let '(positiveCrossings, negativeCrossings) := counts in
  if (F32.leb (y1 i) y && F32.gtb (y2 i) y) || (F32.leb (y2 i) y && F32.gtb (y1 i) y) then
    let intersectX :=
      F32.add (x1 i)
              (F32.div (F32.mul (F32.sub (x2 i) (x1 i)) (F32.sub y (y1 i)))
                       (F32.sub (y2 i) (y1 i))) in
    if F32.leb intersectX x then
      if F32.ltb (y1 i) (y2 i)
      then (int32 (positiveCrossings + 1), negativeCrossings)
      else (positiveCrossings, int32 (negativeCrossings + 1))
    else counts
  else counts.

Definition contains (p : Path) (x y tolerence : float) : bool :=
  if F32.leb x (pathXMin p) || F32.geb x (pathXMax p)
     || F32.leb y (pathYMin p) || F32.geb y (pathYMax p)
  then false
  else
    let '(positiveCrossings, negativeCrossings) :=
      fold_left (countCrossing x y)
                (PathFlatteningIterator p AffineTransform_identity tolerence)
                (0, 0) in
    if useNonZeroWinding p
    then negb (negativeCrossings =? positiveCrossings)
    else negb (Z.land (int32 (negativeCrossings + positiveCrossings)) 1 =? 0).

End Contains.

(* ================================================================== *)
(** ** The record stream *)
(* ================================================================== *)

(** What one call of [Path::Iterator::next] reports: the element type
    together with the coordinates it read. *)
Inductive PathElement : Type :=
| startNewSubPathElement (x1 y1 : float)
| lineToElement (x1 y1 : float)
| quadraticToElement (x1 y1 x2 y2 : float)
| cubicToElement (x1 y1 x2 y2 x3 y3 : float)
| closePathElement.

(** The successive results of [Path::Iterator::next] over the floats
    [l], until it returns false.  [None]: a read past the floats in use,
    or a float in marker position that is none of the five markers (for
    which [next] reports the stale fields of the call before). *)
Fixpoint records (l : list float) : option (list PathElement) :=
  match l with
  | [] => Some []
  | type :: rest =>
      if F32.eqb type moveMarker then
        match rest with
        | x1 :: y1 :: rest' =>
            option_map (cons (startNewSubPathElement x1 y1)) (records rest')
        | _ => None
        end
      else if F32.eqb type lineMarker then
        match rest with
        | x1 :: y1 :: rest' => option_map (cons (lineToElement x1 y1)) (records rest')
        | _ => None
        end
      else if F32.eqb type quadMarker then
        match rest with
        | x1 :: y1 :: x2 :: y2 :: rest' =>
            option_map (cons (quadraticToElement x1 y1 x2 y2)) (records rest')
        | _ => None
        end
      else if F32.eqb type cubicMarker then
        match rest with
        | x1 :: y1 :: x2 :: y2 :: x3 :: y3 :: rest' =>
            option_map (cons (cubicToElement x1 y1 x2 y2 x3 y3)) (records rest')
        | _ => None
        end
      else if F32.eqb type closeSubPathMarker then
        option_map (cons closePathElement) (records rest)
      else None
  end.

(** The floats one record occupies in [data]. *)
Definition elementData (e : PathElement) : list float :=
  match e with
  | startNewSubPathElement x y => [moveMarker; x; y]
  | lineToElement x y => [lineMarker; x; y]
  | quadraticToElement x1 y1 x2 y2 => [quadMarker; x1; y1; x2; y2]
  | cubicToElement x1 y1 x2 y2 x3 y3 => [cubicMarker; x1; y1; x2; y2; x3; y3]
  | closePathElement => [closeSubPathMarker]
  end.

Definition streamData (es : list PathElement) : list float := flat_map elementData es.

Definition xCoords (e : PathElement) : list float :=
  match e with
  | startNewSubPathElement x _ => [x]
  | lineToElement x _ => [x]
  | quadraticToElement x1 _ x2 _ => [x1; x2]
  | cubicToElement x1 _ x2 _ x3 _ => [x1; x2; x3]
  | closePathElement => []
  end.

Definition yCoords (e : PathElement) : list float :=
  match e with
  | startNewSubPathElement _ y => [y]
  | lineToElement _ y => [y]
  | quadraticToElement _ y1 _ y2 => [y1; y2]
  | cubicToElement _ y1 _ y2 _ y3 => [y1; y2; y3]
  | closePathElement => []
  end.

Definition isClose (e : PathElement) : bool :=
  match e with
  | closePathElement => true
  | _ => false
  end.

Definition isMove (e : PathElement) : bool :=
  match e with
  | startNewSubPathElement _ _ => true
  | _ => false
  end.

(** Every record and its successor satisfy [R]. *)
Fixpoint allAdjacent (R : PathElement -> PathElement -> bool) (es : list PathElement)
  : bool :=
  match es with
  | e :: ((e' :: _) as rest) => R e e' && allAdjacent R rest
  | _ => true
  end.

Definition noConsecutiveClose (es : list PathElement) : bool :=
  allAdjacent (fun e e' => negb (isClose e && isClose e')) es.

Definition beginsWithMove (es : list PathElement) : bool :=
  match es with
  | [] => true
  | e :: _ => isMove e
  end.

(** The builder call that appends one record. *)
Definition appendElement (p : Path) (e : PathElement) : Path :=
  match e with
  | startNewSubPathElement x y => startNewSubPath p x y
  | lineToElement x y => lineTo p x y
  | quadraticToElement x1 y1 x2 y2 => quadraticTo p x1 y1 x2 y2
  | cubicToElement x1 y1 x2 y2 x3 y3 => cubicTo p x1 y1 x2 y2 x3 y3
  | closePathElement => closeSubPath p
  end.

Definition appendElements (p : Path) (es : list PathElement) : Path :=
  fold_left appendElement es p.

(* ================================================================== *)
(** ** The binary stream format *)
(* ================================================================== *)

Local Open Scope byte_scope.

Fixpoint loadPathFromStreamLoop (fuel : nat) (source : list byte) (p : Path)
  : option Path :=
  match fuel with
  | O => None
  | S fuel' =>
      if isExhausted source then Some p
      else
        let '(c, source) := readByte source in
        if Byte.eqb c "m" then
          let '(x, source) := readFloat source in
          let '(y, source) := readFloat source in
          loadPathFromStreamLoop fuel' source (startNewSubPath p x y)
        else if Byte.eqb c "l" then
          let '(x, source) := readFloat source in
          let '(y, source) := readFloat source in
          loadPathFromStreamLoop fuel' source (lineTo p x y)
        else if Byte.eqb c "q" then
          let '(x1, source) := readFloat source in
          let '(y1, source) := readFloat source in
          let '(x2, source) := readFloat source in
          let '(y2, source) := readFloat source in
          loadPathFromStreamLoop fuel' source (quadraticTo p x1 y1 x2 y2)
        else if Byte.eqb c "b" then
          let '(x1, source) := readFloat source in
          let '(y1, source) := readFloat source in
          let '(x2, source) := readFloat source in
          let '(y2, source) := readFloat source in
          let '(x3, source) := readFloat source in
          let '(y3, source) := readFloat source in
          loadPathFromStreamLoop fuel' source (cubicTo p x1 y1 x2 y2 x3 y3)
        else if Byte.eqb c "c" then
          loadPathFromStreamLoop fuel' source (closeSubPath p)
        else if Byte.eqb c "n" then
          loadPathFromStreamLoop fuel' source (setUsingNonZeroWinding p true)
        else if Byte.eqb c "z" then
          loadPathFromStreamLoop fuel' source (setUsingNonZeroWinding p false)
        else if Byte.eqb c "e" then
          Some p
        else
          loadPathFromStreamLoop fuel' source p
  end.

(** Every turn of the loop consumes a byte, so one turn more than the
    source has bytes is enough; [None] is the bounded loop giving up. *)
Definition loadPathFromStream (p : Path) (source : list byte) : option Path :=
  loadPathFromStreamLoop (S (length source)) source p.

(** The loop of [writePathToStream] over the floats [l]; [None] stands
    for a read past the floats in use. *)
Fixpoint writeElements (dest : list byte) (l : list float) : option (list byte) :=
  match l with
  | [] => Some dest
  | type :: rest =>
      if F32.eqb type moveMarker then
        match rest with
        | x :: y :: rest' =>
            writeElements (writeFloat (writeFloat (writeByte dest "m") x) y) rest'
        | _ => None
        end
      else if F32.eqb type lineMarker then
        match rest with
        | x :: y :: rest' =>
            writeElements (writeFloat (writeFloat (writeByte dest "l") x) y) rest'
        | _ => None
        end
      else if F32.eqb type quadMarker then
        match rest with
        | x1 :: y1 :: x2 :: y2 :: rest' =>
            writeElements
              (writeFloat (writeFloat (writeFloat (writeFloat (writeByte dest "q") x1) y1) x2) y2)
              rest'
        | _ => None
        end
      else if F32.eqb type cubicMarker then
        match rest with
        | x1 :: y1 :: x2 :: y2 :: x3 :: y3 :: rest' =>
            writeElements
              (writeFloat (writeFloat (writeFloat (writeFloat (writeFloat (writeFloat
                 (writeByte dest "b") x1) y1) x2) y2) x3) y3)
              rest'
        | _ => None
        end
      else if F32.eqb type closeSubPathMarker then
        writeElements (writeByte dest "c") rest
      else
        writeElements dest rest
  end.

Definition writePathToStream (p : Path) (dest : list byte) : option (list byte) :=
  option_map (fun dest => writeByte dest "e")
             (writeElements (writeByte dest (if useNonZeroWinding p then "n" else "z"))
                            (data p)).

Local Close Scope byte_scope.

(* ================================================================== *)
(** ** Sequences of calls *)
(* ================================================================== *)

(** The calls of the builder interface that are written with the
    operators of [float] alone.  (The arcs, pie segments, stars, bubbles,
    arrows and thick lines need [sinf], [cosf] or [juce_hypotf]; each of
    them is a sequence of [startNewSubPath], [lineTo] and [closeSubPath]
    calls.) *)
Inductive BuilderCall : Type :=
| CallStartNewSubPath (x y : float)
| CallLineTo (x y : float)
| CallQuadraticTo (x1 y1 x2 y2 : float)
| CallCubicTo (x1 y1 x2 y2 x3 y3 : float)
| CallCloseSubPath
| CallAddRectangle (x y w h : float)
| CallAddRoundedRectangle (x y w h csx csy : float)
| CallAddTriangle (x1 y1 x2 y2 x3 y3 : float)
| CallAddQuadrilateral (x1 y1 x2 y2 x3 y3 x4 y4 : float)
| CallAddEllipse (x y w h : float).

Definition applyCall (p : Path) (c : BuilderCall) : Path :=
  match c with
  | CallStartNewSubPath x y => startNewSubPath p x y
  | CallLineTo x y => lineTo p x y
  | CallQuadraticTo x1 y1 x2 y2 => quadraticTo p x1 y1 x2 y2
  | CallCubicTo x1 y1 x2 y2 x3 y3 => cubicTo p x1 y1 x2 y2 x3 y3
  | CallCloseSubPath => closeSubPath p
  | CallAddRectangle x y w h => addRectangle p x y w h
  | CallAddRoundedRectangle x y w h csx csy => addRoundedRectangle p x y w h csx csy
  | CallAddTriangle x1 y1 x2 y2 x3 y3 => addTriangle p x1 y1 x2 y2 x3 y3
  | CallAddQuadrilateral x1 y1 x2 y2 x3 y3 x4 y4 =>
      addQuadrilateral p x1 y1 x2 y2 x3 y3 x4 y4
  | CallAddEllipse x y w h => addEllipse p x y w h
  end.

(** The paths the builder interface constructs from the empty path: by
    the calls above and by [addPath] of a path constructed in the same
    way, with the winding flag set on the way. *)
Inductive built : Path -> Prop :=
| built_new : built Path_new
| built_call : forall p c, built p -> built (applyCall p c)
| built_addPath : forall p other q,
    built p -> built other -> addPath p other = Some q -> built q
| built_winding : forall p isNonZero, built p -> built (setUsingNonZeroWinding p isNonZero).

(** The paths the public mutating functions reach from the empty path:
    the builder calls, [addPath], [setUsingNonZeroWinding], [clear],
    [applyTransform] (and with it [scaleToFit]) and [loadPathFromStream]
    on any bytes.  ([swapWithPath], the copy constructor and the
    assignment hand on a path that was reached already;
    [restoreFromString] is [clear], [setUsingNonZeroWinding] and a
    sequence of the five primitive calls.  The const function
    [createPathWithRoundedCorners] returns a path of its own, into
    whose floats it stores directly: its result is not among these.) *)
Inductive reachable : Path -> Prop :=
| reach_new : reachable Path_new
| reach_call : forall p c, reachable p -> reachable (applyCall p c)
| reach_addPath : forall p other q,
    reachable p -> reachable other -> addPath p other = Some q -> reachable q
| reach_winding : forall p isNonZero,
    reachable p -> reachable (setUsingNonZeroWinding p isNonZero)
| reach_clear : forall p, reachable p -> reachable (clear p)
| reach_applyTransform : forall p t q,
    reachable p -> applyTransform p t = Some q -> reachable q
| reach_load : forall p source q,
    reachable p -> loadPathFromStream p source = Some q -> reachable q.

(** The bounding box as a property of the stored records: [m] is a
    least (greatest) element of the coordinates [l]. *)
Definition isMinOf (m : float) (l : list float) : Prop :=
  In m l /\ Forall (fun c => F32.leb m c = true) l.

Definition isMaxOf (m : float) (l : list float) : Prop :=
  In m l /\ Forall (fun c => F32.leb c m = true) l.

Definition noNaN (l : list float) : Prop := Forall (fun c => F32.isNaN c = false) l.

Definition lastCoordIsCloseValue (e : PathElement) : bool :=
  negb (isClose e) && F32.eqb (last (elementData e) closeSubPathMarker) closeSubPathMarker.

(** No close record directly follows a coordinate whose value is the
    close marker's. *)
Definition noCloseAfterCloseValue (es : list PathElement) : bool :=
  allAdjacent (fun e e' => negb (lastCoordIsCloseValue e && isClose e')) es.

(** The point a record ends at; a close record carries none. *)
Definition endPoint (e : PathElement) : option Point :=
  match e with
  | startNewSubPathElement x y => Some (mkPoint x y)
  | lineToElement x y => Some (mkPoint x y)
  | quadraticToElement _ _ x y => Some (mkPoint x y)
  | cubicToElement _ _ _ _ x y => Some (mkPoint x y)
  | closePathElement => None
  end.

(* ================================================================== *)
(** ** Auxiliary notions used in the proofs *)
(* ================================================================== *)

Definition sfNaN (x : spec_float) : bool :=
  match x with
  | S754_nan => true
  | _ => false
  end.

(** How [binary_round] relates the mantissa [M] at exponent [ez] to the
    mantissa [m'] and exponent [e'] of its result: an exact shift, a
    rounding to 24 digits, or a rounding that carries into the next
    binade. *)
Definition round_rel (M : positive) (ez : Z) (m' : positive) (e' : Z) : Prop :=
  let e1 := fexp 24 128 (Z.pos (digits2_pos M) + ez) in
  (e' = e1 /\ e1 <= ez /\ Z.pos m' = Z.pos M * 2 ^ (ez - e1)) \/
  (ez < e1 /\ e' = e1 /\ 2 ^ 23 <= Z.pos m' < 2 ^ 24 /\
   Z.pos M / 2 ^ (e1 - ez) <= Z.pos m' <= Z.pos M / 2 ^ (e1 - ez) + 1) \/
  (ez < e1 /\ e' = e1 + 1 /\ Z.pos m' = 2 ^ 23 /\
   2 ^ 24 - 1 <= Z.pos M / 2 ^ (e1 - ez)).

(** The bytes [writePathToStream] emits for one record. *)
Definition floatBytes (f : float) : list byte :=
  [F32.byte0 f; F32.byte1 f; F32.byte2 f; F32.byte3 f].

Definition elementBytes (e : PathElement) : list byte :=
  match e with
  | startNewSubPathElement x y => "m"%byte :: floatBytes x ++ floatBytes y
  | lineToElement x y => "l"%byte :: floatBytes x ++ floatBytes y
  | quadraticToElement x1 y1 x2 y2 =>
      "q"%byte :: floatBytes x1 ++ floatBytes y1 ++ floatBytes x2 ++ floatBytes y2
  | cubicToElement x1 y1 x2 y2 x3 y3 =>
      "b"%byte :: floatBytes x1 ++ floatBytes y1 ++ floatBytes x2 ++ floatBytes y2
                ++ floatBytes x3 ++ floatBytes y3
  | closePathElement => ["c"%byte]
  end.

(** The effect of one builder call on the record stream [es] that
    [data] holds. *)
Definition appendRecord (es : list PathElement) (e : PathElement) : list PathElement :=
  match e with
  | startNewSubPathElement _ _ => es ++ [e]
  | closePathElement =>
      match es with
      | [] => []
      | _ => if F32.neqb (last (streamData es) closeSubPathMarker) closeSubPathMarker
             then es ++ [e] else es
      end
  | _ =>
      match es with
      | [] => [startNewSubPathElement F32.zero F32.zero; e]
      | _ => es ++ [e]
      end
  end.

Definition rectangleRecords (x1 y1 x2 y2 : float) : list PathElement :=
  [startNewSubPathElement x1 y2; lineToElement x1 y1; lineToElement x2 y1;
   lineToElement x2 y2; closePathElement].

Definition transformElement (t : AffineTransform) (e : PathElement) : PathElement :=
  match e with
  | startNewSubPathElement x y =>
      let '(x, y) := transformPoint t x y in startNewSubPathElement x y
  | lineToElement x y =>
      let '(x, y) := transformPoint t x y in lineToElement x y
  | quadraticToElement x1 y1 x2 y2 =>
      let '(x1, y1) := transformPoint t x1 y1 in
      let '(x2, y2) := transformPoint t x2 y2 in
      quadraticToElement x1 y1 x2 y2
  | cubicToElement x1 y1 x2 y2 x3 y3 =>
      let '(x1, y1) := transformPoint t x1 y1 in
      let '(x2, y2) := transformPoint t x2 y2 in
      let '(x3, y3) := transformPoint t x3 y3 in
      cubicToElement x1 y1 x2 y2 x3 y3
  | closePathElement => closePathElement
  end.

(** The records of a path that the builder calls keep well formed. *)
Definition wellFormed (p : Path) : Prop :=
  exists es, data p = streamData es /\ beginsWithMove es = true
             /\ noConsecutiveClose es = true.

(** The records that a builder call other than [addRectangle] appends
    through the five primitive calls, in order. *)
Definition callElements (c : BuilderCall) : list PathElement :=
  match c with
  | CallStartNewSubPath x y => [startNewSubPathElement x y]
  | CallLineTo x y => [lineToElement x y]
  | CallQuadraticTo x1 y1 x2 y2 => [quadraticToElement x1 y1 x2 y2]
  | CallCubicTo x1 y1 x2 y2 x3 y3 => [cubicToElement x1 y1 x2 y2 x3 y3]
  | CallCloseSubPath => [closePathElement]
  | CallAddRectangle x y w h => []
  | CallAddRoundedRectangle x y w h csx csy =>
      let csx := jmin csx (F32.mul w F32.half) in
      let csy := jmin csy (F32.mul h F32.half) in
      let cs45x := F32.mul csx f045 in
      let cs45y := F32.mul csy f045 in
      let x2 := F32.add x w in
      let y2 := F32.add y h in
      [startNewSubPathElement (F32.add x csx) y;
       lineToElement (F32.sub x2 csx) y;
       cubicToElement (F32.sub x2 cs45x) y x2 (F32.add y cs45y) x2 (F32.add y csy);
       lineToElement x2 (F32.sub y2 csy);
       cubicToElement x2 (F32.sub y2 cs45y) (F32.sub x2 cs45x) y2 (F32.sub x2 csx) y2;
       lineToElement (F32.add x csx) y2;
       cubicToElement (F32.add x cs45x) y2 x (F32.sub y2 cs45y) x (F32.sub y2 csy);
       lineToElement x (F32.add y csy);
       cubicToElement x (F32.add y cs45y) (F32.add x cs45x) y (F32.add x csx) y;
       closePathElement]
  | CallAddTriangle x1 y1 x2 y2 x3 y3 =>
      [startNewSubPathElement x1 y1; lineToElement x2 y2; lineToElement x3 y3;
       closePathElement]
  | CallAddQuadrilateral x1 y1 x2 y2 x3 y3 x4 y4 =>
      [startNewSubPathElement x1 y1; lineToElement x2 y2; lineToElement x3 y3;
       lineToElement x4 y4; closePathElement]
  | CallAddEllipse x y w h =>
      let hw := F32.mul w F32.half in
      let hw55 := F32.mul hw f055 in
      let hh := F32.mul h F32.half in
      let hh45 := F32.mul hh f055 in
      let cx := F32.add x hw in
      let cy := F32.add y hh in
      [startNewSubPathElement cx (F32.sub cy hh);
       cubicToElement (F32.add cx hw55) (F32.sub cy hh) (F32.add cx hw) (F32.sub cy hh45)
                      (F32.add cx hw) cy;
       cubicToElement (F32.add cx hw) (F32.add cy hh45) (F32.add cx hw55) (F32.add cy hh)
                      cx (F32.add cy hh);
       cubicToElement (F32.sub cx hw55) (F32.add cy hh) (F32.sub cx hw) (F32.add cy hh45)
                      (F32.sub cx hw) cy;
       cubicToElement (F32.sub cx hw) (F32.sub cy hh45) (F32.sub cx hw55) (F32.sub cy hh)
                      cx (F32.sub cy hh);
       closePathElement]
  end.

Definition isAddRectangle (c : BuilderCall) : bool :=
  match c with
  | CallAddRectangle _ _ _ _ => true
  | _ => false
  end.

(** The edges of the rectangle after [addRectangle] has ordered them. *)
Definition rectangleEdges (x y w h : float) : float * float * float * float :=
  let x2 := F32.add x w in
  let y2 := F32.add y h in
  let '(x1, x2) := if F32.ltb w F32.zero then swapVariables (x, x2) else (x, x2) in
  let '(y1, y2) := if F32.ltb h F32.zero then swapVariables (y, y2) else (y, y2) in
  (x1, y1, x2, y2).

(** No close record of the path directly follows a coordinate whose
    value is the close marker's. *)
Definition closesFollowOtherValues (p : Path) : bool :=
  match records (data p) with
  | Some es => noCloseAfterCloseValue es
  | None => false
  end.

(** The stored bounding box is exact for the records [es]: all zero when
    there are none, and otherwise the least and the greatest of the x
    and of the y coordinates that the records hold. *)
Definition boundsExact (p : Path) (es : list PathElement) : Prop :=
  match es with
  | [] => pathXMin p = F32.zero /\ pathXMax p = F32.zero
          /\ pathYMin p = F32.zero /\ pathYMax p = F32.zero
  | _ => isMinOf (pathXMin p) (flat_map xCoords es)
         /\ isMaxOf (pathXMax p) (flat_map xCoords es)
         /\ isMinOf (pathYMin p) (flat_map yCoords es)
         /\ isMaxOf (pathYMax p) (flat_map yCoords es)
  end.

Definition boundsInvariant (p : Path) : Prop :=
  exists es, data p = streamData es /\ beginsWithMove es = true /\ boundsExact p es.

(* ================================================================== *)
(** ** Further member functions *)
(* ================================================================== *)

(** [addPath (other, transformToApply)]: the receiver and [other] are
    distinct objects.  The close marker is tested first; for every other
    float in marker position two floats are read and transformed before
    the marker is looked at, and are dropped when it is none of the
    markers.  [None] stands for a read past the floats of [other]. *)
Fixpoint addPathTransformedFrom (t : AffineTransform) (p : Path) (l : list float)
  : option Path :=
  match l with
  | [] => Some p
  | type :: rest =>
      if F32.eqb type closeSubPathMarker then
        addPathTransformedFrom t (closeSubPath p) rest
      else
        match rest with
        | x :: y :: rest' =>
            let '(x, y) := transformPoint t x y in
            if F32.eqb type moveMarker then
              addPathTransformedFrom t (startNewSubPath p x y) rest'
            else if F32.eqb type lineMarker then
              addPathTransformedFrom t (lineTo p x y) rest'
            else if F32.eqb type quadMarker then
              match rest' with
              | x2 :: y2 :: rest'' =>
                  let '(x2, y2) := transformPoint t x2 y2 in
                  addPathTransformedFrom t (quadraticTo p x y x2 y2) rest''
              | _ => None
              end
            else if F32.eqb type cubicMarker then
              match rest' with
              | x2 :: y2 :: x3 :: y3 :: rest'' =>
                  let '(x2, y2) := transformPoint t x2 y2 in
                  let '(x3, y3) := transformPoint t x3 y3 in
                  addPathTransformedFrom t (cubicTo p x y x2 y2 x3 y3) rest''
              | _ => None
              end
            else
              addPathTransformedFrom t p rest'
        | _ => None
        end
  end.

Definition addPathTransformed (p other : Path) (transformToApply : AffineTransform)
  : option Path :=
  addPathTransformedFrom transformToApply p (data other).

(** [addPath (other)] when [other] is the receiver itself: one turn of
    the loop reads the floats of the record at [i] from the path that
    the turns before have extended, and appends to that same path.
    [None] stands for a read outside the floats in use. *)
Definition addPathToItselfStep (p : Path) (i : Z) : option (Path * Z) :=
  match element p i with
  | None => None
  | Some type =>
      let i := i + 1 in
      if F32.eqb type moveMarker then
        match element p i, element p (i + 1) with
        | Some x, Some y => Some (startNewSubPath p x y, i + 2)
        | _, _ => None
        end
      else if F32.eqb type lineMarker then
        match element p i, element p (i + 1) with
        | Some x, Some y => Some (lineTo p x y, i + 2)
        | _, _ => None
        end
      else if F32.eqb type quadMarker then
        match element p i, element p (i + 1), element p (i + 2), element p (i + 3) with
        | Some a1, Some b1, Some a2, Some b2 => Some (quadraticTo p a1 b1 a2 b2, i + 4)
        | _, _, _, _ => None
        end
      else if F32.eqb type cubicMarker then
        match element p i, element p (i + 1), element p (i + 2), element p (i + 3),
              element p (i + 4), element p (i + 5) with
        | Some a1, Some b1, Some a2, Some b2, Some a3, Some b3 =>
            Some (cubicTo p a1 b1 a2 b2 a3 b3, i + 6)
        | _, _, _, _, _, _ => None
        end
      else if F32.eqb type closeSubPathMarker then
        Some (closeSubPath p, i)
      else
        Some (p, i)
  end.

(** [while (i < other.numElements)] with [other] the receiver: the
    bound is read anew in every turn.  The outer [None] is the bounded
    loop giving up, the inner one a read outside the floats in use. *)
Fixpoint addPathToItself (fuel : nat) (p : Path) (i : Z) : option (option Path) :=
  match fuel with
  | O => None
  | S fuel' =>
      if i <? numElements p then
        match addPathToItselfStep p i with
        | None => Some None
        | Some (p', i') => addPathToItself fuel' p' i'
        end
      else Some (Some p)
  end.

(** A close record may follow the record [a]: [a] is no close, and its
    last coordinate has not the value of the close marker. *)
Definition mayFollow (a e : PathElement) : bool :=
  negb (isClose e && (isClose a || lastCoordIsCloseValue a)).

(** [Path::Iterator]: the index into the floats of the path and the
    public fields that [next] fills in.  The constructor sets the index
    to zero and leaves the fields as they are. *)
Module Iterator.

Inductive PathElementType : Type :=
| startNewSubPath
| lineTo
| quadraticTo
| cubicTo
| closePath.

Record t : Type :=
  mk { index : Z; elementType : PathElementType;
       x1 : float; y1 : float; x2 : float; y2 : float; x3 : float; y3 : float }.

(** [next ()]: the result and the iterator after the call; [None]
    stands for a read outside the floats in use.  (The index stays
    within six floats of [numElements]; it does not wrap around.) *)
Definition next (p : Path) (it : t) : option (bool * t) :=
  if index it <? numElements p then
    match element p (index it) with
    | None => None
    | Some type =>
        let i := index it + 1 in
        if F32.eqb type moveMarker then
          match element p i, element p (i + 1) with
          | Some a1, Some b1 =>
              Some (true, mk (i + 2) startNewSubPath a1 b1 (x2 it) (y2 it) (x3 it) (y3 it))
          | _, _ => None
          end
        else if F32.eqb type lineMarker then
          match element p i, element p (i + 1) with
          | Some a1, Some b1 =>
              Some (true, mk (i + 2) lineTo a1 b1 (x2 it) (y2 it) (x3 it) (y3 it))
          | _, _ => None
          end
        else if F32.eqb type quadMarker then
          match element p i, element p (i + 1), element p (i + 2), element p (i + 3) with
          | Some a1, Some b1, Some a2, Some b2 =>
              Some (true, mk (i + 4) quadraticTo a1 b1 a2 b2 (x3 it) (y3 it))
          | _, _, _, _ => None
          end
        else if F32.eqb type cubicMarker then
          match element p i, element p (i + 1), element p (i + 2), element p (i + 3),
                element p (i + 4), element p (i + 5) with
          | Some a1, Some b1, Some a2, Some b2, Some a3, Some b3 =>
              Some (true, mk (i + 6) cubicTo a1 b1 a2 b2 a3 b3)
          | _, _, _, _, _, _ => None
          end
        else if F32.eqb type closeSubPathMarker then
          Some (true, mk i closePath (x1 it) (y1 it) (x2 it) (y2 it) (x3 it) (y3 it))
        else
          Some (true, mk i (elementType it) (x1 it) (y1 it) (x2 it) (y2 it) (x3 it) (y3 it))
    end
  else Some (false, it).

(** The record that the fields describe after a call of [next]. *)
Definition current (it : t) : PathElement :=
  match elementType it with
  | startNewSubPath => startNewSubPathElement (x1 it) (y1 it)
  | lineTo => lineToElement (x1 it) (y1 it)
  | quadraticTo => quadraticToElement (x1 it) (y1 it) (x2 it) (y2 it)
  | cubicTo => cubicToElement (x1 it) (y1 it) (x2 it) (y2 it) (x3 it) (y3 it)
  | closePath => closePathElement
  end.

(** [while (it.next ()) ...]: the records seen until [next] returns
    false; [None] when a read leaves the floats in use or the bounded
    loop gives up. *)
Fixpoint visit (fuel : nat) (p : Path) (it : t) : option (list PathElement) :=
  match fuel with
  | O => None
  | S fuel' =>
      match next p it with
      | None => None
      | Some (false, _) => Some []
      | Some (true, it') => option_map (cons (current it')) (visit fuel' p it')
      end
  end.

End Iterator.

(** A record that draws nothing: a move or a close. *)
Definition drawsNothing (e : PathElement) : bool := isMove e || isClose e.

(** The path that holds the records [es] with the bounds [b]; it lets
    the bounds that [applyTransform] accumulates be compared with those
    the builder functions maintain. *)
Definition withBounds (es : list PathElement) (b : Bounds) : Path :=
  mkPath (streamData es) (bXMin b) (bXMax b) (bYMin b) (bYMax b) true.

(* ================================================================== *)
(** ** Arcs and stars *)
(* ================================================================== *)

(** [PathHelpers::ellipseAngularIncrement], the literal [0.05f]; and the
    literal [2.0f]. *)
Definition ellipseAngularIncrement : float :=
  Eval vm_compute in F32.div (F32.ofZ 5) (F32.ofZ 100).
Definition two : float := Eval vm_compute in F32.ofZ 2.

Section Trigonometry.

(** [sinf] and [cosf] of the C library, and [float_Pi] and
    [AffineTransform::rotation (angle, pivotX, pivotY)] of the JUCE core,
    are not among the sources: they are parameters. *)
Variables sinf cosf : float -> float.
Variable float_Pi : float.
Variable AffineTransform_rotation : float -> float -> float -> AffineTransform.

(** The three statements that [addCentredArc] repeats for every point:
    [x = centreX + radiusX * sinf (angle)],
    [y = centreY - radiusY * cosf (angle)], and the rotation of the point
    when [rotationOfEllipse != 0]. *)
Definition arcPoint (centreX centreY radiusX radiusY rotationOfEllipse angle : float)
  : float * float :=
  let x := F32.add centreX (F32.mul radiusX (sinf angle)) in
  let y := F32.sub centreY (F32.mul radiusY (cosf angle)) in
  if F32.neqb rotationOfEllipse F32.zero
  then transformPoint (AffineTransform_rotation rotationOfEllipse centreX centreY) x y
  else (x, y).

(** [while (angle < toRadians) { lineTo (x, y); angle += increment; }];
    [None] is the bounded loop giving up. *)
Fixpoint arcForwards (fuel : nat) (p : Path)
         (centreX centreY radiusX radiusY rotationOfEllipse toRadians angle : float)
  : option Path :=
  match fuel with
  | O => None
  | S fuel' =>
      if F32.ltb angle toRadians then
        let '(x, y) := arcPoint centreX centreY radiusX radiusY rotationOfEllipse angle in
        arcForwards fuel' (lineTo p x y)
                    centreX centreY radiusX radiusY rotationOfEllipse toRadians
                    (F32.add angle ellipseAngularIncrement)
      else Some p
  end.

(** [while (angle > toRadians) { lineTo (x, y); angle -= increment; }] *)
Fixpoint arcBackwards (fuel : nat) (p : Path)
         (centreX centreY radiusX radiusY rotationOfEllipse toRadians angle : float)
  : option Path :=
  match fuel with
  | O => None
  | S fuel' =>
      if F32.gtb angle toRadians then
        let '(x, y) := arcPoint centreX centreY radiusX radiusY rotationOfEllipse angle in
        arcBackwards fuel' (lineTo p x y)
                     centreX centreY radiusX radiusY rotationOfEllipse toRadians
                     (F32.sub angle ellipseAngularIncrement)
      else Some p
  end.

Definition addCentredArc (fuel : nat) (p : Path)
           (centreX centreY radiusX radiusY rotationOfEllipse fromRadians toRadians : float)
           (startAsNewSubPath : bool) : option Path :=
  if F32.gtb radiusX F32.zero && F32.gtb radiusY F32.zero then
    let angle := fromRadians in
    let p :=
      if startAsNewSubPath then
        let '(x, y) := arcPoint centreX centreY radiusX radiusY rotationOfEllipse angle in
        startNewSubPath p x y
      else p in
    let looped :=
      if F32.ltb fromRadians toRadians then
        arcForwards fuel p centreX centreY radiusX radiusY rotationOfEllipse toRadians
                    (if startAsNewSubPath
                     then F32.add angle ellipseAngularIncrement else angle)
      else
        arcBackwards fuel p centreX centreY radiusX radiusY rotationOfEllipse toRadians
                     (if startAsNewSubPath
                      then F32.sub angle ellipseAngularIncrement else angle) in
    match looped with
    | Some p =>
        let '(x, y) :=
          arcPoint centreX centreY radiusX radiusY rotationOfEllipse toRadians in
        Some (lineTo p x y)
    | None => None
    end
  else Some p.

Definition addArc (fuel : nat) (p : Path) (x y w h fromRadians toRadians : float)
           (startAsNewSubPath : bool) : option Path :=
  let radiusX := F32.div w two in
  let radiusY := F32.div h two in
  addCentredArc fuel p (F32.add x radiusX) (F32.add y radiusY) radiusX radiusY
                F32.zero fromRadians toRadians startAsNewSubPath.

(** One turn of the loop of [addStar], for the counter [i]. *)
Definition addStarPoint (p : Path) (centreX centreY innerRadius outerRadius startAngle
                                    angleBetweenPoints : float) (i : Z) : Path :=
  let angle := F32.add startAngle (F32.mul (F32.ofZ i) angleBetweenPoints) in
  let x := F32.add centreX (F32.mul outerRadius (sinf angle)) in
  let y := F32.sub centreY (F32.mul outerRadius (cosf angle)) in
  let p := if i =? 0 then startNewSubPath p x y else lineTo p x y in
  let angle := F32.add angle (F32.mul angleBetweenPoints F32.half) in
  lineTo p (F32.add centreX (F32.mul innerRadius (sinf angle)))
           (F32.sub centreY (F32.mul innerRadius (cosf angle))).

(** [for (int i = ...; i < numberOfPoints; ++i)], with [remaining] turns
    to go. *)
Fixpoint addStarLoop (remaining : nat) (i : Z) (p : Path)
         (centreX centreY innerRadius outerRadius startAngle angleBetweenPoints : float)
  : Path :=
  match remaining with
  | O => p
  | S remaining' =>
      addStarLoop remaining' (i + 1)
                  (addStarPoint p centreX centreY innerRadius outerRadius startAngle
                                angleBetweenPoints i)
                  centreX centreY innerRadius outerRadius startAngle angleBetweenPoints
  end.

(** [numberOfPoints] is an [int]. *)
Definition addStar (p : Path) (centreX centreY : float) (numberOfPoints : Z)
           (innerRadius outerRadius startAngle : float) : Path :=
  if numberOfPoints >? 1 then
    let angleBetweenPoints :=
      F32.div (F32.mul float_Pi two) (F32.ofZ numberOfPoints) in
    closeSubPath
      (addStarLoop (Z.to_nat numberOfPoints) 0 p centreX centreY innerRadius outerRadius
                   startAngle angleBetweenPoints)
  else p.

(** [fabs] clears the sign bit. *)
Definition fabs (a : float) : float := F32.ofBits (F32.bitsOf a mod 2 ^ 31).

(** The literals [1.999f] and [1.5f]. *)
Definition f1999 : float := Eval vm_compute in F32.div (F32.ofZ 1999) (F32.ofZ 1000).
Definition f15 : float := Eval vm_compute in F32.div (F32.ofZ 3) (F32.ofZ 2).

(** [addPieSegment]; the calls of [addArc] leave [startAsNewSubPath] at
    its default, which is false.  [None] is a bounded loop of [addArc]
    giving up. *)
Definition addPieSegment (fuel : nat) (p : Path)
           (x y width height fromRadians toRadians innerCircleProportionalSize : float)
  : option Path :=
  let hw := F32.mul width F32.half in
  let hh := F32.mul height F32.half in
  let centreX := F32.add x hw in
  let centreY := F32.add y hh in
  let p := startNewSubPath p (F32.add centreX (F32.mul hw (sinf fromRadians)))
                           (F32.sub centreY (F32.mul hh (cosf fromRadians))) in
  match addArc fuel p x y width height fromRadians toRadians false with
  | None => None
  | Some p =>
      let inner :=
        if F32.gtb (fabs (F32.sub fromRadians toRadians)) (F32.mul float_Pi f1999) then
          let p := closeSubPath p in
          if F32.gtb innerCircleProportionalSize F32.zero then
            let hw := F32.mul hw innerCircleProportionalSize in
            let hh := F32.mul hh innerCircleProportionalSize in
            let p := startNewSubPath p (F32.add centreX (F32.mul hw (sinf toRadians)))
                                     (F32.sub centreY (F32.mul hh (cosf toRadians))) in
            addArc fuel p (F32.sub centreX hw) (F32.sub centreY hh)
                   (F32.mul hw two) (F32.mul hh two) toRadians fromRadians false
          else Some p
        else
          if F32.gtb innerCircleProportionalSize F32.zero then
            let hw := F32.mul hw innerCircleProportionalSize in
            let hh := F32.mul hh innerCircleProportionalSize in
            addArc fuel p (F32.sub centreX hw) (F32.sub centreY hh)
                   (F32.mul hw two) (F32.mul hh two) toRadians fromRadians false
          else Some (lineTo p centreX centreY) in
      option_map closeSubPath inner
  end.

(** [if (cs > 0.0f) addArc (...)] in [addBubble], after the calls
    before it have returned. *)
Definition bubbleCorner (fuel : nat) (cs : float) (p : option Path)
           (x y w h fromRadians toRadians : float) : option Path :=
  match p with
  | None => None
  | Some p =>
      if F32.gtb cs F32.zero then addArc fuel p x y w h fromRadians toRadians false
      else Some p
  end.

(** [addBubble]; [whichSide] is an [int].  The calls of [addArc] leave
    [startAsNewSubPath] at its default, which is false. *)
Definition addBubble (fuel : nat) (p : Path)
           (x y w h cs tipX tipY : float) (whichSide : Z) (arrowPos arrowWidth : float)
  : option Path :=
  if F32.gtb w F32.one && F32.gtb h F32.one then
    let cs := jmin3 cs (F32.mul w F32.half) (F32.mul h F32.half) in
    let cs2 := F32.mul two cs in
    let p := startNewSubPath p (F32.add x cs) y in
    let p :=
      if whichSide =? 0 then
        let halfArrowW := F32.mul (jmin arrowWidth (F32.sub w cs2)) F32.half in
        let arrowX1 :=
          F32.add (F32.add x cs)
                  (jmax F32.zero
                        (F32.sub (F32.mul (F32.sub w cs2) arrowPos) halfArrowW)) in
        let p := lineTo p arrowX1 y in
        let p := lineTo p tipX tipY in
        lineTo p (F32.add arrowX1 (F32.mul halfArrowW two)) y
      else p in
    let p := lineTo p (F32.sub (F32.add x w) cs) y in
    let p := bubbleCorner fuel cs (Some p) (F32.sub (F32.add x w) cs2) y cs2 cs2
                          F32.zero (F32.mul float_Pi F32.half) in
    let p :=
      option_map
        (fun p =>
           let p :=
             if whichSide =? 3 then
               let halfArrowH := F32.mul (jmin arrowWidth (F32.sub h cs2)) F32.half in
               let arrowY1 :=
                 F32.add (F32.add y cs)
                         (jmax F32.zero
                               (F32.sub (F32.mul (F32.sub h cs2) arrowPos) halfArrowH)) in
               let p := lineTo p (F32.add x w) arrowY1 in
               let p := lineTo p tipX tipY in
               lineTo p (F32.add x w) (F32.add arrowY1 (F32.mul halfArrowH two))
             else p in
           lineTo p (F32.add x w) (F32.sub (F32.add y h) cs)) p in
    let p := bubbleCorner fuel cs p (F32.sub (F32.add x w) cs2)
                          (F32.sub (F32.add y h) cs2) cs2 cs2
                          (F32.mul float_Pi F32.half) float_Pi in
    let p :=
      option_map
        (fun p =>
           let p :=
             if whichSide =? 2 then
               let halfArrowW := F32.mul (jmin arrowWidth (F32.sub w cs2)) F32.half in
               let arrowX1 :=
                 F32.add (F32.add x cs)
                         (jmax F32.zero
                               (F32.sub (F32.mul (F32.sub w cs2) arrowPos) halfArrowW)) in
               let p := lineTo p (F32.add arrowX1 (F32.mul halfArrowW two))
                                 (F32.add y h) in
               let p := lineTo p tipX tipY in
               lineTo p arrowX1 (F32.add y h)
             else p in
           lineTo p (F32.add x cs) (F32.add y h)) p in
    let p := bubbleCorner fuel cs p x (F32.sub (F32.add y h) cs2) cs2 cs2
                          float_Pi (F32.mul float_Pi f15) in
    let p :=
      option_map
        (fun p =>
           let p :=
             if whichSide =? 1 then
               let halfArrowH := F32.mul (jmin arrowWidth (F32.sub h cs2)) F32.half in
               let arrowY1 :=
                 F32.add (F32.add y cs)
                         (jmax F32.zero
                               (F32.sub (F32.mul (F32.sub h cs2) arrowPos) halfArrowH)) in
               let p := lineTo p x (F32.add arrowY1 (F32.mul halfArrowH two)) in
               let p := lineTo p tipX tipY in
               lineTo p x arrowY1
             else p in
           lineTo p x (F32.add y cs)) p in
    let p := bubbleCorner fuel cs p x y cs2 cs2
                          (F32.mul float_Pi f15)
                          (F32.sub (F32.mul float_Pi two) ellipseAngularIncrement) in
    option_map closeSubPath p
  else Some p.

End Trigonometry.

(* ================================================================== *)
(** ** Thick lines and arrows *)
(* ================================================================== *)

(** The literal [0.8f]. *)
Definition f08 : float := Eval vm_compute in F32.div (F32.ofZ 8) (F32.ofZ 10).

Section Hypotenuse.

(** [juce_hypotf] of the JUCE core is not among the sources: it is a
    parameter. *)
Variable juce_hypotf : float -> float -> float.

(** [PathHelpers::perpendicularOffset]: the pair [(resultX, resultY)]. *)
Definition perpendicularOffset (x1 y1 x2 y2 offsetX offsetY : float) : float * float :=
  let dx := F32.sub x2 x1 in
  let dy := F32.sub y2 y1 in
  let len := juce_hypotf dx dy in
  if F32.eqb len F32.zero then (x1, y1)
  else
    (F32.add x1 (F32.div (F32.sub (F32.mul dx offsetX) (F32.mul dy offsetY)) len),
     F32.add y1 (F32.div (F32.add (F32.mul dy offsetX) (F32.mul dx offsetY)) len)).

Definition addLineSegment (p : Path) (startX startY endX endY lineThickness : float)
  : Path :=
  let lineThickness := F32.mul lineThickness F32.half in
  let '(x, y) := perpendicularOffset startX startY endX endY F32.zero lineThickness in
  let p := startNewSubPath p x y in
  let '(x, y) :=
    perpendicularOffset startX startY endX endY F32.zero (F32.neg lineThickness) in
  let p := lineTo p x y in
  let '(x, y) := perpendicularOffset endX endY startX startY F32.zero lineThickness in
  let p := lineTo p x y in
  let '(x, y) :=
    perpendicularOffset endX endY startX startY F32.zero (F32.neg lineThickness) in
  let p := lineTo p x y in
  closeSubPath p.

Definition addArrow (p : Path)
           (startX startY endX endY lineThickness arrowheadWidth arrowheadLength : float)
  : Path :=
  let lineThickness := F32.mul lineThickness F32.half in
  let arrowheadWidth := F32.mul arrowheadWidth F32.half in
  let arrowheadLength :=
    jmin arrowheadLength
         (F32.mul f08 (juce_hypotf (F32.sub startX endX) (F32.sub startY endY))) in
  let '(x, y) := perpendicularOffset startX startY endX endY F32.zero lineThickness in
  let p := startNewSubPath p x y in
  let '(x, y) :=
    perpendicularOffset startX startY endX endY F32.zero (F32.neg lineThickness) in
  let p := lineTo p x y in
  let '(x, y) :=
    perpendicularOffset endX endY startX startY arrowheadLength lineThickness in
  let p := lineTo p x y in
  let '(x, y) :=
    perpendicularOffset endX endY startX startY arrowheadLength arrowheadWidth in
  let p := lineTo p x y in
  let '(x, y) := perpendicularOffset endX endY startX startY F32.zero F32.zero in
  let p := lineTo p x y in
  let '(x, y) :=
    perpendicularOffset endX endY startX startY arrowheadLength (F32.neg arrowheadWidth) in
  let p := lineTo p x y in
  let '(x, y) :=
    perpendicularOffset endX endY startX startY arrowheadLength (F32.neg lineThickness) in
  let p := lineTo p x y in
  closeSubPath p.

End Hypotenuse.

Definition isLineTo (e : PathElement) : bool :=
  match e with
  | lineToElement _ _ => true
  | _ => false
  end.

(* ================================================================== *)
(** ** The textual format *)
(* ================================================================== *)

(** A character, as the number that a [juce_wchar] holds. *)
Definition chr (b : byte) : Z := F32.byteZ b.
Arguments chr b%_byte.

(** A record with every coordinate replaced by its image under [f]. *)
Definition mapCoords (f : float -> float) (e : PathElement) : PathElement :=
  match e with
  | startNewSubPathElement x y => startNewSubPathElement (f x) (f y)
  | lineToElement x y => lineToElement (f x) (f y)
  | quadraticToElement x1 y1 x2 y2 => quadraticToElement (f x1) (f y1) (f x2) (f y2)
  | cubicToElement x1 y1 x2 y2 x3 y3 =>
      cubicToElement (f x1) (f y1) (f x2) (f y2) (f x3) (f y3)
  | closePathElement => closePathElement
  end.

(** The letter that [toString] writes for a record. *)
Definition markerChar (e : PathElement) : Z :=
  match e with
  | startNewSubPathElement _ _ => chr "m"
  | lineToElement _ _ => chr "l"
  | quadraticToElement _ _ _ _ => chr "q"
  | cubicToElement _ _ _ _ _ _ => chr "c"
  | closePathElement => chr "z"
  end.

(** The tokens of a text, separated by single spaces. *)
Fixpoint joinTokens (tokens : list (list Z)) : list Z :=
  match tokens with
  | [] => []
  | [token] => token
  | token :: rest => token ++ chr " " :: joinTokens rest
  end.

Section Text.

(** Modelled from the spec: the strings of the textual format ([String]
    and [CharacterFunctions] of the JUCE core are not among the
    sources).  A string is the list of its characters, the terminating
    zero left implicit; [isWhitespace], [String::getFloatValue] and the
    constructor [String (float, 3)], which writes a float with three
    decimal places, are parameters.  The terminating zero is no white
    space, so a scan for white space stops at the end of the string. *)
Variable isWhitespace : Z -> bool.
Variable getFloatValue : list Z -> float.
Variable floatToString : float -> list Z.

(** [*t], and [token [0]] *)
Definition deref (t : list Z) : Z :=
  match t with
  | [] => 0
  | c :: _ => c
  end.

(** [while (isWhitespace ( *t)) ++t;] *)
Fixpoint skipWhitespace (t : list Z) : list Z :=
  match t with
  | c :: t' => if isWhitespace c then skipWhitespace t' else t
  | [] => []
  end.

(** [while ( *t != 0 && ! isWhitespace ( *t)) ++t;]: the characters
    passed over and the position reached. *)
Fixpoint skipToken (t : list Z) : list Z * list Z :=
  match t with
  | c :: t' =>
      if negb (c =? 0) && negb (isWhitespace c)
      then let '(token, rest) := skipToken t' in (c :: token, rest)
      else ([], t)
  | [] => ([], [])
  end.

(** [PathHelpers::nextToken (t)]: the token and the new position. *)
Definition nextToken (t : list Z) : list Z * list Z :=
  let t := skipWhitespace t in
  let '(token, t) := skipToken t in
  (token, skipWhitespace t).

(** [for (int i = startNum; i < numValues; ++i)
       values [i] = PathHelpers::nextToken (t).getFloatValue();]
    with [count] values to read. *)
Fixpoint readValues (count : nat) (t : list Z) : list float * list Z :=
  match count with
  | O => ([], t)
  | S count' =>
      let '(token, t) := nextToken t in
      let '(values, t) := readValues count' t in
      (getFloatValue token :: values, t)
  end.

(** The tests on the first character of a token: the [marker],
    [numValues] and [startNum] with which the turn goes on, or [None]
    for the letter [a], after which the loop continues at once. *)
Definition tokenHeader (firstChar marker numValues : Z) : option (Z * Z * Z) :=
  if (firstChar =? chr "m") || (firstChar =? chr "l") then Some (firstChar, 2, 0)
  else if firstChar =? chr "q" then Some (firstChar, 4, 0)
  else if firstChar =? chr "c" then Some (firstChar, 6, 0)
  else if firstChar =? chr "z" then Some (firstChar, 0, 0)
  else if firstChar =? chr "a" then None
  else Some (marker, numValues, 1).

(** [switch (marker)] *)
Definition switchMarker (marker : Z) (values : list float) (p : Path) : Path :=
  let v := fun i => nth i values F32.zero in
  if marker =? chr "m" then startNewSubPath p (v 0%nat) (v 1%nat)
  else if marker =? chr "l" then lineTo p (v 0%nat) (v 1%nat)
  else if marker =? chr "q" then quadraticTo p (v 0%nat) (v 1%nat) (v 2%nat) (v 3%nat)
  else if marker =? chr "c" then
    cubicTo p (v 0%nat) (v 1%nat) (v 2%nat) (v 3%nat) (v 4%nat) (v 5%nat)
  else if marker =? chr "z" then closeSubPath p
  else p.

(** The loop of [restoreFromString].  Every element of [values] that a
    turn of the loop uses is assigned in that turn, so the array is the
    list of the values of the turn.  [None] is the bounded loop giving
    up. *)
Fixpoint restoreFromStringLoop (fuel : nat) (t : list Z) (marker : Z) (numValues : Z)
         (p : Path) : option Path :=
  match fuel with
  | O => None
  | S fuel' =>
      if deref t =? 0 then Some p
      else
        let '(token, t) := nextToken t in
        let firstChar := deref token in
        match tokenHeader firstChar marker numValues with
        | None =>
            restoreFromStringLoop fuel' t marker numValues (setUsingNonZeroWinding p false)
        | Some (marker, numValues, startNum) =>
            let first := if startNum =? 1 then [getFloatValue token] else [] in
            let '(read, t) := readValues (Z.to_nat (numValues - startNum)) t in
            restoreFromStringLoop fuel' t marker numValues
                                  (switchMarker marker (first ++ read) p)
        end
  end.

(** Every turn of the loop passes over a character at least. *)
Definition restoreFromString (p : Path) (stringVersion : list Z) : option Path :=
  restoreFromStringLoop (S (length stringVersion)) stringVersion (chr "m") 2
                        (setUsingNonZeroWinding (clear p) true).

(** [coord.endsWithChar ('0') && coord != "0"], then
    [coord = coord.dropLastCharacters (1)], as long as it holds; [r] is
    the string read backwards. *)
Fixpoint dropZeros (r : list Z) : list Z :=
  match r with
  | c :: r' =>
      if (c =? chr "0") && negb (match r' with [] => true | _ => false end)
      then dropZeros r'
      else r
  | [] => []
  end.

(** The text of a coordinate: [String (x, 3)] without its trailing
    zeros and without a trailing point. *)
Definition coordText (x : float) : list Z :=
  let r := dropZeros (rev (floatToString x)) in
  rev (match r with
       | c :: r' => if c =? chr "." then r' else r
       | [] => []
       end).

(** [if (s.getDataSize() != 0) s << ' ';  s << text;] *)
Definition writeSpaced (s text : list Z) : list Z :=
  match s with
  | [] => text
  | _ => s ++ chr " " :: text
  end.

(** [while (--numCoords >= 0 && i < numElements)]: the stream and the
    floats left. *)
Fixpoint writeCoords (numCoords : nat) (l : list float) (s : list Z)
  : list Z * list float :=
  match numCoords, l with
  | S n, x :: l' => writeCoords n l' (writeSpaced s (coordText x))
  | _, _ => (s, l)
  end.

(** The loop of [toString]; it never reads outside the floats in use.
    [None] is the bounded loop giving up. *)
Fixpoint toStringLoop (fuel : nat) (l : list float) (lastMarker : float) (s : list Z)
  : option (list Z) :=
  match fuel with
  | O => None
  | S fuel' =>
      match l with
      | [] => Some s
      | marker :: rest =>
          let '(markerChar, numCoords) :=
            if F32.eqb marker moveMarker then (chr "m", 2%nat)
            else if F32.eqb marker lineMarker then (chr "l", 2%nat)
            else if F32.eqb marker quadMarker then (chr "q", 4%nat)
            else if F32.eqb marker cubicMarker then (chr "c", 6%nat)
            else (chr "z", 0%nat) in
          let '(s, lastMarker) :=
            if F32.neqb marker lastMarker
            then (writeSpaced s [markerChar], marker)
            else (s, lastMarker) in
          let '(s, rest) := writeCoords numCoords rest s in
          toStringLoop fuel' rest lastMarker s
      end
  end.

(** Every turn of the loop passes over a float at least. *)
Definition toString (p : Path) : option (list Z) :=
  toStringLoop (S (length (data p))) (data p) F32.zero
               (if useNonZeroWinding p then [] else [chr "a"]).

(** A text that [nextToken] reads back as one token, and that
    [restoreFromString] takes for a number: not empty, without white
    space or a zero character, and not beginning with one of the
    letters of the format. *)
Definition isNumberToken (token : list Z) : Prop :=
  token <> []
  /\ Forall (fun c => c <> 0 /\ isWhitespace c = false) token
  /\ ~ In (deref token) [chr "m"; chr "l"; chr "q"; chr "c"; chr "z"; chr "a"].

(** The value that a coordinate has after it was written and read. *)
Definition reread (x : float) : float := getFloatValue (coordText x).

(** A text that [nextToken] reads back as one token. *)
Definition isToken (token : list Z) : Prop :=
  token <> [] /\ Forall (fun c => c <> 0 /\ isWhitespace c = false) token.

(** The state of the two loops after the record [prev] (after none, at
    the start): whether [toString] leaves out the letter of the record
    [e], the float it keeps in [lastMarker], and the [marker] and
    [numValues] of [restoreFromString]. *)
Definition sameKind (prev : option PathElement) (e : PathElement) : bool :=
  match prev with
  | None => false
  | Some e' => markerChar e' =? markerChar e
  end.

Definition lastMarkerOf (prev : option PathElement) : float :=
  match prev with
  | None => F32.zero
  | Some e => hd F32.zero (elementData e)
  end.

Definition restoreState (prev : option PathElement) : Z * Z :=
  match prev with
  | None => (chr "m", 2)
  | Some e => (markerChar e, Z.of_nat (length (tl (elementData e))))
  end.

(** The tokens that [toString] writes for the records [es]. *)
Fixpoint recordTokens (prev : option PathElement) (es : list PathElement)
  : list (list Z) :=
  match es with
  | [] => []
  | e :: es' =>
      (if sameKind prev e then [] else [[markerChar e]])
      ++ map coordText (tl (elementData e))
      ++ recordTokens (Some e) es'
  end.

End Text.

(* ================================================================== *)
(** ** Rounded corners *)
(* ================================================================== *)

(** The C type [double]: a local of [createPathWithRoundedCorners]
    holds one, no path stores one, so a double is the IEEE-754 binary64
    value itself, with the arithmetic of [SpecFloat] at precision 53 and
    [emax] 1024. *)
Module F64.

Definition prec : Z := 53.
Definition emax : Z := 1024.

Definition double : Type := spec_float.



Definition add (a b : double) : double := SFadd prec emax a b.
Definition sub (a b : double) : double := SFsub prec emax a b.
Definition mul (a b : double) : double := SFmul prec emax a b.
Definition div (a b : double) : double := SFdiv prec emax a b.
Definition ltb (a b : double) : bool := SFltb a b.   (* a < b *)
Definition gtb (a b : double) : bool := SFltb b a.   (* a > b *)

Definition zero : double := S754_zero false.
(** The literal [0.5]. *)
Definition half : double :=
  Eval vm_compute in div (binary_normalize prec emax 1 0 false)
                         (binary_normalize prec emax 2 0 false).

(** [jmin (a, b)] at type [double]. *)
Definition jmin (a b : double) : double := if ltb b a then b else a.

End F64.



Module Corners.

(** The locals of [createPathWithRoundedCorners] that live across the
    turns of its loop; [p] is the path under construction. *)
Record t : Type :=
  mk { n : Z;
       indexOfPathStart : Z;
       indexOfPathStartThis : Z;
       lastWasLine : bool;
       firstWasLine : bool;
       p : Path }.

End Corners.

Section RoundedCorners.

(** A read or a store outside the floats in use ends the run. *)
Local Notation "x <- a ;; b" :=
  (match a with
   | Some x => b
   | None => None
   end)
  (at level 61, a at next level, right associativity, only parsing).

(** [juce_hypot] of the JUCE core (on [double]) is not among the
    sources: it is a parameter. *)
Variable juce_hypot : F64.double -> F64.double -> F64.double.









End RoundedCorners.


(* ================================================================== *)
(** * Properties *)
(* ================================================================== *)

(** ** The four-byte image and the binary32 code *)

Lemma byteZ_range b : 0 <= F32.byteZ b < 256.
Proof. unfold F32.byteZ. pose proof (Byte.to_N_bounded b). lia. Qed.

Lemma Zbyte_byteZ b : F32.Zbyte (F32.byteZ b) = b.
Proof.
  unfold F32.Zbyte. pose proof (byteZ_range b).
  rewrite Z.mod_small by lia. unfold F32.byteZ. rewrite N2Z.id.
  now rewrite Byte.of_to_N.
Qed.

Lemma byteZ_Zbyte z : F32.byteZ (F32.Zbyte z) = z mod 256.
Proof.
  unfold F32.Zbyte, F32.byteZ.
  pose proof (Z.mod_pos_bound z 256 ltac:(lia)) as H.
  destruct (Byte.of_N (Z.to_N (z mod 256))) eqn:E.
  - apply Byte.to_of_N in E. rewrite E. lia.
  - apply Byte.of_N_None_iff in E. lia.
Qed.

Lemma bitsOf_range f : 0 <= F32.bitsOf f < 2 ^ 32.
Proof.
  unfold F32.bitsOf.
  pose proof (byteZ_range (F32.byte0 f)). pose proof (byteZ_range (F32.byte1 f)).
  pose proof (byteZ_range (F32.byte2 f)). pose proof (byteZ_range (F32.byte3 f)).
  change (2 ^ 8) with 256. change (2 ^ 16) with 65536. change (2 ^ 24) with 16777216.
  change (2 ^ 32) with 4294967296. lia.
Qed.

Lemma bitsOf_ofBits z : 0 <= z < 2 ^ 32 -> F32.bitsOf (F32.ofBits z) = z.
Proof.
  intros H. unfold F32.bitsOf, F32.ofBits; cbn [F32.byte0 F32.byte1 F32.byte2 F32.byte3].
  rewrite !byteZ_Zbyte.
  change (2 ^ 8) with 256. change (2 ^ 16) with 65536. change (2 ^ 24) with 16777216.
  change (2 ^ 32) with 4294967296 in H.
  Z.div_mod_to_equations. lia.
Qed.

Lemma Zbyte_eq z b : z mod 256 = F32.byteZ b -> F32.Zbyte z = b.
Proof.
  intros H. rewrite <- (Zbyte_byteZ b). unfold F32.Zbyte. rewrite H.
  pose proof (byteZ_range b). now rewrite (Z.mod_small (F32.byteZ b)) by lia.
Qed.

Lemma ofBits_bitsOf f : F32.ofBits (F32.bitsOf f) = f.
Proof.
  destruct f as [a b c d]. unfold F32.bitsOf, F32.ofBits; cbn [F32.byte0 F32.byte1 F32.byte2 F32.byte3].
  pose proof (byteZ_range a). pose proof (byteZ_range b).
  pose proof (byteZ_range c). pose proof (byteZ_range d).
  change (2 ^ 8) with 256. change (2 ^ 16) with 65536. change (2 ^ 24) with 16777216.
  f_equal; apply Zbyte_eq; Z.div_mod_to_equations; lia.
Qed.

Lemma bitsOf_inj f g : F32.bitsOf f = F32.bitsOf g -> f = g.
Proof. intros H. rewrite <- (ofBits_bitsOf f), <- (ofBits_bitsOf g). now rewrite H. Qed.

Ltac pow2 :=
  change (2 ^ 8) with 256 in *; change (2 ^ 16) with 65536 in *;
  change (2 ^ 22) with 4194304 in *;
  change (2 ^ 23) with 8388608 in *; change (2 ^ 24) with 16777216 in *;
  change (2 ^ 31) with 2147483648 in *; change (2 ^ 32) with 4294967296 in *.

Lemma encode_decode z :
  0 <= z < 2 ^ 32 -> F32.decode z <> S754_nan -> F32.encode (F32.decode z) = z.
Proof.
  intros Hz Hn. unfold F32.decode in *.
  destruct (Z.leb_spec (2 ^ 31) z) as [Hs|Hs];
  destruct (Z.eqb_spec ((z / 2 ^ 23) mod 2 ^ 8) 0) as [He|He].
  - destruct (z mod 2 ^ 23) eqn:Em; cbn [F32.encode F32.signBit].
    + pow2. Z.div_mod_to_equations. lia.
    + destruct (Z.leb_spec (2 ^ 23) (Z.pos p)); pow2; Z.div_mod_to_equations; lia.
    + pow2. Z.div_mod_to_equations. lia.
  - destruct (Z.eqb_spec ((z / 2 ^ 23) mod 2 ^ 8) 255) as [He'|He'].
    + destruct (Z.eqb_spec (z mod 2 ^ 23) 0); [|congruence].
      cbn [F32.encode F32.signBit]. pow2. Z.div_mod_to_equations. lia.
    + destruct (z mod 2 ^ 23 + 2 ^ 23) eqn:Em; try congruence.
      cbn [F32.encode F32.signBit].
      destruct (Z.leb_spec (2 ^ 23) (Z.pos p)); pow2; Z.div_mod_to_equations; lia.
  - destruct (z mod 2 ^ 23) eqn:Em; cbn [F32.encode F32.signBit].
    + pow2. Z.div_mod_to_equations. lia.
    + destruct (Z.leb_spec (2 ^ 23) (Z.pos p)); pow2; Z.div_mod_to_equations; lia.
    + pow2. Z.div_mod_to_equations. lia.
  - destruct (Z.eqb_spec ((z / 2 ^ 23) mod 2 ^ 8) 255) as [He'|He'].
    + destruct (Z.eqb_spec (z mod 2 ^ 23) 0); [|congruence].
      cbn [F32.encode F32.signBit]. pow2. Z.div_mod_to_equations. lia.
    + destruct (z mod 2 ^ 23 + 2 ^ 23) eqn:Em; try congruence.
      cbn [F32.encode F32.signBit].
      destruct (Z.leb_spec (2 ^ 23) (Z.pos p)); pow2; Z.div_mod_to_equations; lia.
Qed.

Lemma ofSF_value f : F32.isNaN f = false -> F32.ofSF (F32.value f) = f.
Proof.
  unfold F32.isNaN, F32.ofSF, F32.value. intros H.
  rewrite encode_decode.
  - apply ofBits_bitsOf.
  - apply bitsOf_range.
  - destruct (F32.decode (F32.bitsOf f)); congruence.
Qed.

Lemma SFeqb_finite_r x s m e :
  SFeqb x (S754_finite s m e) = true -> x = S754_finite s m e.
Proof.
  unfold SFeqb. intros H.
  destruct x as [sx|sx| |sx mx ex]; cbn in H;
    try discriminate H; try (destruct s; discriminate H); try (destruct sx; discriminate H).
  change (Pos.compare_cont Eq mx m) with (Pos.compare mx m) in H.
  destruct sx, s; try discriminate H;
    destruct (Z.compare_spec ex e); try discriminate H;
    destruct (Pos.compare_spec mx m); try discriminate H; now subst.
Qed.

Lemma eqb_finite_eq v c s m e :
  F32.value c = S754_finite s m e -> F32.eqb v c = true -> v = c.
Proof.
  unfold F32.eqb. intros Hc H. rewrite Hc in H. apply SFeqb_finite_r in H.
  rewrite <- (ofSF_value v), <- (ofSF_value c).
  - now rewrite H, Hc.
  - unfold F32.isNaN. now rewrite Hc.
  - unfold F32.isNaN. now rewrite H.
Qed.

Lemma eqb_moveMarker v : F32.eqb v moveMarker = true -> v = moveMarker.
Proof. eapply eqb_finite_eq. vm_compute. reflexivity. Qed.

Ltac sf_cases :=
  repeat match goal with
  | x : spec_float |- _ => destruct x
  end;
  cbn in *; try discriminate; try reflexivity;
  repeat match goal with
  | s : bool |- _ => destruct s
  end;
  cbn in *; try discriminate; try reflexivity.

Ltac cmp_cases :=
  repeat match goal with
  | H : context [Pos.compare_cont Eq ?a ?b] |- _ =>
      change (Pos.compare_cont Eq a b) with (Pos.compare a b) in H
  | |- context [Pos.compare_cont Eq ?a ?b] =>
      change (Pos.compare_cont Eq a b) with (Pos.compare a b)
  end;
  repeat match goal with
  | H : context [Z.compare ?a ?b] |- _ => destruct (Z.compare_spec a b)
  | |- context [Z.compare ?a ?b] => destruct (Z.compare_spec a b)
  | H : context [Pos.compare ?a ?b] |- _ => destruct (Pos.compare_spec a b)
  | |- context [Pos.compare ?a ?b] => destruct (Pos.compare_spec a b)
  end;
  cbn in *; subst; try discriminate; try reflexivity; try lia.

Lemma SFleb_refl x : sfNaN x = false -> SFleb x x = true.
Proof. unfold SFleb. intros H. sf_cases; cmp_cases. Qed.

Lemma SFltb_leb x y : SFltb x y = true -> SFleb x y = true.
Proof. unfold SFltb, SFleb. destruct (SFcompare x y) as [[| |]|]; congruence. Qed.

Lemma SFleb_total x y :
  sfNaN x = false -> sfNaN y = false -> SFltb y x = false -> SFleb x y = true.
Proof. unfold SFltb, SFleb. intros Hx Hy H. sf_cases; cmp_cases. Qed.

Lemma SFleb_trans x y z : SFleb x y = true -> SFleb y z = true -> SFleb x z = true.
Proof. unfold SFleb. intros H1 H2. sf_cases; cmp_cases. Qed.

Lemma SFeqb_leb x y : SFeqb x y = true -> SFleb x y = true /\ SFleb y x = true.
Proof. unfold SFeqb, SFleb. intros H. split; sf_cases; cmp_cases. Qed.

Lemma SFleb_notnan x y : SFleb x y = true -> sfNaN x = false /\ sfNaN y = false.
Proof. unfold SFleb. intros H. split; sf_cases. Qed.

(** ** Rounding of sums *)

Lemma digits2_pos_bounds m :
  2 ^ (Z.pos (digits2_pos m) - 1) <= Z.pos m < 2 ^ Z.pos (digits2_pos m).
Proof.
  induction m as [m IH|m IH|]; cbn [digits2_pos].
  - rewrite Pos2Z.inj_succ. replace (Z.succ (Z.pos (digits2_pos m)) - 1) with (Z.pos (digits2_pos m) - 1 + 1) by lia.
    rewrite Z.pow_succ_r by lia. rewrite Z.pow_add_r by lia. change (2 ^ 1) with 2. lia.
  - rewrite Pos2Z.inj_succ. replace (Z.succ (Z.pos (digits2_pos m)) - 1) with (Z.pos (digits2_pos m) - 1 + 1) by lia.
    rewrite Z.pow_succ_r by lia. rewrite Z.pow_add_r by lia. change (2 ^ 1) with 2. lia.
  - cbn. lia.
Qed.

Lemma digits2_pos_le m k : 0 <= k -> Z.pos m < 2 ^ k -> Z.pos (digits2_pos m) <= k.
Proof.
  intros Hk H. destruct (digits2_pos_bounds m) as [L _].
  destruct (Z.le_gt_cases (Z.pos (digits2_pos m)) k) as [|G]; [assumption|].
  assert (2 ^ k <= 2 ^ (Z.pos (digits2_pos m) - 1)) by (apply Z.pow_le_mono_r; lia). lia.
Qed.

Lemma digits2_pos_ge m k : 2 ^ (k - 1) <= Z.pos m -> k <= Z.pos (digits2_pos m).
Proof.
  intros H. destruct (digits2_pos_bounds m) as [_ U].
  destruct (Z.le_gt_cases k (Z.pos (digits2_pos m))) as [|G]; [assumption|].
  assert (2 ^ Z.pos (digits2_pos m) <= 2 ^ (k - 1)) by (apply Z.pow_le_mono_r; lia). lia.
Qed.

Lemma digits2_pos_eq m k : 2 ^ (k - 1) <= Z.pos m < 2 ^ k -> Z.pos (digits2_pos m) = k.
Proof.
  intros [L U]. assert (0 <= k).
  { destruct (Z.le_gt_cases 0 k); [assumption|]. rewrite (Z.pow_neg_r 2 k) in U by lia. lia. }
  pose proof (digits2_pos_le m k ltac:(lia) U). pose proof (digits2_pos_ge m k L). lia.
Qed.

Lemma iter_xO_Z m d : Z.pos (Pos.iter xO m d) = Z.pos m * 2 ^ Z.pos d.
Proof.
  induction d as [|d IH] using Pos.peano_ind.
  - cbn. lia.
  - rewrite Pos.iter_succ, Pos2Z.inj_xO, IH, Pos2Z.inj_succ, Z.pow_succ_r by lia. lia.
Qed.

Lemma shr_1_m mrs : 0 <= shr_m mrs -> shr_m (shr_1 mrs) = shr_m mrs / 2.
Proof.
  destruct mrs as [m r s]. cbn [shr_m]. intros H.
  destruct m as [|p|p]; [reflexivity| |lia].
  destruct p; cbn [shr_1 shr_m].
  - rewrite Pos2Z.inj_xI. Z.div_mod_to_equations. lia.
  - rewrite Pos2Z.inj_xO. Z.div_mod_to_equations. lia.
  - reflexivity.
Qed.

Lemma iter_pos_shr_m p : forall mrs,
  0 <= shr_m mrs -> shr_m (iter_pos shr_1 p mrs) = shr_m mrs / 2 ^ Z.pos p.
Proof.
  assert (P2 : forall k, 0 < 2 ^ Z.pos k) by (intros; apply Z.pow_pos_nonneg; lia).
  induction p as [p IH|p IH|]; intros mrs H; cbn [iter_pos].
  - assert (H1 : 0 <= shr_m (shr_1 mrs)) by (rewrite shr_1_m by assumption; apply Z.div_pos; lia).
    assert (H2 : 0 <= shr_m (iter_pos shr_1 p (shr_1 mrs))).
    { rewrite IH by assumption. apply Z.div_pos; [assumption|apply P2]. }
    rewrite IH, IH, shr_1_m by assumption.
    pose proof (P2 p).
    rewrite !Z.div_div by lia.
    f_equal.
    replace (2 ^ Z.pos p~1) with (2 ^ (Z.pos p + Z.pos p + 1)) by (f_equal; lia).
    rewrite !Z.pow_add_r by lia. change (2 ^ 1) with 2. ring.
  - assert (H2 : 0 <= shr_m (iter_pos shr_1 p mrs)).
    { rewrite IH by assumption. apply Z.div_pos; [assumption|apply P2]. }
    rewrite IH, IH by assumption.
    pose proof (P2 p).
    rewrite !Z.div_div by lia.
    f_equal.
    replace (2 ^ Z.pos p~0) with (2 ^ (Z.pos p + Z.pos p)) by (f_equal; lia).
    rewrite !Z.pow_add_r by lia. ring.
  - rewrite shr_1_m by assumption. reflexivity.
Qed.

Lemma fexp_eq k : fexp 24 128 k = Z.max (k - 24) (-149).
Proof. reflexivity. Qed.

Lemma rne_cases m l : round_nearest_even m l = m \/ round_nearest_even m l = m + 1.
Proof.
  destruct l as [|[| |]]; cbn; auto. destruct (Z.even m); auto.
Qed.

Lemma bra_exact s mz e :
  fexp 24 128 (Z.pos (digits2_pos mz) + e) <= e ->
  binary_round_aux 24 128 s (Z.pos mz) e loc_Exact
  = if e <=? 104 then S754_finite s mz e else S754_infinity s.
Proof.
  intros H. unfold binary_round_aux, shr_fexp. cbn [Zdigits2 shr_record_of_loc].
  assert (E : shr {| shr_m := Z.pos mz; shr_r := false; shr_s := false |} e
                  (fexp 24 128 (Z.pos (digits2_pos mz) + e) - e)
              = ({| shr_m := Z.pos mz; shr_r := false; shr_s := false |}, e)).
  { unfold shr. destruct (fexp 24 128 (Z.pos (digits2_pos mz) + e) - e) eqn:En; try reflexivity. lia. }
  rewrite E. cbn [shr_m loc_of_shr_record round_nearest_even Zdigits2 shr_record_of_loc].
  rewrite E. cbn [shr_m]. reflexivity.
Qed.

Lemma bra_round s mz e :
  -149 <= e ->
  e < fexp 24 128 (Z.pos (digits2_pos mz) + e) ->
  let e1 := Z.pos (digits2_pos mz) + e - 24 in
  let q := Z.pos mz / 2 ^ (e1 - e) in
  2 ^ 23 <= q < 2 ^ 24 /\
  exists m2 : positive,
    (Z.pos m2 = q \/ Z.pos m2 = q + 1) /\
    binary_round_aux 24 128 s (Z.pos mz) e loc_Exact
    = if Z.pos m2 <? 2 ^ 24
      then (if e1 <=? 104 then S754_finite s m2 e1 else S754_infinity s)
      else (if e1 + 1 <=? 104 then S754_finite s 8388608 (e1 + 1) else S754_infinity s).
Proof.
  intros He Hlt e1 q.
  rewrite fexp_eq in Hlt.
  assert (Hd : 24 < Z.pos (digits2_pos mz)) by lia.
  assert (Hn : e1 - e = Z.pos (digits2_pos mz) - 24) by (unfold e1; lia).
  pose proof (digits2_pos_bounds mz) as [Lo Hi].
  assert (P2 : 0 < 2 ^ (e1 - e)) by (apply Z.pow_pos_nonneg; lia).
  assert (Hq : 2 ^ 23 <= q < 2 ^ 24).
  { unfold q. split.
    - apply Z.div_le_lower_bound; [lia|].
      rewrite Z.mul_comm, <- Z.pow_add_r by lia.
      replace (23 + (e1 - e)) with (Z.pos (digits2_pos mz) - 1) by lia. exact Lo.
    - apply Z.div_lt_upper_bound; [lia|].
      rewrite <- Z.pow_add_r by lia.
      replace (e1 - e + 24) with (Z.pos (digits2_pos mz)) by lia. exact Hi. }
  split; [exact Hq|].
  unfold binary_round_aux, shr_fexp. cbn [Zdigits2 shr_record_of_loc].
  rewrite fexp_eq. rewrite Z.max_l by lia.
  replace (Z.pos (digits2_pos mz) + e - 24 - e) with (e1 - e) by lia.
  destruct (e1 - e) as [|pn|pn] eqn:En; try lia.
  cbn [shr].
  set (mrs' := iter_pos shr_1 pn {| shr_m := Z.pos mz; shr_r := false; shr_s := false |}).
  assert (Em : shr_m mrs' = q).
  { unfold mrs', q. rewrite iter_pos_shr_m by (cbn; lia). reflexivity. }
  set (m2 := round_nearest_even (shr_m mrs') (loc_of_shr_record mrs')).
  assert (Hm2 : m2 = q \/ m2 = q + 1).
  { unfold m2. rewrite <- Em. apply rne_cases. }
  replace (e + Z.pos pn) with e1 by lia.
  destruct m2 as [|p2|p2] eqn:E2; try (pow2; lia).
  exists p2. split; [exact Hm2|].
  cbn [Zdigits2 shr_record_of_loc].
  destruct (Z.ltb_spec (Z.pos p2) (2 ^ 24)) as [Hs|Hs].
  - assert (Ed : Z.pos (digits2_pos p2) = 24) by (apply digits2_pos_eq; change (24 - 1) with 23; lia).
    rewrite Ed, fexp_eq, Z.max_l by lia.
    replace (24 + e1 - 24 - e1) with 0 by lia. cbn [shr shr_m]. reflexivity.
  - assert (E24 : Z.pos p2 = 2 ^ 24) by lia.
    assert (p2 = 16777216%positive) by (pow2; lia). subst p2.
    cbn [digits2_pos Pos.succ]. rewrite fexp_eq, Z.max_l by lia.
    replace (25 + e1 - 24 - e1) with 1 by lia.
    cbn [shr iter_pos shr_1 shr_m]. reflexivity.
Qed.

Lemma digits2_pos_shift M k :
  0 <= k -> forall m', Z.pos m' = Z.pos M * 2 ^ k ->
  Z.pos (digits2_pos m') = Z.pos (digits2_pos M) + k.
Proof.
  intros Hk m' E. apply digits2_pos_eq. rewrite E.
  pose proof (digits2_pos_bounds M) as [Lo Hi].
  assert (0 < 2 ^ k) by (apply Z.pow_pos_nonneg; lia).
  replace (Z.pos (digits2_pos M) + k - 1) with (Z.pos (digits2_pos M) - 1 + k) by lia.
  rewrite !Z.pow_add_r by lia. nia.
Qed.

Lemma binary_round_rel s M ez :
  -149 <= ez ->
  exists m' e',
    round_rel M ez m' e' /\
    fexp 24 128 (Z.pos (digits2_pos m') + e') = e' /\
    binary_round 24 128 s M ez
    = if e' <=? 104 then S754_finite s m' e' else S754_infinity s.
Proof.
  intros Hez. unfold binary_round, round_rel.
  set (d := Z.pos (digits2_pos M)).
  set (e1 := fexp 24 128 (d + ez)).
  assert (He1 : e1 = Z.max (d + ez - 24) (-149)) by reflexivity.
  unfold shl_align.
  destruct (e1 - ez) as [|pn|pn] eqn:En.
  - (* the mantissa already sits at its exponent *)
    exists M, ez. split; [|split].
    + left. replace (ez - e1) with 0 by lia. cbn. lia.
    + fold d. fold e1. lia.
    + apply bra_exact. fold d. fold e1. lia.
  - (* the mantissa is too long: it is rounded *)
    assert (Hlt : ez < fexp 24 128 (Z.pos (digits2_pos M) + ez)) by (fold d; fold e1; lia).
    pose proof (bra_round s M ez Hez Hlt) as Hb. cbv zeta in Hb.
    fold d in Hb. replace (d + ez - 24) with e1 in Hb by lia.
    destruct Hb as [Hq [m2 [Hm2 Hr]]].
    destruct (Z.ltb_spec (Z.pos m2) (2 ^ 24)) as [Hs|Hs].
    + exists m2, e1. split; [|split].
      * right; left. rewrite <- En. repeat split; try lia.
      * assert (Ed : Z.pos (digits2_pos m2) = 24)
          by (apply digits2_pos_eq; change (24 - 1) with 23; lia).
        rewrite Ed, fexp_eq. lia.
      * exact Hr.
    + exists 8388608%positive, (e1 + 1). split; [|split].
      * right; right. rewrite <- En. repeat split; try lia.
      * cbn [digits2_pos Pos.succ]. rewrite fexp_eq. lia.
      * exact Hr.
  - (* the mantissa is too short: it is shifted left, exactly *)
    assert (Hk : ez - e1 = Z.pos pn) by lia.
    exists (Pos.iter xO M pn), e1.
    assert (Em : Z.pos (Pos.iter xO M pn) = Z.pos M * 2 ^ (ez - e1))
      by (rewrite Hk; apply iter_xO_Z).
    assert (Ed : Z.pos (digits2_pos (Pos.iter xO M pn)) = d + (ez - e1))
      by (apply digits2_pos_shift; [lia|exact Em]).
    assert (Ef : fexp 24 128 (Z.pos (digits2_pos (Pos.iter xO M pn)) + e1) = e1).
    { rewrite Ed. replace (d + (ez - e1) + e1) with (d + ez) by lia. reflexivity. }
    split; [|split].
    + left. repeat split; try lia.
    + exact Ef.
    + apply bra_exact. lia.
Qed.

Lemma bounded_iff m e :
  bounded 24 128 m e = true <->
  fexp 24 128 (Z.pos (digits2_pos m) + e) = e /\ e <= 104.
Proof.
  unfold bounded, canonical_mantissa. rewrite andb_true_iff, Z.eqb_eq, Z.leb_le.
  change (128 - 24) with 104. reflexivity.
Qed.

Lemma bounded_facts m e :
  bounded 24 128 m e = true ->
  -149 <= e <= 104 /\ Z.pos (digits2_pos m) <= 24 /\ Z.pos m < 2 ^ 24 /\
  (-149 < e -> 2 ^ 23 <= Z.pos m).
Proof.
  rewrite bounded_iff, fexp_eq. intros [Hc He].
  pose proof (digits2_pos_bounds m) as [Lo Hi].
  assert (Hd : Z.pos (digits2_pos m) <= 24) by lia.
  repeat split; try lia.
  - assert (2 ^ Z.pos (digits2_pos m) <= 2 ^ 24) by (apply Z.pow_le_mono_r; lia). lia.
  - intros H. assert (Z.pos (digits2_pos m) = 24) by lia.
    replace (Z.pos (digits2_pos m) - 1) with 23 in Lo by lia. exact Lo.
Qed.

Lemma round_up s M ez mx ex :
  bounded 24 128 mx ex = true -> -149 <= ez <= ex ->
  Z.pos mx * 2 ^ (ex - ez) <= Z.pos M ->
  binary_round 24 128 s M ez = S754_infinity s \/
  exists m' e',
    binary_round 24 128 s M ez = S754_finite s m' e' /\
    bounded 24 128 m' e' = true /\
    (ex < e' \/ (e' = ex /\ Z.pos mx <= Z.pos m')).
Proof.
  intros Hb Hez HM.
  destruct (binary_round_rel s M ez ltac:(lia)) as [m' [e' [Hrel [Hc Hr]]]].
  rewrite Hr. destruct (Z.leb_spec e' 104) as [Hle|Hgt]; [right|left; reflexivity].
  exists m', e'. split; [reflexivity|]. split; [apply bounded_iff; auto|].
  pose proof Hb as Hb'. apply bounded_iff in Hb'. destruct Hb' as [Hcx Hex].
  assert (P2 : 0 < 2 ^ (ex - ez)) by (apply Z.pow_pos_nonneg; lia).
  assert (Hd : Z.pos (digits2_pos mx) + (ex - ez) <= Z.pos (digits2_pos M)).
  { apply digits2_pos_ge.
    pose proof (digits2_pos_bounds mx) as [Lo _].
    replace (Z.pos (digits2_pos mx) + (ex - ez) - 1)
      with (Z.pos (digits2_pos mx) - 1 + (ex - ez)) by lia.
    rewrite Z.pow_add_r by lia. nia. }
  unfold round_rel in Hrel. rewrite fexp_eq in *.
  destruct Hrel as [[E1 [E2 E3]]|[[E1 [E2 [E3 E4]]]|[E1 [E2 [E3 E4]]]]].
  - right. assert (ez = ex) by lia. subst ez.
    assert (e' = ex) by lia. subst e'.
    replace (ex - Z.max (Z.pos (digits2_pos M) + ex - 24) (-149)) with 0 in E3 by lia.
    replace (ex - ex) with 0 in HM by lia. cbn in E3, HM. lia.
  - destruct (Z.eq_dec e' ex) as [Ee|Ne]; [right|left; lia].
    split; [exact Ee|].
    assert (Z.pos mx <= Z.pos M / 2 ^ (ex - ez)).
    { apply Z.div_le_lower_bound; lia. }
    replace (Z.max (Z.pos (digits2_pos M) + ez - 24) (-149) - ez) with (ex - ez) in E4 by lia.
    lia.
  - left. lia.
Qed.

Lemma round_down s M ez mx ex :
  bounded 24 128 mx ex = true -> -149 <= ez <= ex ->
  Z.pos M < Z.pos mx * 2 ^ (ex - ez) ->
  exists m' e',
    binary_round 24 128 s M ez = S754_finite s m' e' /\
    bounded 24 128 m' e' = true /\
    (e' < ex \/ (e' = ex /\ Z.pos m' <= Z.pos mx)).
Proof.
  intros Hb Hez HM.
  destruct (binary_round_rel s M ez ltac:(lia)) as [m' [e' [Hrel [Hc Hr]]]].
  pose proof (bounded_facts _ _ Hb) as [Hex [Hdx [Hmx Hnorm]]].
  pose proof Hb as Hb'. apply bounded_iff in Hb'. destruct Hb' as [Hcx _].
  assert (P2 : 0 < 2 ^ (ex - ez)) by (apply Z.pow_pos_nonneg; lia).
  assert (Hd : Z.pos (digits2_pos M) <= Z.pos (digits2_pos mx) + (ex - ez)).
  { apply digits2_pos_le; [lia|].
    pose proof (digits2_pos_bounds mx) as [_ Hi].
    rewrite Z.pow_add_r by lia. nia. }
  assert (Hq : Z.pos M / 2 ^ (ex - ez) < Z.pos mx).
  { apply Z.div_lt_upper_bound; lia. }
  unfold round_rel in Hrel. rewrite fexp_eq in *.
  assert (He' : e' <= ex /\ (e' < ex \/ (e' = ex /\ Z.pos m' <= Z.pos mx))).
  { destruct Hrel as [[E1 [E2 E3]]|[[E1 [E2 [E3 E4]]]|[E1 [E2 [E3 E4]]]]].
    - split; [lia|]. destruct (Z.eq_dec e' ex) as [Ee|Ne]; [right|left; lia].
      split; [exact Ee|]. assert (ez = ex) by lia. subst ez.
      replace (ex - Z.max (Z.pos (digits2_pos M) + ex - 24) (-149)) with 0 in E3 by lia.
      replace (ex - ex) with 0 in HM by lia. cbn in E3, HM. lia.
    - split; [lia|]. destruct (Z.eq_dec e' ex) as [Ee|Ne]; [right|left; lia].
      split; [exact Ee|].
      replace (Z.max (Z.pos (digits2_pos M) + ez - 24) (-149) - ez) with (ex - ez) in E4 by lia.
      lia.
    - assert (Hne : Z.max (Z.pos (digits2_pos M) + ez - 24) (-149) <> ex).
      { intros Ee.
        replace (Z.max (Z.pos (digits2_pos M) + ez - 24) (-149) - ez) with (ex - ez) in E4 by lia.
        pow2. lia. }
      split; [lia|]. destruct (Z.eq_dec e' ex) as [Ee|Ne]; [right|left; lia].
      split; [exact Ee|]. rewrite E3. apply Hnorm. lia. }
  exists m', e'. destruct He' as [Hle Hmag].
  rewrite Hr. destruct (Z.leb_spec e' 104) as [_|Hgt]; [|lia].
  split; [reflexivity|]. split; [apply bounded_iff; split; [exact Hc|lia]|exact Hmag].
Qed.

Lemma round_shape s M ez :
  -149 <= ez ->
  binary_round 24 128 s M ez = S754_infinity s \/
  exists m' e',
    binary_round 24 128 s M ez = S754_finite s m' e' /\ bounded 24 128 m' e' = true.
Proof.
  intros Hez.
  destruct (binary_round_rel s M ez Hez) as [m' [e' [_ [Hc Hr]]]].
  rewrite Hr. destruct (Z.leb_spec e' 104) as [Hle|Hgt]; [right|left; reflexivity].
  exists m', e'. split; [reflexivity|]. apply bounded_iff; auto.
Qed.

Lemma shl_align_fst mx ex ez :
  ez <= ex -> Z.pos (fst (shl_align mx ex ez)) = Z.pos mx * 2 ^ (ex - ez).
Proof.
  intros H. unfold shl_align. destruct (ez - ex) as [|pn|pn] eqn:En; cbn [fst].
  - replace (ex - ez) with 0 by lia. cbn. lia.
  - lia.
  - rewrite iter_xO_Z. f_equal. f_equal. lia.
Qed.

Lemma SFleb_finite_pos mx ex m' e' :
  ex < e' \/ (e' = ex /\ Z.pos mx <= Z.pos m') ->
  SFleb (S754_finite false mx ex) (S754_finite false m' e') = true.
Proof.
  intros H. unfold SFleb. cbn. cmp_cases.
Qed.

Lemma SFleb_finite_neg mx ex m' e' :
  ex < e' \/ (e' = ex /\ Z.pos mx <= Z.pos m') ->
  SFleb (S754_finite true m' e') (S754_finite true mx ex) = true.
Proof.
  intros H. unfold SFleb. cbn. cmp_cases.
Qed.

Lemma SFadd_finite sx mx ex sw mw ew :
  SFadd 24 128 (S754_finite sx mx ex) (S754_finite sw mw ew)
  = binary_normalize 24 128
      (cond_Zopp sx (Z.pos (fst (shl_align mx ex (Z.min ex ew))))
       + cond_Zopp sw (Z.pos (fst (shl_align mw ew (Z.min ex ew)))))
      (Z.min ex ew) false.
Proof. reflexivity. Qed.

Lemma SFadd_finite_up sx mx ex mw ew :
  bounded 24 128 mx ex = true -> bounded 24 128 mw ew = true ->
  SFleb (S754_finite sx mx ex)
        (SFadd 24 128 (S754_finite sx mx ex) (S754_finite false mw ew)) = true.
Proof.
  intros Hx Hw. rewrite SFadd_finite.
  pose proof (bounded_facts _ _ Hx) as [Hex _].
  pose proof (bounded_facts _ _ Hw) as [Hew _].
  set (ez := Z.min ex ew).
  rewrite !shl_align_fst by (unfold ez; lia).
  assert (PX : 0 < 2 ^ (ex - ez)) by (apply Z.pow_pos_nonneg; unfold ez; lia).
  assert (PW : 0 < 2 ^ (ew - ez)) by (apply Z.pow_pos_nonneg; unfold ez; lia).
  assert (Hez : -149 <= ez <= ex) by (unfold ez; lia).
  destruct sx; cbn [cond_Zopp].
  - destruct (- (Z.pos mx * 2 ^ (ex - ez)) + Z.pos mw * 2 ^ (ew - ez)) as [|M|M] eqn:ES;
      cbn [binary_normalize].
    + reflexivity.
    + destruct (round_shape false M ez ltac:(lia)) as [E|[m' [e' [E _]]]]; rewrite E; reflexivity.
    + destruct (round_down true M ez mx ex Hx Hez ltac:(nia)) as [m' [e' [E [_ Hm]]]].
      rewrite E. apply SFleb_finite_neg.
      destruct Hm as [Hm|[Hm1 Hm2]]; [left; lia|right; split; lia].
  - destruct (Z.pos mx * 2 ^ (ex - ez) + Z.pos mw * 2 ^ (ew - ez)) as [|M|M] eqn:ES;
      cbn [binary_normalize]; try nia.
    destruct (round_up false M ez mx ex Hx Hez ltac:(nia)) as [E|[m' [e' [E [_ Hm]]]]];
      rewrite E; [reflexivity|].
    apply SFleb_finite_pos. exact Hm.
Qed.

Lemma SFadd_finite_down sx mx ex mw ew :
  bounded 24 128 mx ex = true -> bounded 24 128 mw ew = true ->
  SFleb (SFadd 24 128 (S754_finite sx mx ex) (S754_finite true mw ew))
        (S754_finite sx mx ex) = true.
Proof.
  intros Hx Hw. rewrite SFadd_finite.
  pose proof (bounded_facts _ _ Hx) as [Hex _].
  pose proof (bounded_facts _ _ Hw) as [Hew _].
  set (ez := Z.min ex ew).
  rewrite !shl_align_fst by (unfold ez; lia).
  assert (PX : 0 < 2 ^ (ex - ez)) by (apply Z.pow_pos_nonneg; unfold ez; lia).
  assert (PW : 0 < 2 ^ (ew - ez)) by (apply Z.pow_pos_nonneg; unfold ez; lia).
  assert (Hez : -149 <= ez <= ex) by (unfold ez; lia).
  destruct sx; cbn [cond_Zopp].
  - destruct (- (Z.pos mx * 2 ^ (ex - ez)) + - (Z.pos mw * 2 ^ (ew - ez))) as [|M|M] eqn:ES;
      cbn [binary_normalize]; try nia.
    destruct (round_up true M ez mx ex Hx Hez ltac:(nia)) as [E|[m' [e' [E [_ Hm]]]]];
      rewrite E; [reflexivity|].
    apply SFleb_finite_neg. exact Hm.
  - destruct (Z.pos mx * 2 ^ (ex - ez) + - (Z.pos mw * 2 ^ (ew - ez))) as [|M|M] eqn:ES;
      cbn [binary_normalize].
    + reflexivity.
    + destruct (round_down false M ez mx ex Hx Hez ltac:(nia)) as [m' [e' [E [_ Hm]]]].
      rewrite E. apply SFleb_finite_pos.
      destruct Hm as [Hm|[Hm1 Hm2]]; [left; lia|right; split; lia].
    + destruct (round_shape true M ez ltac:(lia)) as [E|[m' [e' [E _]]]]; rewrite E; reflexivity.
Qed.

Lemma SFadd_valid x w :
  valid_binary 24 128 x = true -> valid_binary 24 128 w = true ->
  valid_binary 24 128 (SFadd 24 128 x w) = true.
Proof.
  intros Hx Hw.
  destruct x as [sx|sx| |sx mx ex], w as [sw|sw| |sw mw ew];
    try reflexivity; try assumption;
    try (destruct sx, sw; reflexivity).
  rewrite SFadd_finite. cbn [valid_binary] in Hx, Hw.
  pose proof (bounded_facts _ _ Hx) as [Hex _].
  pose proof (bounded_facts _ _ Hw) as [Hew _].
  set (ez := Z.min ex ew).
  destruct (cond_Zopp sx (Z.pos (fst (shl_align mx ex ez)))
            + cond_Zopp sw (Z.pos (fst (shl_align mw ew ez)))) as [|M|M];
    cbn [binary_normalize]; [reflexivity| |].
  - destruct (round_shape false M ez ltac:(unfold ez; lia)) as [E|[m' [e' [E Hb]]]];
      rewrite E; [reflexivity|exact Hb].
  - destruct (round_shape true M ez ltac:(unfold ez; lia)) as [E|[m' [e' [E Hb]]]];
      rewrite E; [reflexivity|exact Hb].
Qed.

Lemma SFadd_ge x w :
  valid_binary 24 128 x = true -> valid_binary 24 128 w = true ->
  SFltb w (S754_zero false) = false ->
  sfNaN (SFadd 24 128 x w) = false ->
  SFleb x (SFadd 24 128 x w) = true.
Proof.
  intros Hx Hw Hlt Hn.
  destruct x as [sx|sx| |sx mx ex], w as [sw|sw| |sw mw ew];
    try discriminate Hn;
    try (destruct sx, sw; try discriminate Hn; try discriminate Hlt; reflexivity);
    try (destruct sx; reflexivity).
  - (* finite + zero *)
    change (SFadd 24 128 (S754_finite sx mx ex) (S754_zero sw)) with (S754_finite sx mx ex).
    apply SFleb_refl. reflexivity.
  - (* finite + finite *)
    destruct sw; [discriminate Hlt|]. apply SFadd_finite_up; assumption.
Qed.

Lemma SFadd_le x w :
  valid_binary 24 128 x = true -> valid_binary 24 128 w = true ->
  SFltb w (S754_zero false) = true ->
  sfNaN (SFadd 24 128 x w) = false ->
  SFleb (SFadd 24 128 x w) x = true.
Proof.
  intros Hx Hw Hlt Hn.
  destruct x as [sx|sx| |sx mx ex], w as [sw|sw| |sw mw ew];
    try discriminate Hn; try discriminate Hlt;
    try (destruct sx, sw; try discriminate Hn; try discriminate Hlt; reflexivity);
    try (destruct sx; reflexivity).
  destruct sw; [|discriminate Hlt]. apply SFadd_finite_down; assumption.
Qed.

Lemma decode_valid z : 0 <= z < 2 ^ 32 -> valid_binary 24 128 (F32.decode z) = true.
Proof.
  intros Hz. unfold F32.decode.
  destruct (Z.eqb_spec ((z / 2 ^ 23) mod 2 ^ 8) 0) as [He|He].
  - destruct (z mod 2 ^ 23) eqn:Em; try reflexivity.
    cbn [valid_binary]. apply bounded_iff. rewrite fexp_eq.
    assert (Z.pos (digits2_pos p) <= 23).
    { apply digits2_pos_le; [lia|]. rewrite <- Em. apply Z.mod_pos_bound. pow2. lia. }
    lia.
  - destruct (Z.eqb_spec ((z / 2 ^ 23) mod 2 ^ 8) 255) as [He'|He'].
    + destruct (z mod 2 ^ 23 =? 0); reflexivity.
    + destruct (z mod 2 ^ 23 + 2 ^ 23) eqn:Em; try reflexivity.
      cbn [valid_binary]. apply bounded_iff. rewrite fexp_eq.
      assert (Z.pos (digits2_pos p) = 24).
      { apply digits2_pos_eq. rewrite <- Em. change (24 - 1) with 23.
        pose proof (Z.mod_pos_bound z (2 ^ 23) ltac:(pow2; lia)). pow2. lia. }
      pose proof (Z.mod_pos_bound (z / 2 ^ 23) (2 ^ 8) ltac:(pow2; lia)). pow2. lia.
Qed.

Lemma encode_range r :
  valid_binary 24 128 r = true -> 0 <= F32.encode r < 2 ^ 32.
Proof.
  destruct r as [s|s| |s m e]; cbn [F32.encode valid_binary]; intros H.
  - destruct s; cbn; pow2; lia.
  - destruct s; cbn; pow2; lia.
  - pow2; lia.
  - pose proof (bounded_facts _ _ H) as [He [_ [Hm _]]].
    destruct (Z.leb_spec (2 ^ 23) (Z.pos m)); destruct s; cbn [F32.signBit]; pow2; lia.
Qed.

Lemma decode_encode r :
  valid_binary 24 128 r = true -> F32.decode (F32.encode r) = r.
Proof.
  destruct r as [s|s| |s m e]; cbn [valid_binary]; intros H;
    try (destruct s; reflexivity); try reflexivity.
  pose proof (bounded_facts _ _ H) as [He [_ [Hm Hn]]].
  apply bounded_iff in H. destruct H as [Hc _]. rewrite fexp_eq in Hc.
  cbn [F32.encode]. unfold F32.decode.
  destruct (Z.leb_spec (2 ^ 23) (Z.pos m)) as [Hnorm|Hsub].
  - assert (Hd : Z.pos (digits2_pos m) = 24)
      by (apply digits2_pos_eq; change (24 - 1) with 23; lia).
    assert (E1 : ((F32.signBit s + ((e + 150) * 2 ^ 23 + (Z.pos m - 2 ^ 23))) / 2 ^ 23) mod 2 ^ 8
                 = e + 150).
    { destruct s; cbn [F32.signBit]; pow2; Z.div_mod_to_equations; lia. }
    assert (E2 : (F32.signBit s + ((e + 150) * 2 ^ 23 + (Z.pos m - 2 ^ 23))) mod 2 ^ 23
                 = Z.pos m - 2 ^ 23).
    { destruct s; cbn [F32.signBit]; pow2; Z.div_mod_to_equations; lia. }
    assert (E3 : (2 ^ 31 <=? F32.signBit s + ((e + 150) * 2 ^ 23 + (Z.pos m - 2 ^ 23))) = s).
    { destruct s; cbn [F32.signBit]; [apply Z.leb_le|apply Z.leb_gt]; pow2; lia. }
    rewrite E1, E2, E3.
    destruct (Z.eqb_spec (e + 150) 0); [lia|].
    destruct (Z.eqb_spec (e + 150) 255); [lia|].
    replace (Z.pos m - 2 ^ 23 + 2 ^ 23) with (Z.pos m) by lia.
    f_equal. lia.
  - assert (Hd : Z.pos (digits2_pos m) <= 23) by (apply digits2_pos_le; lia).
    assert (e = -149) by lia. subst e.
    assert (E1 : ((F32.signBit s + Z.pos m) / 2 ^ 23) mod 2 ^ 8 = 0).
    { destruct s; cbn [F32.signBit]; pow2; Z.div_mod_to_equations; lia. }
    assert (E2 : (F32.signBit s + Z.pos m) mod 2 ^ 23 = Z.pos m).
    { destruct s; cbn [F32.signBit]; pow2; Z.div_mod_to_equations; lia. }
    assert (E3 : (2 ^ 31 <=? F32.signBit s + Z.pos m) = s).
    { destruct s; cbn [F32.signBit]; [apply Z.leb_le|apply Z.leb_gt]; pow2; lia. }
    rewrite E1, E2, E3. reflexivity.
Qed.

Lemma value_valid f : valid_binary 24 128 (F32.value f) = true.
Proof. apply decode_valid, bitsOf_range. Qed.

Lemma value_ofSF r : valid_binary 24 128 r = true -> F32.value (F32.ofSF r) = r.
Proof.
  intros H. unfold F32.value, F32.ofSF.
  rewrite bitsOf_ofBits by (apply encode_range; exact H).
  apply decode_encode; exact H.
Qed.

Lemma value_add a b : F32.value (F32.add a b) = SFadd 24 128 (F32.value a) (F32.value b).
Proof. apply value_ofSF, SFadd_valid; apply value_valid. Qed.

Lemma isNaN_sfNaN a : F32.isNaN a = sfNaN (F32.value a).
Proof. reflexivity. Qed.

Lemma add_nonneg_ge x w :
  F32.ltb w F32.zero = false -> F32.isNaN (F32.add x w) = false ->
  F32.leb x (F32.add x w) = true.
Proof.
  unfold F32.ltb, F32.leb. rewrite isNaN_sfNaN, value_add.
  change (F32.value F32.zero) with (S754_zero false).
  intros Hlt Hn. apply SFadd_ge; auto using value_valid.
Qed.

Lemma add_neg_le x w :
  F32.ltb w F32.zero = true -> F32.isNaN (F32.add x w) = false ->
  F32.leb (F32.add x w) x = true.
Proof.
  unfold F32.ltb, F32.leb. rewrite isNaN_sfNaN, value_add.
  change (F32.value F32.zero) with (S754_zero false).
  intros Hlt Hn. apply SFadd_le; auto using value_valid.
Qed.

Lemma value_neg a : F32.value (F32.neg a) = SFopp (F32.value a).
Proof.
  unfold F32.value, F32.neg. pose proof (bitsOf_range a) as Hr.
  set (z := F32.bitsOf a) in *.
  destruct (Z.leb_spec (2 ^ 31) z) as [Hs|Hs].
  - rewrite bitsOf_ofBits by (pow2; lia). unfold F32.decode.
    replace (((z - 2 ^ 31) / 2 ^ 23) mod 2 ^ 8) with ((z / 2 ^ 23) mod 2 ^ 8)
      by (pow2; Z.div_mod_to_equations; lia).
    replace ((z - 2 ^ 31) mod 2 ^ 23) with (z mod 2 ^ 23)
      by (pow2; Z.div_mod_to_equations; lia).
    replace (2 ^ 31 <=? z - 2 ^ 31) with false by (symmetry; apply Z.leb_gt; pow2; lia).
    replace (2 ^ 31 <=? z) with true by (symmetry; apply Z.leb_le; pow2; lia).
    destruct ((z / 2 ^ 23) mod 2 ^ 8 =? 0).
    + destruct (z mod 2 ^ 23); reflexivity.
    + destruct ((z / 2 ^ 23) mod 2 ^ 8 =? 255).
      * destruct (z mod 2 ^ 23 =? 0); reflexivity.
      * destruct (z mod 2 ^ 23 + 2 ^ 23); reflexivity.
  - rewrite bitsOf_ofBits by (pow2; lia). unfold F32.decode.
    replace (((z + 2 ^ 31) / 2 ^ 23) mod 2 ^ 8) with ((z / 2 ^ 23) mod 2 ^ 8)
      by (pow2; Z.div_mod_to_equations; lia).
    replace ((z + 2 ^ 31) mod 2 ^ 23) with (z mod 2 ^ 23)
      by (pow2; Z.div_mod_to_equations; lia).
    replace (2 ^ 31 <=? z + 2 ^ 31) with true by (symmetry; apply Z.leb_le; pow2; lia).
    replace (2 ^ 31 <=? z) with false by (symmetry; apply Z.leb_gt; pow2; lia).
    destruct ((z / 2 ^ 23) mod 2 ^ 8 =? 0).
    + destruct (z mod 2 ^ 23); reflexivity.
    + destruct ((z / 2 ^ 23) mod 2 ^ 8 =? 255).
      * destruct (z mod 2 ^ 23 =? 0); reflexivity.
      * destruct (z mod 2 ^ 23 + 2 ^ 23); reflexivity.
Qed.

(** ** A difference that is zero *)

Lemma SFsub_finite sx mx ex sy my ey :
  SFsub 24 128 (S754_finite sx mx ex) (S754_finite sy my ey)
  = binary_normalize 24 128
      (cond_Zopp sx (Z.pos (fst (shl_align mx ex (Z.min ex ey))))
       - cond_Zopp sy (Z.pos (fst (shl_align my ey (Z.min ex ey)))))
      (Z.min ex ey) false.
Proof. reflexivity. Qed.

Lemma SFsub_valid x y :
  valid_binary 24 128 x = true -> valid_binary 24 128 y = true ->
  valid_binary 24 128 (SFsub 24 128 x y) = true.
Proof.
  intros Hx Hy.
  destruct x as [sx|sx| |sx mx ex], y as [sy|sy| |sy my ey];
    try reflexivity; try assumption;
    try (destruct sx, sy; reflexivity).
  rewrite SFsub_finite. cbn [valid_binary] in Hx, Hy.
  pose proof (bounded_facts _ _ Hx) as [Hex _].
  pose proof (bounded_facts _ _ Hy) as [Hey _].
  set (ez := Z.min ex ey).
  destruct (cond_Zopp sx (Z.pos (fst (shl_align mx ex ez)))
            - cond_Zopp sy (Z.pos (fst (shl_align my ey ez)))) as [|M|M];
    cbn [binary_normalize]; [reflexivity| |].
  - destruct (round_shape false M ez ltac:(unfold ez; lia)) as [E|[m' [e' [E Hb]]]];
      rewrite E; [reflexivity|exact Hb].
  - destruct (round_shape true M ez ltac:(unfold ez; lia)) as [E|[m' [e' [E Hb]]]];
      rewrite E; [reflexivity|exact Hb].
Qed.

(** Two canonical mantissas that agree once aligned are the same. *)
Lemma aligned_canonical_eq mx ex my ey ez :
  bounded 24 128 mx ex = true -> bounded 24 128 my ey = true ->
  ez <= ex -> ez <= ey ->
  Z.pos mx * 2 ^ (ex - ez) = Z.pos my * 2 ^ (ey - ez) ->
  ex = ey /\ mx = my.
Proof.
  intros Hx Hy Lx Ly E.
  assert (Px : 0 < 2 ^ (ex - ez)) by (apply Z.pow_pos_nonneg; lia).
  destruct (Z.pos mx * 2 ^ (ex - ez)) as [|n|n] eqn:En; try lia.
  pose proof (digits2_pos_shift mx (ex - ez) ltac:(lia) n ltac:(lia)) as Dx.
  pose proof (digits2_pos_shift my (ey - ez) ltac:(lia) n ltac:(lia)) as Dy.
  apply bounded_iff in Hx, Hy. destruct Hx as [Cx _], Hy as [Cy _].
  rewrite fexp_eq in Cx, Cy.
  assert (ex = ey) by lia. subst ey. split; [reflexivity|].
  assert (Z.pos mx = Z.pos my) by nia. congruence.
Qed.

Lemma SFsub_zero_eq x y :
  valid_binary 24 128 x = true -> valid_binary 24 128 y = true ->
  SFeqb (SFsub 24 128 x y) (S754_zero false) = true ->
  SFeqb x y = true.
Proof.
  intros Hx Hy H.
  destruct x as [sx|sx| |sx mx ex], y as [sy|sy| |sy my ey];
    try discriminate H; try reflexivity;
    try (destruct sx, sy; discriminate H);
    try (destruct sx; discriminate H);
    try (destruct sy; discriminate H).
  rewrite SFsub_finite in H. cbn [valid_binary] in Hx, Hy.
  pose proof (bounded_facts _ _ Hx) as [Hex _].
  pose proof (bounded_facts _ _ Hy) as [Hey _].
  set (ez := Z.min ex ey) in *.
  assert (Lx : ez <= ex) by (unfold ez; lia).
  assert (Ly : ez <= ey) by (unfold ez; lia).
  rewrite !shl_align_fst in H by assumption.
  assert (Px : 0 < Z.pos mx * 2 ^ (ex - ez))
    by (apply Z.mul_pos_pos; [lia|apply Z.pow_pos_nonneg; lia]).
  assert (Py : 0 < Z.pos my * 2 ^ (ey - ez))
    by (apply Z.mul_pos_pos; [lia|apply Z.pow_pos_nonneg; lia]).
  destruct (cond_Zopp sx (Z.pos mx * 2 ^ (ex - ez))
            - cond_Zopp sy (Z.pos my * 2 ^ (ey - ez))) as [|M|M] eqn:ES;
    cbn [binary_normalize] in H.
  - assert (Es : sx = sy /\ Z.pos mx * 2 ^ (ex - ez) = Z.pos my * 2 ^ (ey - ez)).
    { destruct sx, sy; cbn [cond_Zopp] in ES; split; try reflexivity; lia. }
    destruct Es as [-> Ev].
    destruct (aligned_canonical_eq mx ex my ey ez Hx Hy Lx Ly Ev) as [-> ->].
    unfold SFeqb. cbn. rewrite Z.compare_refl.
    change (Pos.compare_cont Eq my my) with (Pos.compare my my).
    rewrite Pos.compare_refl. destruct sy; reflexivity.
  - destruct (round_shape false M ez ltac:(lia)) as [E|[m' [e' [E _]]]];
      rewrite E in H; discriminate H.
  - destruct (round_shape true M ez ltac:(lia)) as [E|[m' [e' [E _]]]];
      rewrite E in H; discriminate H.
Qed.

Lemma SFeqb_sym x y : SFeqb x y = true -> SFeqb y x = true.
Proof. unfold SFeqb. intros H. sf_cases; cmp_cases. Qed.

Lemma value_sub a b : F32.value (F32.sub a b) = SFsub 24 128 (F32.value a) (F32.value b).
Proof. apply value_ofSF, SFsub_valid; apply value_valid. Qed.

Lemma sub_zero_eqb a b : F32.eqb (F32.sub a b) F32.zero = true -> F32.eqb a b = true.
Proof.
  unfold F32.eqb. rewrite value_sub.
  change (F32.value F32.zero) with (S754_zero false).
  apply SFsub_zero_eq; apply value_valid.
Qed.

Lemma eqb_sym a b : F32.eqb a b = true -> F32.eqb b a = true.
Proof. apply SFeqb_sym. Qed.

(** ** Markers *)

Lemma eqb_lineMarker v : F32.eqb v lineMarker = true -> v = lineMarker.
Proof. eapply eqb_finite_eq. vm_compute. reflexivity. Qed.
Lemma eqb_quadMarker v : F32.eqb v quadMarker = true -> v = quadMarker.
Proof. eapply eqb_finite_eq. vm_compute. reflexivity. Qed.
Lemma eqb_cubicMarker v : F32.eqb v cubicMarker = true -> v = cubicMarker.
Proof. eapply eqb_finite_eq. vm_compute. reflexivity. Qed.
Lemma eqb_closeSubPathMarker v :
  F32.eqb v closeSubPathMarker = true -> v = closeSubPathMarker.
Proof. eapply eqb_finite_eq. vm_compute. reflexivity. Qed.

Lemma marker_mm : F32.eqb moveMarker moveMarker = true. Proof. reflexivity. Qed.
Lemma marker_lm : F32.eqb lineMarker moveMarker = false. Proof. reflexivity. Qed.
Lemma marker_ll : F32.eqb lineMarker lineMarker = true. Proof. reflexivity. Qed.
Lemma marker_qm : F32.eqb quadMarker moveMarker = false. Proof. reflexivity. Qed.
Lemma marker_ql : F32.eqb quadMarker lineMarker = false. Proof. reflexivity. Qed.
Lemma marker_qq : F32.eqb quadMarker quadMarker = true. Proof. reflexivity. Qed.
Lemma marker_bm : F32.eqb cubicMarker moveMarker = false. Proof. reflexivity. Qed.
Lemma marker_bl : F32.eqb cubicMarker lineMarker = false. Proof. reflexivity. Qed.
Lemma marker_bq : F32.eqb cubicMarker quadMarker = false. Proof. reflexivity. Qed.
Lemma marker_bb : F32.eqb cubicMarker cubicMarker = true. Proof. reflexivity. Qed.
Lemma marker_cm : F32.eqb closeSubPathMarker moveMarker = false. Proof. reflexivity. Qed.
Lemma marker_cl : F32.eqb closeSubPathMarker lineMarker = false. Proof. reflexivity. Qed.
Lemma marker_cq : F32.eqb closeSubPathMarker quadMarker = false. Proof. reflexivity. Qed.
Lemma marker_cb : F32.eqb closeSubPathMarker cubicMarker = false. Proof. reflexivity. Qed.
Lemma marker_cc : F32.eqb closeSubPathMarker closeSubPathMarker = true.
Proof. reflexivity. Qed.

Create Rewrite HintDb markers.
#[local] Hint Rewrite marker_mm marker_lm marker_ll marker_qm marker_ql marker_qq
  marker_bm marker_bl marker_bq marker_bb marker_cm marker_cl marker_cq marker_cb
  marker_cc : markers.

Arguments F32.eqb : simpl never.
Arguments F32.neqb : simpl never.
Arguments F32.ltb : simpl never.
Arguments F32.leb : simpl never.
Arguments F32.add : simpl never.

(** ** [records] and [streamData] are inverse to each other *)

Lemma streamData_cons e es : streamData (e :: es) = elementData e ++ streamData es.
Proof. reflexivity. Qed.

Lemma streamData_app es es' : streamData (es ++ es') = streamData es ++ streamData es'.
Proof. apply flat_map_app. Qed.

Lemma records_streamData es : records (streamData es) = Some es.
Proof.
  induction es as [|e es IH]; [reflexivity|].
  rewrite streamData_cons.
  destruct e; cbn [elementData app records]; autorewrite with markers;
    cbn [orb]; rewrite IH; reflexivity.
Qed.

Lemma list_length_ind {A : Type} (P : list A -> Prop) :
  (forall l, (forall l', (length l' < length l)%nat -> P l') -> P l) ->
  forall l, P l.
Proof.
  intros H l. remember (length l) as n eqn:En.
  revert l En. induction n as [n IH] using lt_wf_ind. intros l ->.
  apply H. intros l' Hl. eapply IH; [exact Hl|reflexivity].
Qed.

Lemma records_sound l : forall es, records l = Some es -> l = streamData es.
Proof.
  induction l as [l IH] using list_length_ind. intros es H.
  destruct l as [|type rest]; cbn [records] in H.
  - injection H as <-. reflexivity.
  - destruct (F32.eqb type moveMarker) eqn:Em.
    { apply eqb_moveMarker in Em. subst type.
      destruct rest as [|x [|y rest']]; try discriminate H.
      destruct (records rest') as [es'|] eqn:E; try discriminate H.
      injection H as <-. rewrite streamData_cons. cbn [elementData app].
      do 3 f_equal. apply IH; [cbn; lia|exact E]. }
    destruct (F32.eqb type lineMarker) eqn:El.
    { apply eqb_lineMarker in El. subst type.
      destruct rest as [|x [|y rest']]; try discriminate H.
      destruct (records rest') as [es'|] eqn:E; try discriminate H.
      injection H as <-. rewrite streamData_cons. cbn [elementData app].
      do 3 f_equal. apply IH; [cbn; lia|exact E]. }
    destruct (F32.eqb type quadMarker) eqn:Eq.
    { apply eqb_quadMarker in Eq. subst type.
      destruct rest as [|a [|b [|c [|d rest']]]]; try discriminate H.
      destruct (records rest') as [es'|] eqn:E; try discriminate H.
      injection H as <-. rewrite streamData_cons. cbn [elementData app].
      do 5 f_equal. apply IH; [cbn; lia|exact E]. }
    destruct (F32.eqb type cubicMarker) eqn:Eb.
    { apply eqb_cubicMarker in Eb. subst type.
      destruct rest as [|a [|b [|c [|d [|e [|f rest']]]]]]; try discriminate H.
      destruct (records rest') as [es'|] eqn:E; try discriminate H.
      injection H as <-. rewrite streamData_cons. cbn [elementData app].
      do 7 f_equal. apply IH; [cbn; lia|exact E]. }
    destruct (F32.eqb type closeSubPathMarker) eqn:Ec; try discriminate H.
    apply eqb_closeSubPathMarker in Ec. subst type.
    destruct (records rest) as [es'|] eqn:E; try discriminate H.
    injection H as <-. rewrite streamData_cons. cbn [elementData app].
    f_equal. apply IH; [cbn; lia|exact E].
Qed.

Lemma streamData_nil_inv es : streamData es = [] -> es = [].
Proof. destruct es as [|[] es]; [reflexivity|discriminate..]. Qed.

(** ** The builder calls on the record stream *)

Lemma numElements_zero p : (numElements p =? 0) = true <-> data p = [].
Proof.
  unfold numElements. rewrite Z.eqb_eq. destruct (data p); cbn; split; intros H;
    try reflexivity; try discriminate; lia.
Qed.

Lemma numElements_zero_false p : data p <> [] -> (numElements p =? 0) = false.
Proof.
  intros H. destruct (numElements p =? 0) eqn:E; [|reflexivity].
  apply numElements_zero in E. contradiction.
Qed.

Lemma element_last p d :
  data p <> [] -> element p (numElements p - 1) = Some (last (data p) d).
Proof.
  intros H. unfold element, numElements.
  destruct (exists_last H) as [l [v E]]. rewrite E, last_last, length_app. cbn [length].
  replace ((0 <=? Z.of_nat (length l + 1) - 1)
           && (Z.of_nat (length l + 1) - 1 <? Z.of_nat (length l + 1))) with true
    by (symmetry; apply andb_true_iff; split; [apply Z.leb_le|apply Z.ltb_lt]; lia).
  replace (Z.to_nat (Z.of_nat (length l + 1) - 1)) with (length l) by lia.
  rewrite nth_error_app2 by lia. rewrite Nat.sub_diag. reflexivity.
Qed.

Lemma closeSubPath_nil p : data p = [] -> closeSubPath p = p.
Proof.
  intros H. unfold closeSubPath, numElements. rewrite H. reflexivity.
Qed.

Lemma closeSubPath_last p :
  data p <> [] ->
  closeSubPath p
  = if F32.neqb (last (data p) closeSubPathMarker) closeSubPathMarker
    then mkPath (data p ++ [closeSubPathMarker])
                (pathXMin p) (pathXMax p) (pathYMin p) (pathYMax p) (useNonZeroWinding p)
    else p.
Proof.
  intros H. unfold closeSubPath.
  rewrite (element_last p closeSubPathMarker H).
  replace (numElements p >? 0) with true; [reflexivity|].
  symmetry. apply Z.gtb_lt. unfold numElements. destruct (data p); [contradiction|cbn; lia].
Qed.

Lemma streamData_nonempty es : es <> [] -> streamData es <> [].
Proof. intros H E. apply streamData_nil_inv in E. contradiction. Qed.

Lemma data_appendElement p es e :
  data p = streamData es -> data (appendElement p e) = streamData (appendRecord es e).
Proof.
  intros H. destruct e; cbn [appendElement appendRecord].
  - cbn [startNewSubPath data]. rewrite H, streamData_app. reflexivity.
  - unfold lineTo. destruct es as [|e0 es0].
    + replace (numElements p =? 0) with true by (symmetry; apply numElements_zero; exact H).
      cbn [data startNewSubPath]. rewrite H. reflexivity.
    + rewrite numElements_zero_false by (rewrite H; apply streamData_nonempty; discriminate).
      cbn [data]. rewrite H, streamData_app. reflexivity.
  - unfold quadraticTo. destruct es as [|e0 es0].
    + replace (numElements p =? 0) with true by (symmetry; apply numElements_zero; exact H).
      cbn [data startNewSubPath]. rewrite H. reflexivity.
    + rewrite numElements_zero_false by (rewrite H; apply streamData_nonempty; discriminate).
      cbn [data]. rewrite H, streamData_app. reflexivity.
  - unfold cubicTo. destruct es as [|e0 es0].
    + replace (numElements p =? 0) with true by (symmetry; apply numElements_zero; exact H).
      cbn [data startNewSubPath]. rewrite H. reflexivity.
    + rewrite numElements_zero_false by (rewrite H; apply streamData_nonempty; discriminate).
      cbn [data]. rewrite H, streamData_app. reflexivity.
  - destruct es as [|e0 es0].
    + rewrite closeSubPath_nil by exact H. exact H.
    + rewrite closeSubPath_last by (rewrite H; apply streamData_nonempty; discriminate).
      rewrite H.
      destruct (F32.neqb (last (streamData (e0 :: es0)) closeSubPathMarker) closeSubPathMarker).
      * cbn [data]. rewrite streamData_app. reflexivity.
      * exact H.
Qed.

Lemma elementData_nonempty e : elementData e <> [].
Proof. destruct e; discriminate. Qed.

Lemma last_app_nonempty {A : Type} (l l' : list A) d :
  l' <> [] -> last (l ++ l') d = last l' d.
Proof.
  intros H. destruct (exists_last H) as [l0 [v E]]. rewrite E, app_assoc, !last_last.
  reflexivity.
Qed.

Lemma last_streamData_snoc es e d :
  last (streamData (es ++ [e])) d = last (elementData e) d.
Proof.
  rewrite streamData_app. cbn [streamData flat_map]. rewrite app_nil_r.
  apply last_app_nonempty, elementData_nonempty.
Qed.

Lemma allAdjacent_snoc R es e :
  allAdjacent R (es ++ [e])
  = allAdjacent R es
    && match es with
       | [] => true
       | _ => R (last es e) e
       end.
Proof.
  induction es as [|a es IH]; [reflexivity|].
  destruct es as [|b es].
  - cbn. destruct (R a e); reflexivity.
  - change (allAdjacent R ((a :: b :: es) ++ [e]))
      with (R a b && allAdjacent R ((b :: es) ++ [e])).
    rewrite IH.
    change (allAdjacent R (a :: b :: es)) with (R a b && allAdjacent R (b :: es)).
    change (last (a :: b :: es) e) with (last (b :: es) e).
    rewrite andb_assoc. reflexivity.
Qed.

Lemma allAdjacent_tail R e es : allAdjacent R (e :: es) = true -> allAdjacent R es = true.
Proof.
  destruct es as [|b es]; [reflexivity|].
  change (allAdjacent R (e :: b :: es)) with (R e b && allAdjacent R (b :: es)).
  intros H. apply andb_true_iff in H. apply H.
Qed.

Lemma allAdjacent_head R e b es : allAdjacent R (e :: b :: es) = true -> R e b = true.
Proof.
  change (allAdjacent R (e :: b :: es)) with (R e b && allAdjacent R (b :: es)).
  intros H. apply andb_true_iff in H. apply H.
Qed.

Lemma allAdjacent_app R es es' :
  allAdjacent R es = true -> allAdjacent R es' = true ->
  (forall a b, es <> [] -> es' <> [] -> R (last es a) (hd b es') = true) ->
  allAdjacent R (es ++ es') = true.
Proof.
  revert es. induction es' as [|e es' IH]; intros es H1 H2 H3.
  - now rewrite app_nil_r.
  - replace (es ++ e :: es') with ((es ++ [e]) ++ es') by (rewrite <- app_assoc; reflexivity).
    apply IH.
    + rewrite allAdjacent_snoc, H1. destruct es as [|a es]; [reflexivity|].
      pose proof (H3 e e ltac:(discriminate) ltac:(discriminate)) as H. cbn [hd] in H.
      rewrite H. reflexivity.
    + eapply allAdjacent_tail, H2.
    + intros a b _ Hn. rewrite last_last.
      destruct es' as [|b' es']; [contradiction|].
      cbn [hd]. eapply allAdjacent_head, H2.
Qed.

Lemma allAdjacent_split R es e es' :
  allAdjacent R (es ++ e :: es') = true ->
  allAdjacent R (es ++ [e]) = true.
Proof.
  revert es. induction es as [|a es IH]; intros H; [reflexivity|].
  destruct es as [|b es].
  - cbn [app] in *. apply allAdjacent_head in H. cbn. now rewrite H.
  - change ((a :: b :: es) ++ e :: es') with (a :: b :: (es ++ e :: es')) in H.
    change ((a :: b :: es) ++ [e]) with (a :: b :: (es ++ [e])).
    change (allAdjacent R (a :: b :: es ++ [e]))
      with (R a b && allAdjacent R ((b :: es) ++ [e])).
    rewrite (allAdjacent_head _ _ _ _ H). apply IH. eapply allAdjacent_tail, H.
Qed.

Lemma allAdjacent_map R f es :
  (forall a b, R (f a) (f b) = R a b) ->
  allAdjacent R (map f es) = allAdjacent R es.
Proof.
  intros Hf. induction es as [|a [|b es] IH]; [reflexivity|reflexivity|].
  change (allAdjacent R (map f (a :: b :: es)))
    with (R (f a) (f b) && allAdjacent R (map f (b :: es))).
  rewrite Hf, IH. reflexivity.
Qed.

Lemma noConsecutiveClose_snoc es e :
  noConsecutiveClose (es ++ [e])
  = noConsecutiveClose es
    && match es with
       | [] => true
       | _ => negb (isClose (last es e) && isClose e)
       end.
Proof. apply allAdjacent_snoc. Qed.

Lemma beginsWithMove_app es es' :
  es <> [] -> beginsWithMove (es ++ es') = beginsWithMove es.
Proof. destruct es; [contradiction|reflexivity]. Qed.

Lemma noConsecutiveClose_app es es' :
  noConsecutiveClose es = true -> noConsecutiveClose es' = true ->
  (forall a b, es <> [] -> es' <> [] -> isClose (last es a) && isClose (hd b es') = false) ->
  noConsecutiveClose (es ++ es') = true.
Proof.
  intros H1 H2 H3. apply allAdjacent_app; [exact H1|exact H2|].
  intros a b Ha Hb. rewrite (H3 a b Ha Hb). reflexivity.
Qed.

Lemma last_close_marker es d :
  es <> [] -> isClose (last es closePathElement) = true ->
  last (streamData es) d = closeSubPathMarker.
Proof.
  intros H Hc. destruct (exists_last H) as [es0 [e E]]. subst es.
  rewrite last_last in Hc. rewrite last_streamData_snoc.
  destruct e; try discriminate Hc. reflexivity.
Qed.

Lemma last_indep {A : Type} (l : list A) d d' : l <> [] -> last l d = last l d'.
Proof.
  intros H. destruct (exists_last H) as [l0 [v E]]. rewrite E, !last_last. reflexivity.
Qed.

Lemma appendRecord_wf es e :
  beginsWithMove es = true -> noConsecutiveClose es = true ->
  beginsWithMove (appendRecord es e) = true
  /\ noConsecutiveClose (appendRecord es e) = true.
Proof.
  intros Hb Hn.
  assert (Snoc : forall e', isClose e' = false ->
            noConsecutiveClose (es ++ [e']) = true).
  { intros e' He'. rewrite noConsecutiveClose_snoc, Hn, He'.
    destruct es; [reflexivity|]. rewrite andb_false_r. reflexivity. }
  destruct e; cbn [appendRecord].
  - split; [|apply Snoc; reflexivity].
    destruct es; [reflexivity|exact Hb].
  - destruct es as [|e0 es0]; [split; reflexivity|].
    split; [exact Hb|apply Snoc; reflexivity].
  - destruct es as [|e0 es0]; [split; reflexivity|].
    split; [exact Hb|apply Snoc; reflexivity].
  - destruct es as [|e0 es0]; [split; reflexivity|].
    split; [exact Hb|apply Snoc; reflexivity].
  - destruct es as [|e0 es0]; [split; reflexivity|].
    destruct (F32.neqb (last (streamData (e0 :: es0)) closeSubPathMarker) closeSubPathMarker)
      eqn:El; [|split; assumption].
    split; [exact Hb|].
    rewrite noConsecutiveClose_snoc, Hn. cbn [andb].
    destruct (isClose (last (e0 :: es0) closePathElement)) eqn:Ec; [|reflexivity].
    rewrite (last_close_marker (e0 :: es0) closeSubPathMarker) in El by (discriminate || exact Ec).
    discriminate El.
Qed.

(** ** Every reachable path holds a well-formed record stream *)

(** One turn of a loop over the floats: unfold the loop function once,
    decide the marker tests, and select the branch. *)
Ltac step_markers f :=
  unfold f at 1; fold f; autorewrite with markers; cbv beta iota.

Lemma applyCall_elements p c :
  isAddRectangle c = false -> applyCall p c = appendElements p (callElements c).
Proof.
  destruct c; intros H; try discriminate H;
    cbv beta iota zeta delta [applyCall addRoundedRectangle addTriangle addQuadrilateral
                              addEllipse callElements appendElements fold_left
                              appendElement];
    reflexivity.
Qed.

Lemma addRectangle_data p x y w h :
  data (addRectangle p x y w h)
  = data p ++ streamData (let '(x1, y1, x2, y2) := rectangleEdges x y w h in
                          rectangleRecords x1 y1 x2 y2).
Proof.
  unfold addRectangle, rectangleEdges.
  destruct (F32.ltb w F32.zero), (F32.ltb h F32.zero); reflexivity.
Qed.

Lemma wellFormed_appendElement p e : wellFormed p -> wellFormed (appendElement p e).
Proof.
  intros [es [Hd [Hb Hn]]]. exists (appendRecord es e).
  split; [apply data_appendElement; exact Hd|apply appendRecord_wf; assumption].
Qed.

Lemma wellFormed_appendElements es : forall p,
  wellFormed p -> wellFormed (appendElements p es).
Proof.
  induction es as [|e es IH]; intros p H; [exact H|].
  apply IH, wellFormed_appendElement, H.
Qed.

Lemma wellFormed_addRectangle p x y w h :
  wellFormed p -> wellFormed (addRectangle p x y w h).
Proof.
  intros [es [Hd [Hb Hn]]].
  destruct (rectangleEdges x y w h) as [[[x1 y1] x2] y2] eqn:E.
  exists (es ++ rectangleRecords x1 y1 x2 y2). split; [|split].
  - rewrite addRectangle_data, E, Hd, streamData_app. reflexivity.
  - destruct es; [reflexivity|exact Hb].
  - apply noConsecutiveClose_app; [exact Hn|reflexivity|].
    intros a b _ _. cbn [rectangleRecords hd isClose]. apply andb_false_r.
Qed.

Lemma wellFormed_applyCall p c : wellFormed p -> wellFormed (applyCall p c).
Proof.
  intros H. destruct (isAddRectangle c) eqn:E.
  - destruct c; try discriminate E. apply wellFormed_addRectangle, H.
  - rewrite applyCall_elements by exact E. apply wellFormed_appendElements, H.
Qed.

Lemma addPathFrom_streamData es : forall p,
  addPathFrom p (streamData es) = Some (appendElements p es).
Proof.
  induction es as [|e es IH]; intros p; [reflexivity|].
  rewrite streamData_cons.
  destruct e; cbn [elementData app]; step_markers addPathFrom;
    rewrite IH; reflexivity.
Qed.

Lemma addPath_elements p other q :
  wellFormed other -> addPath p other = Some q ->
  exists es, data other = streamData es /\ q = appendElements p es.
Proof.
  intros [es [Hd _]] H. exists es. split; [exact Hd|].
  unfold addPath in H. rewrite Hd, addPathFrom_streamData in H. now injection H.
Qed.

Lemma isClose_transformElement t e : isClose (transformElement t e) = isClose e.
Proof.
  destruct e; cbn [transformElement];
    repeat match goal with
    | |- context [transformPoint ?t ?x ?y] => destruct (transformPoint t x y)
    end; reflexivity.
Qed.

Lemma isMove_transformElement t e : isMove (transformElement t e) = isMove e.
Proof.
  destruct e; cbn [transformElement];
    repeat match goal with
    | |- context [transformPoint ?t ?x ?y] => destruct (transformPoint t x y)
    end; reflexivity.
Qed.

Lemma applyTransformFrom_streamData t es : forall b s,
  exists b',
    applyTransformFrom t (streamData es) b s
    = Some (streamData (map (transformElement t) es), b').
Proof.
  induction es as [|e es IH]; intros b s; [exists b; reflexivity|].
  rewrite streamData_cons.
  destruct e; cbn [elementData app map transformElement];
    step_markers applyTransformFrom;
    repeat match goal with
    | |- context [transformPoint ?t ?x ?y] => destruct (transformPoint t x y)
    end;
    match goal with
    | |- context [applyTransformFrom t (streamData es) ?b0 ?s0] =>
        destruct (IH b0 s0) as [b' E]; rewrite E
    end;
    exists b'; reflexivity.
Qed.

Lemma wellFormed_applyTransform p t q :
  wellFormed p -> applyTransform p t = Some q -> wellFormed q.
Proof.
  intros [es [Hd [Hb Hn]]] H. unfold applyTransform in H. rewrite Hd in H.
  destruct (applyTransformFrom_streamData t es
              (mkBounds F32.zero F32.zero F32.zero F32.zero) false) as [b' E].
  rewrite E in H. cbn [option_map fst snd] in H. injection H as <-.
  exists (map (transformElement t) es). cbn [data]. split; [reflexivity|]. split.
  - destruct es as [|e es]; [reflexivity|]. cbn [map beginsWithMove] in *.
    now rewrite isMove_transformElement.
  - unfold noConsecutiveClose. rewrite allAdjacent_map; [exact Hn|].
    intros a b. now rewrite !isClose_transformElement.
Qed.

Lemma wellFormed_setUsingNonZeroWinding p isNonZero :
  wellFormed p -> wellFormed (setUsingNonZeroWinding p isNonZero).
Proof. intros H. exact H. Qed.

Lemma wellFormed_loadPathFromStreamLoop fuel : forall source p q,
  wellFormed p -> loadPathFromStreamLoop fuel source p = Some q -> wellFormed q.
Proof.
  induction fuel as [|fuel IH]; intros source p q Hp H; [discriminate H|].
  cbn [loadPathFromStreamLoop] in H.
  destruct (isExhausted source); [injection H as <-; exact Hp|].
  destruct (readByte source) as [c source1].
  repeat match type of H with
  | context [readFloat ?s] => destruct (readFloat s)
  end.
  repeat match type of H with
  | (if ?b then _ else _) = _ => destruct b
  end;
  try (injection H as <-; exact Hp);
  (eapply IH; [|exact H]);
  first [ exact Hp
        | apply (wellFormed_appendElement _ (startNewSubPathElement _ _)); exact Hp
        | apply (wellFormed_appendElement _ (lineToElement _ _)); exact Hp
        | apply (wellFormed_appendElement _ (quadraticToElement _ _ _ _)); exact Hp
        | apply (wellFormed_appendElement _ (cubicToElement _ _ _ _ _ _)); exact Hp
        | apply (wellFormed_appendElement _ closePathElement); exact Hp
        | apply wellFormed_setUsingNonZeroWinding; exact Hp ].
Qed.

Lemma wellFormed_new : wellFormed Path_new.
Proof. exists []. repeat split. Qed.

Lemma reachable_wellFormed p : reachable p -> wellFormed p.
Proof.
  induction 1 as [|p c _ IH|p other q _ IHp _ IHo Ha|p b _ IH|p _ IH|p t q _ IH Ht
                 |p source q _ IH Hl].
  - apply wellFormed_new.
  - apply wellFormed_applyCall, IH.
  - destruct (addPath_elements p other q IHo Ha) as [es [_ ->]].
    apply wellFormed_appendElements, IHp.
  - exact IH.
  - exists []. repeat split.
  - eapply wellFormed_applyTransform; eassumption.
  - eapply wellFormed_loadPathFromStreamLoop; eassumption.
Qed.

Lemma built_reachable p : built p -> reachable p.
Proof.
  induction 1 as [|p c _ IH|p other q _ IHp _ IHo Ha|p b _ IH].
  - apply reach_new.
  - apply reach_call, IH.
  - exact (reach_addPath p other q IHp IHo Ha).
  - apply reach_winding, IH.
Qed.

(* ================================================================== *)
(** * The claims *)
(* ================================================================== *)

(** ** [clear], the implicit move, and [closeSubPath] *)

(** C9: [clear] empties the record stream and resets the four fields of
    the bounding box to zero; the winding flag keeps the value it had,
    so a flag that was set to false stays false and is not put back to
    the [true] of a newly constructed path. *)
Theorem clear_resets_all_but_winding : forall p,
  data (clear p) = []
  /\ pathXMin (clear p) = F32.zero /\ pathXMax (clear p) = F32.zero
  /\ pathYMin (clear p) = F32.zero /\ pathYMax (clear p) = F32.zero
  /\ useNonZeroWinding (clear p) = useNonZeroWinding p
  /\ useNonZeroWinding (clear (setUsingNonZeroWinding p false))
     <> useNonZeroWinding Path_new.
Proof.
  intros p. repeat split. cbn. discriminate.
Qed.

(** C8: on a path without records, [lineTo], [quadraticTo] and [cubicTo]
    first append a move record at (0, 0) and then the requested record:
    the result is that of [startNewSubPath (0, 0)] followed by the same
    call. *)
Theorem segment_on_empty_path_prepends_move : forall p,
  data p = [] ->
  forall x1 y1 x2 y2 x3 y3,
    (lineTo p x1 y1 = lineTo (startNewSubPath p F32.zero F32.zero) x1 y1
     /\ data (lineTo p x1 y1) = [moveMarker; F32.zero; F32.zero; lineMarker; x1; y1])
    /\ (quadraticTo p x1 y1 x2 y2
        = quadraticTo (startNewSubPath p F32.zero F32.zero) x1 y1 x2 y2
        /\ data (quadraticTo p x1 y1 x2 y2)
           = [moveMarker; F32.zero; F32.zero; quadMarker; x1; y1; x2; y2])
    /\ (cubicTo p x1 y1 x2 y2 x3 y3
        = cubicTo (startNewSubPath p F32.zero F32.zero) x1 y1 x2 y2 x3 y3
        /\ data (cubicTo p x1 y1 x2 y2 x3 y3)
           = [moveMarker; F32.zero; F32.zero; cubicMarker; x1; y1; x2; y2; x3; y3]).
Proof.
  intros p H x1 y1 x2 y2 x3 y3.
  assert (E0 : (numElements p =? 0) = true) by (apply numElements_zero; exact H).
  assert (E1 : (numElements (startNewSubPath p F32.zero F32.zero) =? 0) = false).
  { apply numElements_zero_false. cbn [startNewSubPath data]. rewrite H. discriminate. }
  unfold lineTo, quadraticTo, cubicTo. rewrite E0, E1.
  cbn [data startNewSubPath]. rewrite H. repeat split.
Qed.

Lemma segment_on_empty_path_prepends_move_witness :
  data (lineTo Path_new F32.one F32.half)
  = [moveMarker; F32.zero; F32.zero; lineMarker; F32.one; F32.half].
Proof.
  exact (proj2 (proj1 (segment_on_empty_path_prepends_move Path_new eq_refl
                         F32.one F32.half F32.zero F32.zero F32.zero F32.zero))).
Defined.

(** C10: [closeSubPath] leaves a path without records unchanged, and
    every path that the public mutating functions reach from the empty
    path is either without records or begins with a move record. *)
Theorem nonempty_reachable_path_begins_with_move :
  (forall p, data p = [] -> closeSubPath p = p)
  /\ (forall p, reachable p -> data p <> [] ->
      exists x y rest, data p = moveMarker :: x :: y :: rest).
Proof.
  split; [exact closeSubPath_nil|].
  intros p Hr Hne.
  destruct (reachable_wellFormed p Hr) as [es [Hd [Hb _]]].
  destruct es as [|e es]; [rewrite Hd in Hne; contradiction|].
  destruct e as [mx my| | | |]; try discriminate Hb.
  exists mx, my, (streamData es). exact Hd.
Qed.

Lemma nonempty_reachable_path_begins_with_move_witness :
  closeSubPath Path_new = Path_new
  /\ exists x y rest,
       data (applyCall (applyCall Path_new CallCloseSubPath)
                       (CallLineTo F32.one F32.half))
       = moveMarker :: x :: y :: rest.
Proof.
  split.
  - apply (proj1 nonempty_reachable_path_begins_with_move). reflexivity.
  - apply (proj2 nonempty_reachable_path_begins_with_move).
    + apply reach_call, reach_call, reach_new.
    + vm_compute. discriminate.
Defined.




(** ** Comparisons of floats *)

Lemma leb_refl a : F32.isNaN a = false -> F32.leb a a = true.
Proof. intros H. apply SFleb_refl. exact H. Qed.

Lemma ltb_leb a b : F32.ltb a b = true -> F32.leb a b = true.
Proof. apply SFltb_leb. Qed.

Lemma leb_total a b :
  F32.isNaN a = false -> F32.isNaN b = false -> F32.ltb b a = false -> F32.leb a b = true.
Proof. intros Ha Hb. apply SFleb_total; assumption. Qed.

Lemma leb_trans a b c : F32.leb a b = true -> F32.leb b c = true -> F32.leb a c = true.
Proof. apply SFleb_trans. Qed.

Lemma leb_notNaN a b : F32.leb a b = true -> F32.isNaN a = false /\ F32.isNaN b = false.
Proof. apply SFleb_notnan. Qed.

Lemma eqb_leb a b : F32.eqb a b = true -> F32.leb a b = true /\ F32.leb b a = true.
Proof. apply SFeqb_leb. Qed.

Lemma leb_NaN_r a b : F32.isNaN b = true -> F32.leb a b = false.
Proof.
  unfold F32.isNaN, F32.leb. destruct (F32.value b); try discriminate.
  intros _. unfold SFleb. destruct (F32.value a); reflexivity.
Qed.

Lemma leb_NaN_l a b : F32.isNaN a = true -> F32.leb a b = false.
Proof.
  unfold F32.isNaN, F32.leb. destruct (F32.value a); try discriminate.
  intros _. reflexivity.
Qed.

Lemma gtb_NaN_r a b : F32.isNaN b = true -> F32.gtb a b = false.
Proof.
  unfold F32.isNaN, F32.gtb. destruct (F32.value b); try discriminate.
  intros _. reflexivity.
Qed.

(** A float that lies on neither side of a degenerate interval is no
    number. *)
Lemma between_equal_bounds_NaN lo hi v :
  F32.eqb lo hi = true -> F32.leb v lo = false -> F32.geb v hi = false ->
  F32.isNaN v = true.
Proof.
  intros He Hlo Hhi. destruct (F32.isNaN v) eqn:En; [reflexivity|exfalso].
  destruct (eqb_leb _ _ He) as [Hlh Hhl].
  destruct (leb_notNaN _ _ Hlh) as [Nlo Nhi].
  destruct (F32.ltb lo v) eqn:El.
  - apply ltb_leb in El. unfold F32.geb in Hhi.
    pose proof (leb_trans _ _ _ Hhl El) as H. unfold F32.leb in H. congruence.
  - pose proof (leb_total v lo En Nlo El). congruence.
Qed.

(** ** [contains] *)

Lemma countCrossing_NaN x y counts i :
  F32.isNaN x = true \/ F32.isNaN y = true -> countCrossing x y counts i = counts.
Proof.
  intros H. unfold countCrossing. destruct counts as [pos neg].
  destruct H as [H|H].
  - rewrite (leb_NaN_r _ x H).
    destruct ((F32.leb (y1 i) y && F32.gtb (y2 i) y) || (F32.leb (y2 i) y && F32.gtb (y1 i) y));
      reflexivity.
  - rewrite !(leb_NaN_r _ y H). reflexivity.
Qed.

Lemma fold_countCrossing_NaN x y segments : forall counts,
  F32.isNaN x = true \/ F32.isNaN y = true ->
  fold_left (countCrossing x y) segments counts = counts.
Proof.
  induction segments as [|i segments IH]; intros counts H; [reflexivity|].
  cbn [fold_left]. rewrite countCrossing_NaN by exact H. apply IH, H.
Qed.

(** C3: [contains] answers false, whatever the tolerance and whatever
    the flattening iterator would yield, for every point that lies
    outside the cached bounding box; and when the box has no area (its
    two bounds coincide along an axis, or the width or the height that
    [getBounds] reports is zero, as on an empty or a cleared path) it
    answers false for every point. *)
Theorem contains_rejects_outside_box :
  forall (flattening : Path -> AffineTransform -> float -> list LineSegment)
         p x y tolerence,
    (F32.ltb x (pathXMin p) = true \/ F32.gtb x (pathXMax p) = true
     \/ F32.ltb y (pathYMin p) = true \/ F32.gtb y (pathYMax p) = true)
    \/ (F32.eqb (pathXMin p) (pathXMax p) = true
        \/ F32.eqb (pathYMin p) (pathYMax p) = true)
    \/ (F32.eqb (rectW (getBounds p)) F32.zero = true
        \/ F32.eqb (rectH (getBounds p)) F32.zero = true) ->
    contains flattening p x y tolerence = false.
Proof.
  intros flattening p x y tol H. unfold contains.
  destruct (F32.leb x (pathXMin p)) eqn:E1; [reflexivity|].
  destruct (F32.geb x (pathXMax p)) eqn:E2; [reflexivity|].
  destruct (F32.leb y (pathYMin p)) eqn:E3; [reflexivity|].
  destruct (F32.geb y (pathYMax p)) eqn:E4; [reflexivity|].
  cbn [orb].
  assert (HN : F32.isNaN x = true \/ F32.isNaN y = true).
  { destruct H as [[H|[H|[H|H]]]|[[H|H]|[H|H]]].
    - apply ltb_leb in H. congruence.
    - apply SFltb_leb in H. unfold F32.geb in E2. congruence.
    - apply ltb_leb in H. congruence.
    - apply SFltb_leb in H. unfold F32.geb in E4. congruence.
    - left. eapply between_equal_bounds_NaN; eassumption.
    - right. eapply between_equal_bounds_NaN; eassumption.
    - left. apply sub_zero_eqb, eqb_sym in H.
      eapply between_equal_bounds_NaN; eassumption.
    - right. apply sub_zero_eqb, eqb_sym in H.
      eapply between_equal_bounds_NaN; eassumption. }
  rewrite fold_countCrossing_NaN by exact HN.
  destruct (useNonZeroWinding p); reflexivity.
Qed.

Lemma contains_rejects_outside_box_witness :
  contains (fun _ _ _ => [mkLineSegment F32.zero F32.zero F32.one F32.one])
           (addRectangle Path_new F32.zero F32.zero (F32.ofZ 10) (F32.ofZ 5))
           (F32.ofZ (-1)) (F32.div (F32.ofZ 5) (F32.ofZ 2)) F32.one = false
  /\ contains (fun _ _ _ => [mkLineSegment F32.zero F32.zero F32.one F32.one])
              (clear (addRectangle Path_new F32.zero F32.zero (F32.ofZ 10) (F32.ofZ 5)))
              (F32.ofZ 5) (F32.div (F32.ofZ 5) (F32.ofZ 2)) F32.one = false.
Proof.
  split.
  - apply contains_rejects_outside_box. left. left. vm_compute. reflexivity.
  - apply contains_rejects_outside_box. right. right. left. vm_compute. reflexivity.
Defined.

(** ** [getTransformToScaleToFit] *)

(** C4, the claim as stated fails: with [preserveProportions] false the
    function has no degenerate case.  For a target of width zero it
    returns a transform that scales the width to zero, and for a path
    without records (an empty bounding box) it divides by the zero width
    of the bounds; neither result is the identity. *)
Lemma scaleToFit_not_identity_when_not_proportional :
  let centred := mkJustification Justification_centred in
  let p := addRectangle Path_new F32.zero F32.zero (F32.ofZ 10) (F32.ofZ 20) in
  (F32.leb F32.zero F32.zero = true
   /\ getTransformToScaleToFit p F32.zero F32.zero F32.zero (F32.ofZ 100) false centred
      <> AffineTransform_identity)
  /\ (Rectangle_isEmpty (getBounds Path_new) = true
      /\ getTransformToScaleToFit Path_new F32.zero F32.zero (F32.ofZ 100) (F32.ofZ 100)
                                  false centred
         <> AffineTransform_identity).
Proof.
  cbv zeta. split; (split; [vm_compute; reflexivity|]).
  - vm_compute. discriminate.
  - vm_compute. discriminate.
Qed.

(** C4, amended: with [preserveProportions] true the function returns
    the identity whenever the target width or height is not positive or
    the bounds of the path are empty. *)
Theorem scaleToFit_identity_when_degenerate : forall p x y w h justification,
  F32.leb w F32.zero = true \/ F32.leb h F32.zero = true
  \/ Rectangle_isEmpty (getBounds p) = true ->
  getTransformToScaleToFit p x y w h true justification = AffineTransform_identity.
Proof.
  intros p x y w h j H. unfold getTransformToScaleToFit.
  destruct H as [H|[H|H]]; rewrite H; rewrite ?orb_true_r; reflexivity.
Qed.

Lemma scaleToFit_identity_when_degenerate_witness :
  getTransformToScaleToFit
    (addRectangle Path_new F32.zero F32.zero (F32.ofZ 10) (F32.ofZ 20))
    F32.zero F32.zero (F32.ofZ (-3)) (F32.ofZ 100) true
    (mkJustification Justification_centred)
  = AffineTransform_identity.
Proof.
  apply scaleToFit_identity_when_degenerate. left. vm_compute. reflexivity.
Defined.

(** ** [addRectangle] with a negative size *)

Lemma ltb_zero_neg w : F32.ltb w F32.zero = true -> F32.ltb (F32.neg w) F32.zero = false.
Proof.
  unfold F32.ltb. rewrite value_neg. change (F32.value F32.zero) with (S754_zero false).
  destruct (F32.value w) as [s|s| |s m e]; try discriminate;
    destruct s; try discriminate; reflexivity.
Qed.

(** C7, the claim as stated fails: the corner [x + w] is rounded to a
    float, and adding the width back need not return [x].  With
    [x = 0.1f] and [w = -100] the sum [x + w] is -99.90000153 (bits
    C2C7CCCD), and adding 100 gives 0.09999847 (bits 3DCCCC00), not
    [0.1f] (bits 3DCCCCCD): the second call ends its rectangle one
    rounding away from where the first ends it. *)
Lemma addRectangle_negative_width_rounding :
  let x := F32.div (F32.ofZ 1) (F32.ofZ 10) in
  let w := F32.ofZ (-100) in
  F32.ltb w F32.zero = true
  /\ (F32.bitsOf x = 0x3DCCCCCD /\ F32.bitsOf (F32.add x w) = 0xC2C7CCCD
      /\ F32.bitsOf (F32.add (F32.add x w) (F32.neg w)) = 0x3DCCCC00)
  /\ data (addRectangle Path_new x F32.zero w F32.one)
     <> data (addRectangle Path_new (F32.add x w) F32.zero (F32.neg w) F32.one)
  /\ pathXMax (addRectangle Path_new x F32.zero w F32.one)
     <> pathXMax (addRectangle Path_new (F32.add x w) F32.zero (F32.neg w) F32.one).
Proof.
  cbv zeta. split; [vm_compute; reflexivity|].
  split; [repeat split; vm_compute; reflexivity|].
  split; vm_compute; discriminate.
Qed.

(** C7, amended: for [w < 0], [addRectangle (x, y, w, h)] gives the same
    path (records, bounds and flag) as [addRectangle (x + w, y, -w, h)]
    whenever adding [-w] to the rounded sum [x + w] gives [x] back; and
    likewise for [h < 0] and [addRectangle (x, y + h, w, -h)]. *)
Theorem addRectangle_negative_size : forall p x y w h,
  (F32.ltb w F32.zero = true -> F32.add (F32.add x w) (F32.neg w) = x ->
   addRectangle p x y w h = addRectangle p (F32.add x w) y (F32.neg w) h)
  /\ (F32.ltb h F32.zero = true -> F32.add (F32.add y h) (F32.neg h) = y ->
      addRectangle p x y w h = addRectangle p x (F32.add y h) w (F32.neg h)).
Proof.
  intros p x y w h. split; intros Hlt Hback; unfold addRectangle;
    rewrite Hlt, (ltb_zero_neg _ Hlt), Hback; cbn [swapVariables fst snd]; reflexivity.
Qed.

Lemma addRectangle_negative_size_witness :
  addRectangle (startNewSubPath Path_new F32.one F32.one)
               (F32.ofZ 10) (F32.ofZ 10) (F32.ofZ (-5)) (F32.ofZ (-5))
  = addRectangle (startNewSubPath Path_new F32.one F32.one)
                 (F32.ofZ 5) (F32.ofZ 5) (F32.ofZ 5) (F32.ofZ 5).
Proof.
  rewrite (proj1 (addRectangle_negative_size (startNewSubPath Path_new F32.one F32.one)
                    (F32.ofZ 10) (F32.ofZ 10) (F32.ofZ (-5)) (F32.ofZ (-5))))
    by (vm_compute; reflexivity).
  rewrite (proj2 (addRectangle_negative_size (startNewSubPath Path_new F32.one F32.one)
                    (F32.add (F32.ofZ 10) (F32.ofZ (-5)))
                    (F32.ofZ 10) (F32.neg (F32.ofZ (-5))) (F32.ofZ (-5))))
    by (vm_compute; reflexivity).
  replace (F32.add (F32.ofZ 10) (F32.ofZ (-5))) with (F32.ofZ 5) by (vm_compute; reflexivity).
  replace (F32.neg (F32.ofZ (-5))) with (F32.ofZ 5) by (vm_compute; reflexivity).
  reflexivity.
Defined.

(** ** [getCurrentPosition] *)

Lemma size_t_small z : 0 <= z < 2 ^ SIZE_WIDTH -> size_t z = z.
Proof. intros H. unfold size_t. apply Z.mod_small. exact H. Qed.

Lemma element_app p A v T :
  data p = A ++ v :: T -> element p (Z.of_nat (length A)) = Some v.
Proof.
  intros H. unfold element, numElements. rewrite H, length_app. cbn [length].
  replace ((0 <=? Z.of_nat (length A))
           && (Z.of_nat (length A) <? Z.of_nat (length A + S (length T)))) with true
    by (symmetry; apply andb_true_iff; split; [apply Z.leb_le|apply Z.ltb_lt]; lia).
  rewrite Nat2Z.id, nth_error_app2 by lia. rewrite Nat.sub_diag. reflexivity.
Qed.

Lemma element_outside p i : numElements p <= i -> element p i = None.
Proof.
  intros H. unfold element.
  replace (i <? numElements p) with false by (symmetry; apply Z.ltb_ge; exact H).
  rewrite andb_false_r. reflexivity.
Qed.

Lemma numElements_app p A T :
  data p = A ++ T -> numElements p = Z.of_nat (length A) + Z.of_nat (length T).
Proof. intros H. unfold numElements. rewrite H, length_app. lia. Qed.

Lemma scanBackForMove_finds p A : forall T1 T2 fuel,
  data p = A ++ moveMarker :: T1 ++ T2 ->
  numElements p < 2 ^ SIZE_WIDTH ->
  Z.of_nat (length A) + 2 < 2 ^ SIZE_WIDTH ->
  Forall (fun v => F32.eqb v moveMarker = false) T1 ->
  (length T1 < fuel)%nat ->
  scanBackForMove fuel p (Z.of_nat (length A + length T1))
  = Some (Some (Z.of_nat (length A) + 2)).
Proof.
  induction T1 as [|v T1 IH] using rev_ind; intros T2 fuel Hd Hn Ha Hf Hfuel.
  - destruct fuel as [|fuel]; [lia|]. cbn [scanBackForMove length].
    rewrite Nat.add_0_r, (element_app p A moveMarker T2) by exact Hd.
    rewrite marker_mm, size_t_small by lia. reflexivity.
  - destruct fuel as [|fuel]; [lia|]. cbn [scanBackForMove].
    rewrite length_app in *. cbn [length] in *.
    assert (Hd' : data p = (A ++ moveMarker :: T1) ++ v :: T2).
    { rewrite Hd. repeat rewrite <- app_assoc. reflexivity. }
    pose proof (element_app p _ v T2 Hd') as He.
    rewrite length_app in He. cbn [length] in He.
    replace (length A + (length T1 + 1))%nat with (length A + S (length T1))%nat by lia.
    rewrite He.
    apply Forall_app in Hf. destruct Hf as [Hf1 Hf2].
    inversion Hf2 as [|? ? Hv _]; subst. rewrite Hv.
    pose proof (numElements_app p _ _ Hd') as Hlen.
    rewrite length_app in Hlen. cbn [length] in Hlen.
    rewrite size_t_small by lia.
    replace (Z.of_nat (length A + S (length T1)) - 1) with (Z.of_nat (length A + length T1))
      by lia.
    apply (IH (v :: T2)); try assumption; try lia.
    rewrite Hd, <- app_assoc. reflexivity.
Qed.

Lemma endPoint_elementData e pt :
  endPoint e = Some pt -> exists front, elementData e = front ++ [ptX pt; ptY pt].
Proof.
  destruct e; cbn [endPoint]; intros H; try discriminate H; injection H as <-;
    cbn [ptX ptY elementData].
  - exists [moveMarker]. reflexivity.
  - exists [lineMarker]. reflexivity.
  - eexists [quadMarker; _; _]. reflexivity.
  - eexists [cubicMarker; _; _; _; _]. reflexivity.
Qed.

Lemma pointAt_two p A x y T :
  data p = A ++ x :: y :: T ->
  pointAt p (Z.of_nat (length A) + 1) = Returned (mkPoint x y).
Proof.
  intros H. unfold pointAt.
  replace (Z.of_nat (length A) + 1 >? 0) with true by (symmetry; apply Z.gtb_lt; lia).
  replace (Z.of_nat (length A) + 1 - 1) with (Z.of_nat (length A)) by lia.
  rewrite (element_app p A x (y :: T) H).
  assert (H' : data p = (A ++ [x]) ++ y :: T) by (rewrite H, <- app_assoc; reflexivity).
  pose proof (element_app p _ y T H') as E. rewrite length_app in E. cbn [length] in E.
  replace (Z.of_nat (length A) + 1) with (Z.of_nat (length A + 1)) by lia.
  rewrite E. reflexivity.
Qed.

(** The bounded model of the backward loop never gives up: the loop
    ends at a move marker or at a read outside the floats in use. *)
Lemma scanBackForMove_terminates p : forall fuel i,
  numElements p < 2 ^ SIZE_WIDTH -> 0 <= i ->
  (Z.to_nat i + 1 < fuel)%nat -> scanBackForMove fuel p i <> None.
Proof.
  induction fuel as [|fuel IH]; intros i Hn Hi Hf; [lia|].
  cbn [scanBackForMove]. destruct (element p i) eqn:E; [|discriminate].
  destruct (F32.eqb f moveMarker); [discriminate|].
  destruct (Z.eq_dec i 0) as [->|Hne].
  - unfold size_t. change (0 - 1) with (-1).
    destruct fuel as [|fuel]; [lia|]. cbn [scanBackForMove].
    rewrite element_outside; [discriminate|].
    assert ((-1) mod 2 ^ SIZE_WIDTH = 2 ^ SIZE_WIDTH - 1) by reflexivity. lia.
  - assert (Hr : 0 <= i < numElements p).
    { unfold element in E. destruct (Z.leb_spec 0 i), (Z.ltb_spec i (numElements p));
        cbn in E; try discriminate E. lia. }
    rewrite size_t_small by lia. apply IH; lia.
Qed.

Lemma getCurrentPosition_terminates p :
  numElements p < 2 ^ SIZE_WIDTH -> getCurrentPosition p <> OutOfFuel.
Proof.
  intros Hn. unfold getCurrentPosition.
  assert (Hp : forall i, pointAt p i <> OutOfFuel).
  { intros i. unfold pointAt. destruct (i >? 0); [|discriminate].
    destruct (element p (i - 1)), (element p i); discriminate. }
  destruct (size_t (numElements p - 1) >? 0) eqn:Ei; [|apply Hp].
  destruct (element p (size_t (numElements p - 1))) eqn:E; [|discriminate].
  destruct (F32.eqb f closeSubPathMarker); [|apply Hp].
  destruct (scanBackForMove (S (length (data p))) p (size_t (numElements p - 1))) as [[i'|]|] eqn:Es;
    [apply Hp|discriminate|].
  exfalso. revert Es. apply scanBackForMove_terminates; [exact Hn| |].
  - unfold size_t. apply Z.mod_pos_bound. reflexivity.
  - unfold element in E.
    destruct (Z.ltb_spec (size_t (numElements p - 1)) (numElements p));
      [|rewrite andb_false_r in E; discriminate E].
    unfold numElements in *. lia.
Qed.

(** C5, the claim as stated fails.  The backward scan and the test for a
    trailing close compare every float with the marker values, the
    coordinates included: after [startNewSubPath (1, 2)] and
    [lineTo (3, 100005)] the last float has the value of the close
    marker and the function answers the move point (1, 2), not the end
    point of the line; after [startNewSubPath (1, 2)],
    [lineTo (100002, 5)] and [closeSubPath] the scan stops at the
    coordinate 100002 and the answer is (5, 100005), not the move point.
    On a path without records the index [numElements - 1] wraps around
    and the first read is outside the floats in use, so no origin is
    returned. *)
Lemma getCurrentPosition_misreads_marker_values :
  let one := F32.ofZ 1 in
  let two := F32.ofZ 2 in
  let p1 := lineTo (startNewSubPath Path_new one two) (F32.ofZ 3) (F32.ofZ 100005) in
  let p2 := closeSubPath (lineTo (startNewSubPath Path_new one two)
                                 (F32.ofZ 100002) (F32.ofZ 5)) in
  (records (data p1)
   = Some [startNewSubPathElement one two; lineToElement (F32.ofZ 3) (F32.ofZ 100005)]
   /\ getCurrentPosition p1 = Returned (mkPoint one two)
   /\ getCurrentPosition p1 <> Returned (mkPoint (F32.ofZ 3) (F32.ofZ 100005)))
  /\ (records (data p2)
      = Some [startNewSubPathElement one two; lineToElement (F32.ofZ 100002) (F32.ofZ 5);
              closePathElement]
      /\ getCurrentPosition p2 = Returned (mkPoint (F32.ofZ 5) (F32.ofZ 100005))
      /\ getCurrentPosition p2 <> Returned (mkPoint one two))
  /\ (data Path_new = []
      /\ getCurrentPosition Path_new = OutOfBounds
      /\ getCurrentPosition Path_new <> Returned Point_origin).
Proof.
  cbv zeta. repeat split; try (vm_compute; reflexivity); vm_compute; discriminate.
Qed.

(** C5, amended: for a path with records, when the last record is a
    close and no float stored after the marker of the most recent move
    record has the value of the move marker, [getCurrentPosition]
    returns the point of that move record (also when it is the first
    record of the store); when the last record is not a close and its
    last coordinate does not have the value of the close marker, it
    returns the end point of that record. *)
Theorem getCurrentPosition_of_records : forall p,
  numElements p < 2 ^ SIZE_WIDTH ->
  (forall pre x y mid,
      records (data p)
      = Some (pre ++ startNewSubPathElement x y :: mid ++ [closePathElement]) ->
      Forall (fun v => F32.eqb v moveMarker = false) (x :: y :: streamData mid) ->
      getCurrentPosition p = Returned (mkPoint x y))
  /\ (forall pre e pt,
      records (data p) = Some (pre ++ [e]) ->
      endPoint e = Some pt ->
      F32.eqb (ptY pt) closeSubPathMarker = false ->
      getCurrentPosition p = Returned pt).
Proof.
  intros p Hn. split.
  - intros pre x y mid Hr Hf. apply records_sound in Hr.
    rewrite streamData_app, streamData_cons, streamData_app in Hr.
    cbn [elementData streamData flat_map app] in Hr.
    set (A := streamData pre) in *.
    set (T1 := x :: y :: streamData mid ++ [closeSubPathMarker]).
    assert (Hd : data p = A ++ moveMarker :: T1 ++ []).
    { rewrite Hr, app_nil_r. reflexivity. }
    assert (Hlen : numElements p = Z.of_nat (length A) + 1 + Z.of_nat (length T1)).
    { rewrite (numElements_app p A _ Hd), app_nil_r. cbn [length]. lia. }
    assert (HT : (3 <= length T1)%nat).
    { unfold T1. cbn [length]. rewrite length_app. cbn [length]. lia. }
    assert (Hi : size_t (numElements p - 1) = Z.of_nat (length A + length T1)).
    { rewrite size_t_small by lia. lia. }
    unfold getCurrentPosition. rewrite Hi.
    replace (Z.of_nat (length A + length T1) >? 0) with true
      by (symmetry; apply Z.gtb_lt; lia).
    assert (Hlast : element p (Z.of_nat (length A + length T1)) = Some closeSubPathMarker).
    { assert (Hd' : data p = (A ++ moveMarker :: x :: y :: streamData mid)
                             ++ closeSubPathMarker :: []).
      { rewrite Hr. repeat rewrite <- app_assoc. reflexivity. }
      pose proof (element_app p _ _ _ Hd') as E.
      rewrite length_app in E. cbn [length] in E.
      replace (length A + length T1)%nat
        with (length A + S (S (S (length (streamData mid)))))%nat; [exact E|].
      unfold T1. cbn [length]. rewrite length_app. cbn [length]. lia. }
    rewrite Hlast, marker_cc.
    rewrite (scanBackForMove_finds p A T1 [] _ Hd Hn).
    + replace (Z.of_nat (length A) + 2) with (Z.of_nat (length (A ++ [moveMarker])) + 1)
        by (rewrite length_app; cbn [length]; lia).
      apply (pointAt_two p (A ++ [moveMarker]) x y (streamData mid ++ [closeSubPathMarker])).
      rewrite Hr, <- app_assoc. reflexivity.
    + lia.
    + unfold T1. inversion Hf as [|? ? Hx Hf']; subst.
      inversion Hf' as [|? ? Hy Hm]; subst.
      constructor; [exact Hx|]. constructor; [exact Hy|].
      apply Forall_app. split; [exact Hm|]. constructor; [reflexivity|constructor].
    + unfold numElements in Hlen. lia.
  - intros pre e pt Hr He Hy. apply records_sound in Hr.
    rewrite streamData_app in Hr. cbn [streamData flat_map] in Hr. rewrite app_nil_r in Hr.
    destruct (endPoint_elementData e pt He) as [front Ef]. rewrite Ef in Hr.
    destruct pt as [x y]. cbn [ptX ptY] in *.
    set (A := streamData pre ++ front) in *.
    assert (Hd : data p = A ++ x :: y :: []).
    { rewrite Hr. unfold A. rewrite <- app_assoc. reflexivity. }
    assert (Hlen : numElements p = Z.of_nat (length A) + 2).
    { rewrite (numElements_app p A _ Hd). cbn [length]. lia. }
    assert (Hi : size_t (numElements p - 1) = Z.of_nat (length A) + 1).
    { rewrite size_t_small by lia. lia. }
    unfold getCurrentPosition. rewrite Hi.
    replace (Z.of_nat (length A) + 1 >? 0) with true by (symmetry; apply Z.gtb_lt; lia).
    assert (Hlast : element p (Z.of_nat (length A) + 1) = Some y).
    { assert (Hd' : data p = (A ++ [x]) ++ y :: []) by (rewrite Hd, <- app_assoc; reflexivity).
      pose proof (element_app p _ _ _ Hd') as E.
      rewrite length_app in E. cbn [length] in E.
      replace (Z.of_nat (length A) + 1) with (Z.of_nat (length A + 1)) by lia. exact E. }
    rewrite Hlast, Hy. apply (pointAt_two p A x y [] Hd).
Qed.

Lemma getCurrentPosition_of_records_witness :
  getCurrentPosition (addRectangle Path_new F32.zero F32.zero (F32.ofZ 10) (F32.ofZ 5))
  = Returned (mkPoint F32.zero (F32.ofZ 5))
  /\ getCurrentPosition (lineTo (startNewSubPath Path_new F32.one F32.half)
                                (F32.ofZ 3) (F32.ofZ 4))
     = Returned (mkPoint (F32.ofZ 3) (F32.ofZ 4)).
Proof.
  split.
  - apply (proj1 (getCurrentPosition_of_records
                    (addRectangle Path_new F32.zero F32.zero (F32.ofZ 10) (F32.ofZ 5))
                    ltac:(vm_compute; reflexivity))
                 [] F32.zero (F32.ofZ 5)
                 [lineToElement F32.zero F32.zero; lineToElement (F32.ofZ 10) F32.zero;
                  lineToElement (F32.ofZ 10) (F32.ofZ 5)]).
    + vm_compute. reflexivity.
    + repeat constructor.
  - apply (proj2 (getCurrentPosition_of_records
                    (lineTo (startNewSubPath Path_new F32.one F32.half)
                            (F32.ofZ 3) (F32.ofZ 4))
                    ltac:(vm_compute; reflexivity))
                 [startNewSubPathElement F32.one F32.half]
                 (lineToElement (F32.ofZ 3) (F32.ofZ 4))).
    + vm_compute. reflexivity.
    + reflexivity.
    + vm_compute. reflexivity.
Defined.

(** ** The binary stream: writing and reading back *)

Lemma writeFloat_bytes dest f : writeFloat dest f = dest ++ floatBytes f.
Proof. reflexivity. Qed.

Lemma writeElements_streamData es : forall dest,
  writeElements dest (streamData es) = Some (dest ++ flat_map elementBytes es).
Proof.
  induction es as [|e es IH]; intros dest.
  - cbn. now rewrite app_nil_r.
  - rewrite streamData_cons.
    destruct e; cbn [elementData app]; step_markers writeElements; rewrite IH;
      unfold writeByte; rewrite ?writeFloat_bytes; cbn [flat_map elementBytes floatBytes app];
      repeat rewrite <- app_assoc; reflexivity.
Qed.

Lemma useNonZeroWinding_appendElement p e :
  useNonZeroWinding (appendElement p e) = useNonZeroWinding p.
Proof.
  destruct e; cbn [appendElement]; try reflexivity.
  - unfold lineTo. destruct (numElements p =? 0); reflexivity.
  - unfold quadraticTo. destruct (numElements p =? 0); reflexivity.
  - unfold cubicTo. destruct (numElements p =? 0); reflexivity.
  - unfold closeSubPath. destruct (numElements p >? 0); [|reflexivity].
    destruct (element p (numElements p - 1)); [|reflexivity].
    destruct (F32.neqb f closeSubPathMarker); reflexivity.
Qed.

Lemma useNonZeroWinding_appendElements es : forall p,
  useNonZeroWinding (appendElements p es) = useNonZeroWinding p.
Proof.
  induction es as [|e es IH]; intros p; [reflexivity|].
  cbn [appendElements fold_left]. fold (appendElements (appendElement p e) es).
  rewrite IH. apply useNonZeroWinding_appendElement.
Qed.

Lemma float_eta f : F32.Float (F32.byte0 f) (F32.byte1 f) (F32.byte2 f) (F32.byte3 f) = f.
Proof. destruct f; reflexivity. Qed.

Lemma readFloat_bytes f rest : readFloat (floatBytes f ++ rest) = (f, rest).
Proof. cbn. now rewrite float_eta. Qed.

Lemma loadPathFromStreamLoop_winding fuel rest q (isNonZero : bool) :
  loadPathFromStreamLoop (S fuel) ((if isNonZero then "n"%byte else "z"%byte) :: rest) q
  = loadPathFromStreamLoop fuel rest (setUsingNonZeroWinding q isNonZero).
Proof. destruct isNonZero; reflexivity. Qed.

Lemma loadPathFromStreamLoop_element fuel e rest q :
  loadPathFromStreamLoop (S fuel) (elementBytes e ++ rest) q
  = loadPathFromStreamLoop fuel rest (appendElement q e).
Proof.
  destruct e; cbn [elementBytes app loadPathFromStreamLoop isExhausted readByte];
    repeat rewrite <- app_assoc; rewrite ?readFloat_bytes; reflexivity.
Qed.

Lemma loadPathFromStreamLoop_elements es : forall fuel rest q,
  (length es < fuel)%nat ->
  loadPathFromStreamLoop fuel (flat_map elementBytes es ++ "e"%byte :: rest) q
  = Some (appendElements q es).
Proof.
  induction es as [|e es IH]; intros fuel rest q Hf.
  - destruct fuel as [|fuel]; [cbn in Hf; lia|]. reflexivity.
  - destruct fuel as [|fuel]; [cbn in Hf; lia|].
    cbn [length] in Hf. cbn [flat_map appendElements fold_left].
    fold (appendElements (appendElement q e) es).
    rewrite <- app_assoc, loadPathFromStreamLoop_element. apply IH. lia.
Qed.

Lemma length_elementBytes es : (length es <= length (flat_map elementBytes es))%nat.
Proof.
  induction es as [|e es IH]; [cbn; lia|].
  cbn [flat_map]. rewrite length_app. destruct e; cbn [elementBytes length] in *; lia.
Qed.

(** ** Replaying records through the builder calls *)

Lemma data_appendElements es : forall p acc,
  data p = streamData acc ->
  data (appendElements p es) = streamData (fold_left appendRecord es acc).
Proof.
  induction es as [|e es IH]; intros p acc H; [exact H|].
  cbn [appendElements fold_left]. apply IH, data_appendElement, H.
Qed.

Lemma last_streamData es d :
  es <> [] -> last (streamData es) d = last (elementData (last es closePathElement)) d.
Proof.
  intros H. destruct (exists_last H) as [es0 [e E]]. subst es.
  now rewrite last_streamData_snoc, last_last.
Qed.

Lemma fold_appendRecord es : forall acc,
  beginsWithMove (acc ++ es) = true ->
  noConsecutiveClose (acc ++ es) = true ->
  noCloseAfterCloseValue (acc ++ es) = true ->
  fold_left appendRecord es acc = acc ++ es.
Proof.
  induction es as [|e es IH]; intros acc Hb Hn Hc; [now rewrite app_nil_r|].
  cbn [fold_left].
  assert (E : appendRecord acc e = acc ++ [e]).
  { destruct acc as [|a acc].
    - destruct e; try discriminate Hb. reflexivity.
    - destruct e; try reflexivity. cbn [appendRecord].
      apply allAdjacent_split in Hn, Hc. rewrite allAdjacent_snoc in Hn, Hc.
      apply andb_true_iff in Hn, Hc. destruct Hn as [_ Hn], Hc as [_ Hc].
      cbn [isClose] in Hn, Hc. rewrite andb_true_r in Hn, Hc.
      apply negb_true_iff in Hn, Hc.
      unfold lastCoordIsCloseValue in Hc. rewrite Hn in Hc. cbn [negb andb] in Hc.
      rewrite last_streamData by discriminate. unfold F32.neqb. rewrite Hc. reflexivity. }
  rewrite E. rewrite IH; rewrite <- app_assoc; try assumption. reflexivity.
Qed.

Lemma built_wellFormed p : built p -> wellFormed p.
Proof. intros H. apply reachable_wellFormed, built_reachable, H. Qed.

(** C1, the claim as stated fails.  [addRectangle (0, 0, 1, 100005)]
    stores the corner coordinate 100005 directly before its close
    record; that float has the value of the close marker.  When the
    stream is read back, [closeSubPath] finds it at the end of the
    store, takes it for a close record and appends nothing: the path
    read back lacks the final close record. *)
Lemma binary_roundtrip_loses_close_after_marker_value :
  let p := addRectangle Path_new F32.zero F32.zero F32.one (F32.ofZ 100005) in
  built p
  /\ (exists es, records (data p) = Some es
                 /\ beginsWithMove es = true /\ noConsecutiveClose es = true)
  /\ exists bytes q,
       writePathToStream p [] = Some bytes
       /\ loadPathFromStream Path_new bytes = Some q
       /\ data q <> data p.
Proof.
  cbv zeta. split; [|split].
  - exact (built_call Path_new
             (CallAddRectangle F32.zero F32.zero F32.one (F32.ofZ 100005)) built_new).
  - eexists. split; [vm_compute; reflexivity|]. split; reflexivity.
  - eexists. eexists. split; [vm_compute; reflexivity|].
    split; [vm_compute; reflexivity|]. vm_compute. discriminate.
Qed.

(** C1, amended: for every path constructed through the builder
    interface in which no close record directly follows a coordinate
    whose value is that of the close marker, writing the path with
    [writePathToStream] and reading the bytes back with
    [loadPathFromStream] into a newly constructed path gives a path with
    the same floats in [data] and the same winding flag. *)
Theorem binary_roundtrip : forall p,
  built p -> closesFollowOtherValues p = true ->
  exists bytes q,
    writePathToStream p [] = Some bytes
    /\ loadPathFromStream Path_new bytes = Some q
    /\ data q = data p
    /\ useNonZeroWinding q = useNonZeroWinding p.
Proof.
  intros p Hb Hc.
  destruct (built_wellFormed p Hb) as [es [Hd [Hm Hn]]].
  unfold closesFollowOtherValues in Hc. rewrite Hd, records_streamData in Hc.
  set (flag := if useNonZeroWinding p then "n"%byte else "z"%byte).
  exists (flag :: flat_map elementBytes es ++ ["e"%byte]).
  exists (appendElements (setUsingNonZeroWinding Path_new (useNonZeroWinding p)) es).
  split; [|split; [|split]].
  - unfold writePathToStream. rewrite Hd, writeElements_streamData.
    cbn [option_map writeByte app]. reflexivity.
  - unfold loadPathFromStream, flag. cbn [length].
    rewrite loadPathFromStreamLoop_winding.
    apply loadPathFromStreamLoop_elements. rewrite length_app. cbn [length].
    pose proof (length_elementBytes es). lia.
  - rewrite (data_appendElements es _ []) by reflexivity.
    rewrite fold_appendRecord by assumption. rewrite Hd. reflexivity.
  - rewrite useNonZeroWinding_appendElements. reflexivity.
Qed.

Lemma binary_roundtrip_witness :
  exists bytes q,
    writePathToStream
      (applyCall (applyCall (setUsingNonZeroWinding Path_new false)
                            (CallAddRectangle F32.zero F32.zero (F32.ofZ 10) (F32.ofZ 5)))
                 (CallQuadraticTo F32.one F32.one F32.half (F32.ofZ 100005))) []
    = Some bytes
    /\ loadPathFromStream Path_new bytes = Some q
    /\ data q
       = data (applyCall (applyCall (setUsingNonZeroWinding Path_new false)
                            (CallAddRectangle F32.zero F32.zero (F32.ofZ 10) (F32.ofZ 5)))
                 (CallQuadraticTo F32.one F32.one F32.half (F32.ofZ 100005)))
    /\ useNonZeroWinding q = false.
Proof.
  apply (binary_roundtrip
           (applyCall (applyCall (setUsingNonZeroWinding Path_new false)
                            (CallAddRectangle F32.zero F32.zero (F32.ofZ 10) (F32.ofZ 5)))
                 (CallQuadraticTo F32.one F32.one F32.half (F32.ofZ 100005)))).
  - apply built_call, built_call, built_winding, built_new.
  - vm_compute. reflexivity.
Defined.

(** ** The bounding box *)

Lemma isMinOf_single x : F32.isNaN x = false -> isMinOf x [x].
Proof.
  intros H. split; [left; reflexivity|]. constructor; [apply leb_refl, H|constructor].
Qed.

Lemma isMaxOf_single x : F32.isNaN x = false -> isMaxOf x [x].
Proof.
  intros H. split; [left; reflexivity|]. constructor; [apply leb_refl, H|constructor].
Qed.

Lemma isMinOf_notNaN m l : isMinOf m l -> F32.isNaN m = false.
Proof.
  intros [Hin Hall]. rewrite Forall_forall in Hall. apply (leb_notNaN m m), Hall, Hin.
Qed.

Lemma isMaxOf_notNaN m l : isMaxOf m l -> F32.isNaN m = false.
Proof.
  intros [Hin Hall]. rewrite Forall_forall in Hall. apply (leb_notNaN m m), Hall, Hin.
Qed.

Lemma isMinOf_merge m l m' l' :
  isMinOf m l -> isMinOf m' l' -> isMinOf (jmin m m') (l ++ l').
Proof.
  intros H H'. pose proof (isMinOf_notNaN _ _ H) as Nm.
  pose proof (isMinOf_notNaN _ _ H') as Nm'.
  destruct H as [Hin Hall], H' as [Hin' Hall']. unfold jmin.
  rewrite Forall_forall in Hall, Hall'.
  destruct (F32.ltb m' m) eqn:E; split.
  - apply in_or_app. right. exact Hin'.
  - apply Forall_forall. intros c Hc. apply in_app_or in Hc. destruct Hc as [Hc|Hc].
    + eapply leb_trans; [apply ltb_leb, E|apply Hall, Hc].
    + apply Hall', Hc.
  - apply in_or_app. left. exact Hin.
  - apply Forall_forall. intros c Hc. apply in_app_or in Hc. destruct Hc as [Hc|Hc].
    + apply Hall, Hc.
    + eapply leb_trans; [apply leb_total; eassumption|apply Hall', Hc].
Qed.

Lemma isMaxOf_merge m l m' l' :
  isMaxOf m l -> isMaxOf m' l' -> isMaxOf (jmax m m') (l ++ l').
Proof.
  intros H H'. pose proof (isMaxOf_notNaN _ _ H) as Nm.
  pose proof (isMaxOf_notNaN _ _ H') as Nm'.
  destruct H as [Hin Hall], H' as [Hin' Hall']. unfold jmax.
  rewrite Forall_forall in Hall, Hall'.
  destruct (F32.ltb m m') eqn:E; split.
  - apply in_or_app. right. exact Hin'.
  - apply Forall_forall. intros c Hc. apply in_app_or in Hc. destruct Hc as [Hc|Hc].
    + eapply leb_trans; [apply Hall, Hc|apply ltb_leb, E].
    + apply Hall', Hc.
  - apply in_or_app. left. exact Hin.
  - apply Forall_forall. intros c Hc. apply in_app_or in Hc. destruct Hc as [Hc|Hc].
    + apply Hall, Hc.
    + eapply leb_trans; [apply Hall', Hc|apply leb_total; eassumption].
Qed.

Lemma jmin3_jmin a b c : jmin3 a b c = jmin (jmin a b) c.
Proof. unfold jmin3, jmin. destruct (F32.ltb b a); reflexivity. Qed.

Lemma jmax3_jmax a b c : jmax3 a b c = jmax (jmax a b) c.
Proof. unfold jmax3, jmax. destruct (F32.ltb a b); reflexivity. Qed.

Lemma isMinOf_two m l a b :
  isMinOf m l -> F32.isNaN a = false -> F32.isNaN b = false ->
  isMinOf (jmin3 m a b) (l ++ [a; b]).
Proof.
  intros H Ha Hb. rewrite jmin3_jmin.
  change (l ++ [a; b]) with (l ++ [a] ++ [b]). rewrite app_assoc.
  apply isMinOf_merge; [apply isMinOf_merge; [exact H|]|]; apply isMinOf_single; assumption.
Qed.

Lemma isMaxOf_two m l a b :
  isMaxOf m l -> F32.isNaN a = false -> F32.isNaN b = false ->
  isMaxOf (jmax3 m a b) (l ++ [a; b]).
Proof.
  intros H Ha Hb. rewrite jmax3_jmax.
  change (l ++ [a; b]) with (l ++ [a] ++ [b]). rewrite app_assoc.
  apply isMaxOf_merge; [apply isMaxOf_merge; [exact H|]|]; apply isMaxOf_single; assumption.
Qed.

Lemma isMinOf_three m l a b c :
  isMinOf m l -> F32.isNaN a = false -> F32.isNaN b = false -> F32.isNaN c = false ->
  isMinOf (jmin4 m a b c) (l ++ [a; b; c]).
Proof.
  intros H Ha Hb Hc. unfold jmin4. apply isMinOf_merge; [exact H|].
  apply (isMinOf_two a [a] b c); [apply isMinOf_single| |]; assumption.
Qed.

Lemma isMaxOf_three m l a b c :
  isMaxOf m l -> F32.isNaN a = false -> F32.isNaN b = false -> F32.isNaN c = false ->
  isMaxOf (jmax4 m a b c) (l ++ [a; b; c]).
Proof.
  intros H Ha Hb Hc. unfold jmax4. apply isMaxOf_merge; [exact H|].
  apply (isMaxOf_two a [a] b c); [apply isMaxOf_single| |]; assumption.
Qed.

Lemma flat_map_snoc {A B : Type} (f : A -> list B) l a :
  flat_map f (l ++ [a]) = flat_map f l ++ f a.
Proof. rewrite flat_map_app. cbn [flat_map]. now rewrite app_nil_r. Qed.

Lemma boundsExact_nonempty p es :
  es <> [] ->
  boundsExact p es
  = (isMinOf (pathXMin p) (flat_map xCoords es)
     /\ isMaxOf (pathXMax p) (flat_map xCoords es)
     /\ isMinOf (pathYMin p) (flat_map yCoords es)
     /\ isMaxOf (pathYMax p) (flat_map yCoords es)).
Proof. destruct es; [contradiction|reflexivity]. Qed.

Lemma snoc_nonempty {A : Type} (l : list A) a : l ++ [a] <> [].
Proof. destruct l; discriminate. Qed.

Lemma zero_notNaN : F32.isNaN F32.zero = false.
Proof. reflexivity. Qed.

Lemma noNaN_app l l' : noNaN (l ++ l') -> noNaN l /\ noNaN l'.
Proof. apply Forall_app. Qed.

(** Peel the coordinates off the tail of a NaN-free store. *)
Ltac coords_notNaN H :=
  let H' := fresh "Hc" in
  apply noNaN_app in H; destruct H as [_ H'];
  repeat match type of H' with
  | noNaN (_ :: _) => let Hh := fresh "Hnan" in
                      inversion H' as [|? ? Hh H'']; subst; clear H'; rename H'' into H'
  | Forall _ (_ :: _) => let Hh := fresh "Hnan" in
                      inversion H' as [|? ? Hh H'']; subst; clear H'; rename H'' into H'
  end.

Lemma bounds_startNewSubPath p x y :
  boundsInvariant p -> F32.isNaN x = false -> F32.isNaN y = false ->
  boundsInvariant (startNewSubPath p x y).
Proof.
  intros [es [Hd [Hb He]]] Hx Hy. exists (es ++ [startNewSubPathElement x y]).
  split; [|split].
  - cbn [startNewSubPath data]. rewrite Hd, streamData_app. reflexivity.
  - destruct es; [reflexivity|exact Hb].
  - rewrite boundsExact_nonempty by apply snoc_nonempty.
    rewrite !flat_map_snoc. cbn [xCoords yCoords].
    unfold startNewSubPath. cbn [pathXMin pathXMax pathYMin pathYMax].
    destruct es as [|e0 es0].
    + replace (numElements p =? 0) with true by (symmetry; apply numElements_zero; exact Hd).
      cbn [flat_map app].
      repeat split; try (left; reflexivity);
        (constructor; [apply leb_refl; assumption|constructor]).
    + rewrite numElements_zero_false by (rewrite Hd; apply streamData_nonempty; discriminate).
      rewrite boundsExact_nonempty in He by discriminate.
      destruct He as [H1 [H2 [H3 H4]]].
      repeat split;
        first [ apply isMinOf_merge; [assumption|apply isMinOf_single; assumption]
              | apply isMaxOf_merge; [assumption|apply isMaxOf_single; assumption] ].
Qed.

Lemma bounds_nonempty_records p es :
  data p = streamData es -> data p <> [] -> es <> [].
Proof. intros Hd Hne E. subst es. rewrite Hd in Hne. contradiction. Qed.

Lemma bounds_lineTo p x y :
  boundsInvariant p -> data p <> [] -> F32.isNaN x = false -> F32.isNaN y = false ->
  boundsInvariant (lineTo p x y).
Proof.
  intros [es [Hd [Hb He]]] Hne Hx Hy. exists (es ++ [lineToElement x y]).
  pose proof (bounds_nonempty_records p es Hd Hne) as Hes.
  unfold lineTo. rewrite numElements_zero_false by exact Hne.
  split; [|split].
  - cbn [data]. rewrite Hd, streamData_app. reflexivity.
  - rewrite beginsWithMove_app by exact Hes. exact Hb.
  - rewrite boundsExact_nonempty by apply snoc_nonempty.
    rewrite boundsExact_nonempty in He by exact Hes.
    rewrite !flat_map_snoc. cbn [xCoords yCoords pathXMin pathXMax pathYMin pathYMax].
    destruct He as [H1 [H2 [H3 H4]]].
    repeat split;
      first [ apply isMinOf_merge; [assumption|apply isMinOf_single; assumption]
            | apply isMaxOf_merge; [assumption|apply isMaxOf_single; assumption] ].
Qed.

Lemma bounds_quadraticTo p a1 b1 a2 b2 :
  boundsInvariant p -> data p <> [] ->
  F32.isNaN a1 = false -> F32.isNaN b1 = false ->
  F32.isNaN a2 = false -> F32.isNaN b2 = false ->
  boundsInvariant (quadraticTo p a1 b1 a2 b2).
Proof.
  intros [es [Hd [Hb He]]] Hne Ha1 Hb1 Ha2 Hb2.
  exists (es ++ [quadraticToElement a1 b1 a2 b2]).
  pose proof (bounds_nonempty_records p es Hd Hne) as Hes.
  unfold quadraticTo. rewrite numElements_zero_false by exact Hne.
  split; [|split].
  - cbn [data]. rewrite Hd, streamData_app. reflexivity.
  - rewrite beginsWithMove_app by exact Hes. exact Hb.
  - rewrite boundsExact_nonempty by apply snoc_nonempty.
    rewrite boundsExact_nonempty in He by exact Hes.
    rewrite !flat_map_snoc. cbn [xCoords yCoords pathXMin pathXMax pathYMin pathYMax].
    destruct He as [H1 [H2 [H3 H4]]].
    repeat split;
      first [ apply isMinOf_two; assumption | apply isMaxOf_two; assumption ].
Qed.

Lemma bounds_cubicTo p a1 b1 a2 b2 a3 b3 :
  boundsInvariant p -> data p <> [] ->
  F32.isNaN a1 = false -> F32.isNaN b1 = false ->
  F32.isNaN a2 = false -> F32.isNaN b2 = false ->
  F32.isNaN a3 = false -> F32.isNaN b3 = false ->
  boundsInvariant (cubicTo p a1 b1 a2 b2 a3 b3).
Proof.
  intros [es [Hd [Hb He]]] Hne Ha1 Hb1 Ha2 Hb2 Ha3 Hb3.
  exists (es ++ [cubicToElement a1 b1 a2 b2 a3 b3]).
  pose proof (bounds_nonempty_records p es Hd Hne) as Hes.
  unfold cubicTo. rewrite numElements_zero_false by exact Hne.
  split; [|split].
  - cbn [data]. rewrite Hd, streamData_app. reflexivity.
  - rewrite beginsWithMove_app by exact Hes. exact Hb.
  - rewrite boundsExact_nonempty by apply snoc_nonempty.
    rewrite boundsExact_nonempty in He by exact Hes.
    rewrite !flat_map_snoc. cbn [xCoords yCoords pathXMin pathXMax pathYMin pathYMax].
    destruct He as [H1 [H2 [H3 H4]]].
    repeat split;
      first [ apply isMinOf_three; assumption | apply isMaxOf_three; assumption ].
Qed.

Lemma bounds_closeSubPath p : boundsInvariant p -> boundsInvariant (closeSubPath p).
Proof.
  intros [es [Hd [Hb He]]].
  destruct es as [|e0 es0].
  - rewrite closeSubPath_nil by exact Hd. exists [].
    split; [exact Hd|split; [exact Hb|exact He]].
  - rewrite closeSubPath_last by (rewrite Hd; apply streamData_nonempty; discriminate).
    destruct (F32.neqb (last (data p) closeSubPathMarker) closeSubPathMarker).
    + exists ((e0 :: es0) ++ [closePathElement]). split; [|split].
      * cbn [data]. rewrite Hd, streamData_app. reflexivity.
      * exact Hb.
      * rewrite boundsExact_nonempty by apply snoc_nonempty.
        rewrite boundsExact_nonempty in He by discriminate.
        rewrite !flat_map_snoc. cbn [xCoords yCoords]. rewrite !app_nil_r. exact He.
    + exists (e0 :: es0). split; [exact Hd|split; [exact Hb|exact He]].
Qed.

Lemma segment_on_empty p :
  data p = [] ->
  (forall x y, lineTo p x y = lineTo (startNewSubPath p F32.zero F32.zero) x y)
  /\ (forall a1 b1 a2 b2, quadraticTo p a1 b1 a2 b2
        = quadraticTo (startNewSubPath p F32.zero F32.zero) a1 b1 a2 b2)
  /\ (forall a1 b1 a2 b2 a3 b3, cubicTo p a1 b1 a2 b2 a3 b3
        = cubicTo (startNewSubPath p F32.zero F32.zero) a1 b1 a2 b2 a3 b3).
Proof.
  intros H.
  assert (E0 : (numElements p =? 0) = true) by (apply numElements_zero; exact H).
  assert (E1 : (numElements (startNewSubPath p F32.zero F32.zero) =? 0) = false).
  { apply numElements_zero_false. cbn [startNewSubPath data]. rewrite H. discriminate. }
  repeat split; intros; unfold lineTo, quadraticTo, cubicTo; rewrite E0, E1; reflexivity.
Qed.

Lemma appendElement_tail p e :
  exists front,
    data (appendElement p e) = data p ++ front
    /\ (isClose e = false ->
        exists front', data (appendElement p e) = front' ++ elementData e).
Proof.
  destruct e; cbn [appendElement isClose].
  - eexists. split; [reflexivity|]. intros _. eexists. reflexivity.
  - unfold lineTo. destruct (numElements p =? 0) eqn:E.
    + apply numElements_zero in E. cbn [data startNewSubPath]. rewrite E.
      eexists. split; [reflexivity|]. intros _. exists [moveMarker; F32.zero; F32.zero].
      reflexivity.
    + eexists. split; [reflexivity|]. intros _. eexists. reflexivity.
  - unfold quadraticTo. destruct (numElements p =? 0) eqn:E.
    + apply numElements_zero in E. cbn [data startNewSubPath]. rewrite E.
      eexists. split; [reflexivity|]. intros _. exists [moveMarker; F32.zero; F32.zero].
      reflexivity.
    + eexists. split; [reflexivity|]. intros _. eexists. reflexivity.
  - unfold cubicTo. destruct (numElements p =? 0) eqn:E.
    + apply numElements_zero in E. cbn [data startNewSubPath]. rewrite E.
      eexists. split; [reflexivity|]. intros _. exists [moveMarker; F32.zero; F32.zero].
      reflexivity.
    + eexists. split; [reflexivity|]. intros _. eexists. reflexivity.
  - unfold closeSubPath. destruct (numElements p >? 0).
    + destruct (element p (numElements p - 1)) as [v|].
      * destruct (F32.neqb v closeSubPathMarker).
        -- eexists. split; [reflexivity|discriminate].
        -- exists []. split; [now rewrite app_nil_r|discriminate].
      * exists []. split; [now rewrite app_nil_r|discriminate].
    + exists []. split; [now rewrite app_nil_r|discriminate].
Qed.

Lemma bounds_appendElement p e :
  boundsInvariant p -> noNaN (data (appendElement p e)) ->
  boundsInvariant (appendElement p e).
Proof.
  intros Hp Hn.
  destruct (appendElement_tail p e) as [_ [_ Ht]].
  destruct e; cbn [appendElement] in *.
  - destruct (Ht eq_refl) as [front E]. rewrite E in Hn. cbn [elementData] in Hn.
    coords_notNaN Hn. apply bounds_startNewSubPath; assumption.
  - destruct (Ht eq_refl) as [front E]. rewrite E in Hn. cbn [elementData] in Hn.
    coords_notNaN Hn.
    destruct (data p) eqn:Ed.
    + rewrite (proj1 (segment_on_empty p Ed)).
      apply bounds_lineTo; try assumption.
      * apply bounds_startNewSubPath; [exact Hp|reflexivity|reflexivity].
      * cbn [startNewSubPath data]. rewrite Ed. discriminate.
    + apply bounds_lineTo; try assumption. rewrite Ed. discriminate.
  - destruct (Ht eq_refl) as [front E]. rewrite E in Hn. cbn [elementData] in Hn.
    coords_notNaN Hn.
    destruct (data p) eqn:Ed.
    + rewrite (proj1 (proj2 (segment_on_empty p Ed))).
      apply bounds_quadraticTo; try assumption.
      * apply bounds_startNewSubPath; [exact Hp|reflexivity|reflexivity].
      * cbn [startNewSubPath data]. rewrite Ed. discriminate.
    + apply bounds_quadraticTo; try assumption. rewrite Ed. discriminate.
  - destruct (Ht eq_refl) as [front E]. rewrite E in Hn. cbn [elementData] in Hn.
    coords_notNaN Hn.
    destruct (data p) eqn:Ed.
    + rewrite (proj2 (proj2 (segment_on_empty p Ed))).
      apply bounds_cubicTo; try assumption.
      * apply bounds_startNewSubPath; [exact Hp|reflexivity|reflexivity].
      * cbn [startNewSubPath data]. rewrite Ed. discriminate.
    + apply bounds_cubicTo; try assumption. rewrite Ed. discriminate.
  - apply bounds_closeSubPath, Hp.
Qed.

Lemma appendElements_grows es : forall p,
  exists l, data (appendElements p es) = data p ++ l.
Proof.
  induction es as [|e es IH]; intros p.
  - exists []. cbn. now rewrite app_nil_r.
  - cbn [appendElements fold_left]. fold (appendElements (appendElement p e) es).
    destruct (IH (appendElement p e)) as [l El].
    destruct (appendElement_tail p e) as [front [Ef _]].
    exists (front ++ l). rewrite El, Ef, app_assoc. reflexivity.
Qed.

Lemma bounds_appendElements es : forall p,
  boundsInvariant p -> noNaN (data (appendElements p es)) ->
  boundsInvariant (appendElements p es).
Proof.
  induction es as [|e es IH]; intros p Hp Hn; [exact Hp|].
  cbn [appendElements fold_left] in *. fold (appendElements (appendElement p e) es) in *.
  apply IH; [|exact Hn].
  apply bounds_appendElement; [exact Hp|].
  destruct (appendElements_grows es (appendElement p e)) as [l El].
  rewrite El in Hn. apply noNaN_app in Hn. apply Hn.
Qed.

Lemma rectangleEdges_ordered x y w h ex1 ey1 ex2 ey2 :
  rectangleEdges x y w h = (ex1, ey1, ex2, ey2) ->
  F32.isNaN ex1 = false -> F32.isNaN ex2 = false ->
  F32.isNaN ey1 = false -> F32.isNaN ey2 = false ->
  F32.leb ex1 ex2 = true /\ F32.leb ey1 ey2 = true.
Proof.
  unfold rectangleEdges. intros E Nx1 Nx2 Ny1 Ny2.
  destruct (F32.ltb w F32.zero) eqn:Ew; destruct (F32.ltb h F32.zero) eqn:Eh;
    cbn [swapVariables fst snd] in E; injection E as <- <- <- <-; split;
    first [ apply add_neg_le; assumption | apply add_nonneg_ge; assumption ].
Qed.

Lemma rectangle_min_max a b :
  F32.leb a b = true ->
  isMinOf a [a; a; b; b] /\ isMaxOf b [a; a; b; b]
  /\ isMinOf a [b; a; a; b] /\ isMaxOf b [b; a; a; b].
Proof.
  intros H. destruct (leb_notNaN _ _ H) as [Na Nb].
  pose proof (leb_refl a Na) as Ra. pose proof (leb_refl b Nb) as Rb.
  unfold isMinOf, isMaxOf. repeat split; cbn [In]; auto 6;
    repeat (constructor; try assumption).
Qed.

Lemma bounds_addRectangle p x y w h :
  boundsInvariant p -> noNaN (data (addRectangle p x y w h)) ->
  boundsInvariant (addRectangle p x y w h).
Proof.
  intros [es [Hd [Hb He]]] Hn.
  destruct (rectangleEdges x y w h) as [[[ex1 ey1] ex2] ey2] eqn:E.
  rewrite addRectangle_data, E in Hn. cbn [rectangleRecords streamData flat_map elementData app] in Hn.
  coords_notNaN Hn.
  destruct (rectangleEdges_ordered x y w h ex1 ey1 ex2 ey2 E) as [Ox Oy]; try assumption.
  destruct (rectangle_min_max ex1 ex2 Ox) as [X1 [X2 _]].
  destruct (rectangle_min_max ey1 ey2 Oy) as [_ [_ [Y1 Y2]]].
  exists (es ++ rectangleRecords ex1 ey1 ex2 ey2). split; [|split].
  - rewrite addRectangle_data, E, Hd, streamData_app. reflexivity.
  - destruct es; [reflexivity|exact Hb].
  - rewrite boundsExact_nonempty by (destruct es; discriminate).
    rewrite !flat_map_app. cbn [rectangleRecords flat_map xCoords yCoords app].
    assert (EB : pathXMin (addRectangle p x y w h)
                 = (if numElements p =? 0 then ex1 else jmin (pathXMin p) ex1)
                 /\ pathXMax (addRectangle p x y w h)
                    = (if numElements p =? 0 then ex2 else jmax (pathXMax p) ex2)
                 /\ pathYMin (addRectangle p x y w h)
                    = (if numElements p =? 0 then ey1 else jmin (pathYMin p) ey1)
                 /\ pathYMax (addRectangle p x y w h)
                    = (if numElements p =? 0 then ey2 else jmax (pathYMax p) ey2)).
    { unfold rectangleEdges in E. unfold addRectangle.
      destruct (F32.ltb w F32.zero), (F32.ltb h F32.zero);
        cbn [swapVariables fst snd] in *; injection E as <- <- <- <-; repeat split. }
    destruct EB as [E1 [E2 [E3 E4]]]. rewrite E1, E2, E3, E4.
    destruct es as [|e0 es0].
    + replace (numElements p =? 0) with true by (symmetry; apply numElements_zero; exact Hd).
      cbn [flat_map app]. repeat split; try apply X1; try apply X2; try apply Y1; try apply Y2.
    + rewrite numElements_zero_false by (rewrite Hd; apply streamData_nonempty; discriminate).
      rewrite boundsExact_nonempty in He by discriminate.
      destruct He as [H1 [H2 [H3 H4]]].
      split; [|split; [|split]];
        first [ apply isMinOf_merge; assumption | apply isMaxOf_merge; assumption ].
Qed.

Lemma bounds_new : boundsInvariant Path_new.
Proof. exists []. repeat split. Qed.

Lemma built_boundsInvariant p : built p -> noNaN (data p) -> boundsInvariant p.
Proof.
  induction 1 as [|p c Hb IH|p other q Hp IHp Ho _ Ha|p b _ IH]; intros Hn.
  - apply bounds_new.
  - destruct (isAddRectangle c) eqn:Ec.
    + destruct c; try discriminate Ec. cbn [applyCall] in *.
      apply bounds_addRectangle; [|exact Hn]. apply IH.
      rewrite addRectangle_data in Hn. apply noNaN_app in Hn. apply Hn.
    + rewrite applyCall_elements in * by exact Ec.
      apply bounds_appendElements; [|exact Hn]. apply IH.
      destruct (appendElements_grows (callElements c) p) as [l El].
      rewrite El in Hn. apply noNaN_app in Hn. apply Hn.
  - destruct (addPath_elements p other q (built_wellFormed other Ho) Ha) as [es [_ ->]].
    apply bounds_appendElements; [|exact Hn]. apply IHp.
    destruct (appendElements_grows es p) as [l El].
    rewrite El in Hn. apply noNaN_app in Hn. apply Hn.
  - destruct (IH Hn) as [es [Hd [Hm He]]]. exists es.
    split; [exact Hd|split; [exact Hm|]].
    destruct es; exact He.
Qed.

(** C2: after any sequence of builder calls applied to the empty path,
    with no NaN among the floats stored, the bounding box is all zero
    while the path has no records, and otherwise [pathXMin] and
    [pathXMax] are the least and the greatest of the x coordinates of
    the records in the store (control points, end points and the move
    records that were prepended implicitly), and [pathYMin] and
    [pathYMax] those of the y coordinates.  The first point seeds the
    box: the zero of the empty box is not among the values folded. *)
Theorem bounding_box_is_exact : forall p,
  built p -> noNaN (data p) ->
  exists es, records (data p) = Some es /\ boundsExact p es.
Proof.
  intros p Hb Hn. destruct (built_boundsInvariant p Hb Hn) as [es [Hd [_ He]]].
  exists es. split; [|exact He]. rewrite Hd. apply records_streamData.
Qed.


Lemma noNaN_forallb l : forallb (fun c => negb (F32.isNaN c)) l = true -> noNaN l.
Proof.
  intros H. apply Forall_forall. intros c Hc.
  rewrite forallb_forall in H. apply negb_true_iff, H, Hc.
Qed.

Lemma bounding_box_is_exact_witness :
  exists es,
    records (data (applyCall (applyCall (applyCall Path_new
                     (CallStartNewSubPath (F32.ofZ 5) (F32.ofZ 7)))
                     (CallAddRectangle (F32.ofZ 10) (F32.ofZ 10) (F32.ofZ (-5)) (F32.ofZ (-5))))
                     (CallCubicTo (F32.ofZ (-3)) F32.one F32.half (F32.ofZ 40)
                                  (F32.ofZ 6) (F32.ofZ 6))))
    = Some es
    /\ boundsExact (applyCall (applyCall (applyCall Path_new
                     (CallStartNewSubPath (F32.ofZ 5) (F32.ofZ 7)))
                     (CallAddRectangle (F32.ofZ 10) (F32.ofZ 10) (F32.ofZ (-5)) (F32.ofZ (-5))))
                     (CallCubicTo (F32.ofZ (-3)) F32.one F32.half (F32.ofZ 40)
                                  (F32.ofZ 6) (F32.ofZ 6)))
                   es.
Proof.
  refine (bounding_box_is_exact _ _ _).
  - apply built_call, built_call, built_call, built_new.
  - apply noNaN_forallb. vm_compute. reflexivity.
Defined.

(** ** Termination of the reading loop *)

Lemma readFloat_length source :
  (length (snd (readFloat source)) <= length source)%nat.
Proof.
  destruct source as [|a [|b [|c [|d rest]]]]; cbn [readFloat snd length]; lia.
Qed.

(** The bounded model of the loop of [loadPathFromStream] never gives
    up: every turn consumes at least one byte. *)
Lemma loadPathFromStreamLoop_total fuel : forall source p,
  (length source < fuel)%nat -> loadPathFromStreamLoop fuel source p <> None.
Proof.
  induction fuel as [|fuel IH]; intros source p Hf; [lia|].
  cbn [loadPathFromStreamLoop].
  destruct source as [|c source]; [discriminate|].
  cbn [isExhausted readByte length] in *.
  repeat match goal with
  | |- context [readFloat ?s] =>
      let H := fresh "L" in
      pose proof (readFloat_length s) as H;
      destruct (readFloat s); cbn [snd] in H
  end.
  repeat match goal with
  | |- (if ?b then _ else _) <> None => destruct b
  end; try discriminate; apply IH; lia.
Qed.

Lemma loadPathFromStream_total p source : loadPathFromStream p source <> None.
Proof. apply loadPathFromStreamLoop_total. lia. Qed.

(** ** The model on the examples of the specification *)

(** The markers and the literals are the expected bit patterns. *)
Example marker_bits :
  map F32.bitsOf [lineMarker; moveMarker; quadMarker; cubicMarker; closeSubPathMarker]
  = [0x47C35080; 0x47C35100; 0x47C35180; 0x47C35200; 0x47C35280]
  /\ map F32.bitsOf [F32.zero; F32.one; F32.half; F32.minusHalf; f045; f055]
     = [0; 0x3F800000; 0x3F000000; 0xBF000000; 0x3EE66666; 0x3F0CCCCD].
Proof. split; reflexivity. Qed.

(** [addRectangle (0, 0, 10, 5)]: five records, the box (0, 10, 0, 5),
    and a path that is not empty. *)
Example rectangle_records :
  let p := addRectangle Path_new F32.zero F32.zero (F32.ofZ 10) (F32.ofZ 5) in
  records (data p)
  = Some [startNewSubPathElement F32.zero (F32.ofZ 5);
          lineToElement F32.zero F32.zero;
          lineToElement (F32.ofZ 10) F32.zero;
          lineToElement (F32.ofZ 10) (F32.ofZ 5);
          closePathElement]
  /\ (pathXMin p, pathXMax p, pathYMin p, pathYMax p)
     = (F32.zero, F32.ofZ 10, F32.zero, F32.ofZ 5)
  /\ isEmpty p = false
  /\ isEmpty (startNewSubPath Path_new F32.one F32.one) = true.
Proof. cbv zeta. repeat split; vm_compute; reflexivity. Qed.

(** With the four edges of that rectangle as the flattened path,
    (5, 2.5) is inside and (-1, 2.5) is outside. *)
Example rectangle_contains :
  let p := addRectangle Path_new F32.zero F32.zero (F32.ofZ 10) (F32.ofZ 5) in
  let ten := F32.ofZ 10 in
  let five := F32.ofZ 5 in
  let edges := fun (_ : Path) (_ : AffineTransform) (_ : float) =>
                 [mkLineSegment F32.zero five F32.zero F32.zero;
                  mkLineSegment F32.zero F32.zero ten F32.zero;
                  mkLineSegment ten F32.zero ten five;
                  mkLineSegment ten five F32.zero five] in
  contains edges p five (F32.div five (F32.ofZ 2)) F32.one = true
  /\ contains edges p (F32.ofZ (-1)) (F32.div five (F32.ofZ 2)) F32.one = false.
Proof. cbv zeta. split; vm_compute; reflexivity. Qed.

(** Bounds (0, 0, 10, 20) fitted into (0, 0, 100, 100), proportions
    kept, centred: the uniform scale 5 and the offset 25 that centres
    the result horizontally. *)
Example scaleToFit_proportional :
  getTransformToScaleToFit
    (addRectangle Path_new F32.zero F32.zero (F32.ofZ 10) (F32.ofZ 20))
    F32.zero F32.zero (F32.ofZ 100) (F32.ofZ 100) true
    (mkJustification Justification_centred)
  = mkAffineTransform (F32.ofZ 5) F32.zero (F32.ofZ 25) F32.zero (F32.ofZ 5) F32.zero.
Proof. vm_compute. reflexivity. Qed.

(** * Further properties of the member functions *)

Lemma marker_mc : F32.eqb moveMarker closeSubPathMarker = false. Proof. reflexivity. Qed.
Lemma marker_lc : F32.eqb lineMarker closeSubPathMarker = false. Proof. reflexivity. Qed.
Lemma marker_qc : F32.eqb quadMarker closeSubPathMarker = false. Proof. reflexivity. Qed.
Lemma marker_bc : F32.eqb cubicMarker closeSubPathMarker = false. Proof. reflexivity. Qed.

#[local] Hint Rewrite marker_mc marker_lc marker_qc marker_bc : markers.

(** ** [isEmpty] *)

Lemma isEmptyFrom_streamData es :
  isEmptyFrom (streamData es) = forallb drawsNothing es.
Proof.
  induction es as [|e es IH]; [reflexivity|].
  rewrite streamData_cons.
  destruct e; cbn [elementData app forallb drawsNothing isMove isClose orb andb];
    step_markers isEmptyFrom; cbn [orb]; try reflexivity; exact IH.
Qed.

(** X1. [isEmpty] on a reachable path is true exactly when none of its
    records is a line, a quadratic or a cubic: moves and closes alone
    leave the path empty. *)
Theorem isEmpty_iff_no_segment : forall p,
  reachable p ->
  exists es, records (data p) = Some es /\ isEmpty p = forallb drawsNothing es.
Proof.
  intros p H. destruct (reachable_wellFormed p H) as [es [Hd _]]. exists es.
  split; [rewrite Hd; apply records_streamData|].
  unfold isEmpty. rewrite Hd. apply isEmptyFrom_streamData.
Qed.

Lemma isEmpty_iff_no_segment_witness :
  exists es,
    records (data (closeSubPath (startNewSubPath Path_new F32.one F32.half))) = Some es
    /\ isEmpty (closeSubPath (startNewSubPath Path_new F32.one F32.half))
       = forallb drawsNothing es.
Proof.
  apply (isEmpty_iff_no_segment (closeSubPath (startNewSubPath Path_new F32.one F32.half))).
  apply (reach_call _ CallCloseSubPath).
  apply (reach_call _ (CallStartNewSubPath F32.one F32.half)).
  apply reach_new.
Defined.

(** ** [addPath] *)

Lemma appendElement_keeps p e :
  useNonZeroWinding (appendElement p e) = useNonZeroWinding p
  /\ exists l, data (appendElement p e) = data p ++ l.
Proof.
  split; [apply useNonZeroWinding_appendElement|].
  destruct (appendElement_tail p e) as [front [E _]]. exists front. exact E.
Qed.

Lemma keeps_trans (p q r : Path) :
  useNonZeroWinding q = useNonZeroWinding p /\ (exists l, data q = data p ++ l) ->
  useNonZeroWinding r = useNonZeroWinding q /\ (exists l, data r = data q ++ l) ->
  useNonZeroWinding r = useNonZeroWinding p /\ (exists l, data r = data p ++ l).
Proof.
  intros [W1 [l1 D1]] [W2 [l2 D2]]. split; [congruence|].
  exists (l1 ++ l2). rewrite D2, D1, app_assoc. reflexivity.
Qed.

Lemma addPathFrom_keeps l : forall p q,
  addPathFrom p l = Some q ->
  useNonZeroWinding q = useNonZeroWinding p /\ exists t, data q = data p ++ t.
Proof.
  induction l as [l IH] using list_length_ind. intros p q H.
  destruct l as [|type rest]; cbn [addPathFrom] in H.
  - injection H as <-. split; [reflexivity|]. exists []. now rewrite app_nil_r.
  - destruct (F32.eqb type moveMarker).
    { destruct rest as [|x [|y rest']]; try discriminate H.
      apply IH in H; [|cbn; lia].
      exact (keeps_trans _ _ _ (appendElement_keeps p (startNewSubPathElement x y)) H). }
    destruct (F32.eqb type lineMarker).
    { destruct rest as [|x [|y rest']]; try discriminate H.
      apply IH in H; [|cbn; lia].
      exact (keeps_trans _ _ _ (appendElement_keeps p (lineToElement x y)) H). }
    destruct (F32.eqb type quadMarker).
    { destruct rest as [|a1 [|b1 [|a2 [|b2 rest']]]]; try discriminate H.
      apply IH in H; [|cbn; lia].
      exact (keeps_trans _ _ _
               (appendElement_keeps p (quadraticToElement a1 b1 a2 b2)) H). }
    destruct (F32.eqb type cubicMarker).
    { destruct rest as [|a1 [|b1 [|a2 [|b2 [|a3 [|b3 rest']]]]]]; try discriminate H.
      apply IH in H; [|cbn; lia].
      exact (keeps_trans _ _ _
               (appendElement_keeps p (cubicToElement a1 b1 a2 b2 a3 b3)) H). }
    destruct (F32.eqb type closeSubPathMarker).
    { apply IH in H; [|cbn; lia].
      exact (keeps_trans _ _ _ (appendElement_keeps p closePathElement) H). }
    apply IH in H; [exact H|cbn; lia].
Qed.

(** X2. [addPath] only appends: whatever floats the other path holds,
    every float of the receiver stays where it was, and the winding flag
    of the receiver is kept (that of the other path is not taken over). *)
Theorem addPath_appends_and_keeps_winding : forall p other q,
  addPath p other = Some q ->
  useNonZeroWinding q = useNonZeroWinding p /\ exists l, data q = data p ++ l.
Proof. intros p other q H. exact (addPathFrom_keeps (data other) p q H). Qed.

Lemma addPath_appends_and_keeps_winding_witness :
  useNonZeroWinding
    (lineTo (startNewSubPath (lineTo (setUsingNonZeroWinding Path_new false)
                                     F32.one F32.one) F32.half F32.half)
            F32.one F32.zero)
  = useNonZeroWinding (lineTo (setUsingNonZeroWinding Path_new false) F32.one F32.one)
  /\ exists l,
       data (lineTo (startNewSubPath (lineTo (setUsingNonZeroWinding Path_new false)
                                             F32.one F32.one) F32.half F32.half)
                    F32.one F32.zero)
       = data (lineTo (setUsingNonZeroWinding Path_new false) F32.one F32.one) ++ l.
Proof.
  apply (addPath_appends_and_keeps_winding
           (lineTo (setUsingNonZeroWinding Path_new false) F32.one F32.one)
           (lineTo (startNewSubPath Path_new F32.half F32.half) F32.one F32.zero)).
  vm_compute. reflexivity.
Defined.

(** Replaying records that begin with a move and hold no close directly
    after a close or after a coordinate with the close marker's value
    appends them as they are. *)
Lemma fold_appendRecord_after es : forall a acc,
  noConsecutiveClose (a :: es) = true ->
  noCloseAfterCloseValue (a :: es) = true ->
  fold_left appendRecord es (acc ++ [a]) = acc ++ a :: es.
Proof.
  induction es as [|e es IH]; intros a acc Hn Hc; [reflexivity|].
  cbn [fold_left].
  assert (E : appendRecord (acc ++ [a]) e = (acc ++ [a]) ++ [e]).
  { destruct (acc ++ [a]) as [|b l] eqn:Eb; [destruct acc; discriminate Eb|].
    destruct e; try reflexivity. cbn [appendRecord]. rewrite <- Eb.
    unfold noConsecutiveClose, noCloseAfterCloseValue in Hn, Hc.
    cbn [allAdjacent] in Hn, Hc.
    apply andb_true_iff in Hn, Hc. destruct Hn as [Hn _], Hc as [Hc _].
    cbn [isClose] in Hn, Hc. rewrite andb_true_r in Hn, Hc.
    apply negb_true_iff in Hn, Hc.
    unfold lastCoordIsCloseValue in Hc. rewrite Hn in Hc. cbn [negb andb] in Hc.
    rewrite last_streamData_snoc. unfold F32.neqb. rewrite Hc. reflexivity. }
  rewrite E, <- app_assoc. cbn [app].
  replace (acc ++ [a; e]) with ((acc ++ [a]) ++ [e]) by now rewrite <- app_assoc.
  rewrite IH.
  - rewrite <- app_assoc. reflexivity.
  - apply allAdjacent_tail in Hn. exact Hn.
  - apply allAdjacent_tail in Hc. exact Hc.
Qed.

Lemma fold_appendRecord_move es acc :
  beginsWithMove es = true ->
  noConsecutiveClose es = true ->
  noCloseAfterCloseValue es = true ->
  fold_left appendRecord es acc = acc ++ es.
Proof.
  intros Hb Hn Hc. destruct es as [|e es]; [now rewrite app_nil_r|].
  destruct e; try discriminate Hb. cbn [fold_left appendRecord].
  apply fold_appendRecord_after; assumption.
Qed.

(** X3. [addPath] copies: when no close record of the other path
    directly follows a coordinate with the close marker's value, the
    floats of the other path are appended to those of the receiver
    unchanged, whatever the receiver holds. *)
Theorem addPath_appends_the_other_path : forall p other,
  reachable p -> reachable other -> closesFollowOtherValues other = true ->
  exists q, addPath p other = Some q /\ data q = data p ++ data other.
Proof.
  intros p other Hp Ho Hc.
  destruct (reachable_wellFormed p Hp) as [acc [Hd _]].
  destruct (reachable_wellFormed other Ho) as [es [He [Hb Hn]]].
  unfold closesFollowOtherValues in Hc. rewrite He, records_streamData in Hc.
  exists (appendElements p es). split.
  - unfold addPath. rewrite He. apply addPathFrom_streamData.
  - rewrite (data_appendElements es p acc Hd).
    rewrite fold_appendRecord_move by assumption.
    rewrite streamData_app, Hd, He. reflexivity.
Qed.

Lemma addPath_appends_the_other_path_witness :
  exists q,
    addPath (addRectangle Path_new F32.zero F32.zero F32.one (F32.ofZ 100005))
            (addTriangle Path_new F32.zero F32.zero F32.one F32.zero F32.half F32.one)
    = Some q
    /\ data q
       = data (addRectangle Path_new F32.zero F32.zero F32.one (F32.ofZ 100005))
         ++ data (addTriangle Path_new F32.zero F32.zero F32.one F32.zero F32.half F32.one).
Proof.
  apply (addPath_appends_the_other_path
           (addRectangle Path_new F32.zero F32.zero F32.one (F32.ofZ 100005))
           (addTriangle Path_new F32.zero F32.zero F32.one F32.zero F32.half F32.one)).
  - apply (reach_call _ (CallAddRectangle F32.zero F32.zero F32.one (F32.ofZ 100005))).
    apply reach_new.
  - apply (reach_call _ (CallAddTriangle F32.zero F32.zero F32.one F32.zero F32.half F32.one)).
    apply reach_new.
  - vm_compute. reflexivity.
Defined.

(** ** [addPath] with a transform, and [applyTransform] *)

Ltac split_transformPoint :=
  repeat match goal with
  | |- context [transformPoint ?t ?x ?y] => destruct (transformPoint t x y)
  end.

Lemma addPathTransformedFrom_streamData t es : forall p,
  addPathTransformedFrom t p (streamData es)
  = Some (appendElements p (map (transformElement t) es)).
Proof.
  induction es as [|e es IH]; intros p; [reflexivity|].
  rewrite streamData_cons.
  destruct e; cbn [elementData app map transformElement];
    step_markers addPathTransformedFrom; split_transformPoint;
    autorewrite with markers; cbv beta iota; rewrite IH; reflexivity.
Qed.

(** X4. [addPath (other, transform)] gives the path that results from
    transforming a copy of the other path with [applyTransform] and
    adding the copy with [addPath (other)]. *)
Theorem addPath_with_transform_is_transform_then_addPath : forall p other t,
  reachable other ->
  exists copy q,
    applyTransform other t = Some copy
    /\ addPath p copy = Some q
    /\ addPathTransformed p other t = Some q.
Proof.
  intros p other t Ho.
  destruct (reachable_wellFormed other Ho) as [es [Hd _]].
  destruct (applyTransformFrom_streamData t es
              (mkBounds F32.zero F32.zero F32.zero F32.zero) false) as [b' E].
  eexists. exists (appendElements p (map (transformElement t) es)). split; [|split].
  - unfold applyTransform. rewrite Hd, E. reflexivity.
  - unfold addPath. cbn [data fst]. apply addPathFrom_streamData.
  - unfold addPathTransformed. rewrite Hd. apply addPathTransformedFrom_streamData.
Qed.

Lemma addPath_with_transform_is_transform_then_addPath_witness :
  exists copy q,
    applyTransform (addTriangle Path_new F32.zero F32.zero F32.one F32.zero F32.half F32.one)
                   (AffineTransform_translation F32.one F32.half) = Some copy
    /\ addPath (startNewSubPath Path_new F32.one F32.one) copy = Some q
    /\ addPathTransformed
         (startNewSubPath Path_new F32.one F32.one)
         (addTriangle Path_new F32.zero F32.zero F32.one F32.zero F32.half F32.one)
         (AffineTransform_translation F32.one F32.half) = Some q.
Proof.
  apply (addPath_with_transform_is_transform_then_addPath
           (startNewSubPath Path_new F32.one F32.one)
           (addTriangle Path_new F32.zero F32.zero F32.one F32.zero F32.half F32.one)
           (AffineTransform_translation F32.one F32.half)).
  apply (reach_call _ (CallAddTriangle F32.zero F32.zero F32.one F32.zero F32.half F32.one)).
  apply reach_new.
Defined.

(** X5. [applyTransform] succeeds on every reachable path and keeps its
    structure: the transformed path holds the same records in the same
    order, each with its points transformed, and the same winding flag;
    close records are left as they are. *)
Theorem applyTransform_maps_the_records : forall p t,
  reachable p ->
  exists q es,
    applyTransform p t = Some q
    /\ records (data p) = Some es
    /\ records (data q) = Some (map (transformElement t) es)
    /\ useNonZeroWinding q = useNonZeroWinding p.
Proof.
  intros p t Hp.
  destruct (reachable_wellFormed p Hp) as [es [Hd _]].
  destruct (applyTransformFrom_streamData t es
              (mkBounds F32.zero F32.zero F32.zero F32.zero) false) as [b' E].
  eexists. exists es. split; [|split; [|split]].
  - unfold applyTransform. rewrite Hd, E. reflexivity.
  - rewrite Hd. apply records_streamData.
  - cbn [data fst]. apply records_streamData.
  - reflexivity.
Qed.

Lemma applyTransform_maps_the_records_witness :
  exists q es,
    applyTransform (addRectangle (setUsingNonZeroWinding Path_new false)
                                 F32.zero F32.zero F32.one F32.one)
                   (AffineTransform_translation F32.one F32.half) = Some q
    /\ records (data (addRectangle (setUsingNonZeroWinding Path_new false)
                                   F32.zero F32.zero F32.one F32.one)) = Some es
    /\ records (data q)
       = Some (map (transformElement (AffineTransform_translation F32.one F32.half)) es)
    /\ useNonZeroWinding q
       = useNonZeroWinding (addRectangle (setUsingNonZeroWinding Path_new false)
                                         F32.zero F32.zero F32.one F32.one).
Proof.
  apply (applyTransform_maps_the_records
           (addRectangle (setUsingNonZeroWinding Path_new false)
                         F32.zero F32.zero F32.one F32.one)
           (AffineTransform_translation F32.one F32.half)).
  apply (reach_call _ (CallAddRectangle F32.zero F32.zero F32.one F32.one)).
  apply reach_winding, reach_new.
Defined.

(** ** The bounds that [applyTransform] recomputes *)

Lemma streamData_inj es es' : streamData es = streamData es' -> es = es'.
Proof.
  intros H. apply (f_equal records) in H. rewrite !records_streamData in H.
  now injection H.
Qed.

(** The records [pre] begin with a move, and [b] is their exact box. *)
Lemma exact_step pre b e b1 :
  beginsWithMove pre = true /\ boundsExact (withBounds pre b) pre ->
  noNaN (streamData (pre ++ [e])) ->
  appendElement (withBounds pre b) e = withBounds (pre ++ [e]) b1 ->
  beginsWithMove (pre ++ [e]) = true
  /\ boundsExact (withBounds (pre ++ [e]) b1) (pre ++ [e]).
Proof.
  intros [Hb He] Hn Ea.
  assert (Hi : boundsInvariant (withBounds pre b)).
  { exists pre. split; [reflexivity|split; assumption]. }
  apply (bounds_appendElement _ e) in Hi; [|rewrite Ea; exact Hn].
  rewrite Ea in Hi. destruct Hi as [es2 [Hd2 [Hb2 He2]]].
  cbn [withBounds data] in Hd2. apply streamData_inj in Hd2. subst es2.
  split; assumption.
Qed.

Lemma exact_close pre b :
  pre <> [] ->
  beginsWithMove pre = true /\ boundsExact (withBounds pre b) pre ->
  beginsWithMove (pre ++ [closePathElement]) = true
  /\ boundsExact (withBounds (pre ++ [closePathElement]) b) (pre ++ [closePathElement]).
Proof.
  intros Hne [Hb He]. split.
  - rewrite beginsWithMove_app by exact Hne. exact Hb.
  - rewrite boundsExact_nonempty by apply snoc_nonempty.
    rewrite boundsExact_nonempty in He by exact Hne.
    rewrite !flat_map_snoc. cbn [xCoords yCoords]. rewrite !app_nil_r. exact He.
Qed.

Lemma cons_app_snoc {A : Type} (l : list A) a l' : l ++ a :: l' = (l ++ [a]) ++ l'.
Proof. rewrite <- app_assoc. reflexivity. Qed.

Ltac step_markers_in f H :=
  unfold f at 1 in H; fold f in H; autorewrite with markers in H; cbv beta iota in H.

Ltac same_path :=
  cbn [foldPoint bXMin bXMax bYMin bYMax streamData flat_map elementData app
       data pathXMin pathXMax pathYMin pathYMax useNonZeroWinding
       numElements length Z.of_nat Z.eqb];
  reflexivity.

Lemma withBounds_nonempty pre b :
  pre <> [] -> (numElements (withBounds pre b) =? 0) = false.
Proof. intros H. apply numElements_zero_false. apply streamData_nonempty, H. Qed.

Lemma noNaN_front pre e es :
  noNaN (streamData pre) -> noNaN (streamData (e :: es)) ->
  noNaN (streamData (pre ++ [e])) /\ noNaN (streamData es).
Proof.
  intros Hp He. rewrite streamData_cons in He. apply noNaN_app in He.
  destruct He as [He Hes]. split; [|exact Hes].
  rewrite streamData_app. apply Forall_app. split; [exact Hp|].
  cbn [streamData flat_map]. rewrite app_nil_r. exact He.
Qed.

Lemma applyTransformFrom_exact t es : forall pre b s l' b',
  applyTransformFrom t (streamData es) b s = Some (l', b') ->
  noNaN (streamData pre) ->
  noNaN (streamData (map (transformElement t) es)) ->
  beginsWithMove pre = true /\ boundsExact (withBounds pre b) pre ->
  (if s then pre <> [] else pre = [] /\ beginsWithMove es = true) ->
  beginsWithMove (pre ++ map (transformElement t) es) = true
  /\ boundsExact (withBounds (pre ++ map (transformElement t) es) b')
                 (pre ++ map (transformElement t) es).
Proof.
  induction es as [|e es IH]; intros pre b s l' b' H Hp Hn Hex Hs.
  - cbn in H. injection H as <- <-. cbn [map]. rewrite app_nil_r. exact Hex.
  - rewrite streamData_cons in H.
    destruct e; cbn [elementData app map transformElement] in *;
      step_markers_in applyTransformFrom H.
    all: repeat match type of H with
         | context [transformPoint ?t ?x ?y] => destruct (transformPoint t x y)
         end.
    all: cbv beta iota in H.
    all: match type of H with
         | context [applyTransformFrom ?t0 ?l0 ?b0 ?s0] =>
             destruct (applyTransformFrom t0 l0 b0 s0) as [[l1 bb]|] eqn:E;
             [|discriminate H]
         end;
         cbn [option_map fst snd] in H; injection H as <- <-;
         destruct (noNaN_front _ _ _ Hp Hn) as [Hn1 Hn2];
         rewrite (cons_app_snoc pre).
    + (* move *)
      apply (IH _ _ _ _ _ E); [exact Hn1|exact Hn2| |apply snoc_nonempty].
      apply (exact_step pre b); [exact Hex|exact Hn1|].
      destruct s.
      * unfold appendElement, startNewSubPath.
        rewrite withBounds_nonempty by exact Hs.
        unfold withBounds. cbn [data pathXMin pathXMax pathYMin pathYMax useNonZeroWinding].
        rewrite streamData_app. same_path.
      * destruct Hs as [-> _]. unfold appendElement, startNewSubPath, withBounds.
        same_path.
    + (* line *)
      destruct s; [|destruct Hs as [_ Hs]; discriminate Hs].
      apply (IH _ _ _ _ _ E); [exact Hn1|exact Hn2| |apply snoc_nonempty].
      apply (exact_step pre b); [exact Hex|exact Hn1|].
      unfold appendElement, lineTo. rewrite withBounds_nonempty by exact Hs.
      unfold withBounds. cbn [data pathXMin pathXMax pathYMin pathYMax useNonZeroWinding].
      rewrite streamData_app. same_path.
    + (* quadratic *)
      destruct s; [|destruct Hs as [_ Hs]; discriminate Hs].
      apply (IH _ _ _ _ _ E); [exact Hn1|exact Hn2| |apply snoc_nonempty].
      apply (exact_step pre b); [exact Hex|exact Hn1|].
      unfold appendElement, quadraticTo. rewrite withBounds_nonempty by exact Hs.
      unfold withBounds. cbn [data pathXMin pathXMax pathYMin pathYMax useNonZeroWinding].
      rewrite streamData_app. same_path.
    + (* cubic *)
      destruct s; [|destruct Hs as [_ Hs]; discriminate Hs].
      apply (IH _ _ _ _ _ E); [exact Hn1|exact Hn2| |apply snoc_nonempty].
      apply (exact_step pre b); [exact Hex|exact Hn1|].
      unfold appendElement, cubicTo. rewrite withBounds_nonempty by exact Hs.
      unfold withBounds. cbn [data pathXMin pathXMax pathYMin pathYMax useNonZeroWinding].
      rewrite streamData_app. same_path.
    + (* close *)
      destruct s; [|destruct Hs as [_ Hs]; discriminate Hs].
      apply (IH _ _ _ _ _ E); [exact Hn1|exact Hn2| |apply snoc_nonempty].
      apply exact_close; assumption.
Qed.

Lemma applyTransform_boundsInvariant p t q :
  wellFormed p -> applyTransform p t = Some q -> noNaN (data q) -> boundsInvariant q.
Proof.
  intros [es [Hd [Hb _]]] H Hn.
  unfold applyTransform in H. rewrite Hd in H.
  destruct (applyTransformFrom_streamData t es
              (mkBounds F32.zero F32.zero F32.zero F32.zero) false) as [b' E].
  rewrite E in H. cbn [option_map fst snd] in H. injection H as <-.
  cbn [data] in Hn.
  exists (map (transformElement t) es). split; [reflexivity|].
  destruct (applyTransformFrom_exact t es [] _ false _ b' E) as [Hm Hex].
  - constructor.
  - exact Hn.
  - split; [reflexivity|]. cbn. repeat split.
  - split; [reflexivity|exact Hb].
  - cbn [app] in Hm, Hex. split; [exact Hm|].
    destruct (map (transformElement t) es); exact Hex.
Qed.

Lemma boundsInvariant_setUsingNonZeroWinding p isNonZero :
  boundsInvariant p -> boundsInvariant (setUsingNonZeroWinding p isNonZero).
Proof.
  intros [es [Hd [Hm He]]]. exists es.
  split; [exact Hd|split; [exact Hm|]]. destruct es; exact He.
Qed.

(** ** The binary stream *)

Lemma keeps_refl (p : Path) :
  useNonZeroWinding p = useNonZeroWinding p /\ (exists l, data p = data p ++ l).
Proof. split; [reflexivity|]. exists []. now rewrite app_nil_r. Qed.

Lemma appends_trans (p q r : Path) :
  (exists l, data q = data p ++ l) -> (exists l, data r = data q ++ l) ->
  exists l, data r = data p ++ l.
Proof.
  intros [l1 D1] [l2 D2]. exists (l1 ++ l2). rewrite D2, D1, app_assoc. reflexivity.
Qed.

Lemma loadPathFromStreamLoop_appends fuel : forall source p q,
  loadPathFromStreamLoop fuel source p = Some q -> exists l, data q = data p ++ l.
Proof.
  induction fuel as [|fuel IH]; intros source p q H; [discriminate H|].
  cbn [loadPathFromStreamLoop] in H.
  destruct (isExhausted source); [injection H as <-; apply keeps_refl|].
  destruct (readByte source) as [c source1].
  repeat match type of H with
  | context [readFloat ?s] => destruct (readFloat s)
  end.
  repeat match type of H with
  | (if ?b then _ else _) = _ => destruct b
  end;
  try (injection H as <-; apply keeps_refl);
  apply IH in H; refine (appends_trans _ _ _ _ H);
  first [ apply (appendElement_keeps p (startNewSubPathElement _ _))
        | apply (appendElement_keeps p (lineToElement _ _))
        | apply (appendElement_keeps p (quadraticToElement _ _ _ _))
        | apply (appendElement_keeps p (cubicToElement _ _ _ _ _ _))
        | apply (appendElement_keeps p closePathElement)
        | exact (proj2 (keeps_refl p)) ].
Qed.

(** X7. [loadPathFromStream] returns for every sequence of bytes, and it
    adds to the receiver: the floats that the receiver held before stay
    in front, whatever the bytes are. *)
Theorem loadPathFromStream_returns_and_appends : forall p source,
  exists q l, loadPathFromStream p source = Some q /\ data q = data p ++ l.
Proof.
  intros p source.
  destruct (loadPathFromStream p source) as [q|] eqn:E.
  - destruct (loadPathFromStreamLoop_appends _ _ _ _ E) as [l Hl].
    exists q, l. split; [reflexivity|exact Hl].
  - exfalso. exact (loadPathFromStream_total p source E).
Qed.

(** X8. Reading stops at the end-of-path byte: when the bytes that
    [writePathToStream] emits for a reachable path are followed by any
    other bytes, [loadPathFromStream] gives the same path as for the
    written bytes alone. *)
Theorem loadPathFromStream_stops_at_end_marker : forall p bytes q trailing,
  reachable p -> writePathToStream p [] = Some bytes ->
  loadPathFromStream q (bytes ++ trailing) = loadPathFromStream q bytes.
Proof.
  intros p bytes q trailing Hp Hw.
  destruct (reachable_wellFormed p Hp) as [es [Hd _]].
  unfold writePathToStream in Hw. rewrite Hd, writeElements_streamData in Hw.
  cbn [option_map writeByte app] in Hw. injection Hw as <-.
  pose proof (length_elementBytes es) as Hlen.
  unfold loadPathFromStream.
  cbn [app length]. rewrite <- app_assoc. cbn [app].
  rewrite !loadPathFromStreamLoop_winding.
  change ["e"%byte] with ("e"%byte :: []) at 2.
  rewrite !loadPathFromStreamLoop_elements; [reflexivity| |].
  - rewrite length_app. cbn [length]. lia.
  - rewrite !length_app. cbn [length]. lia.
Qed.

Lemma loadPathFromStream_stops_at_end_marker_witness :
  loadPathFromStream (startNewSubPath Path_new F32.one F32.one)
    (["z"; "m"; x00; x00; x00; x00; x00; x00; x80; x3f;
      "l"; x00; x00; x80; x3f; x00; x00; x00; x3f; "e"] ++ ["l"; "c"])%byte
  = loadPathFromStream (startNewSubPath Path_new F32.one F32.one)
      ["z"; "m"; x00; x00; x00; x00; x00; x00; x80; x3f;
       "l"; x00; x00; x80; x3f; x00; x00; x00; x3f; "e"]%byte.
Proof.
  apply (loadPathFromStream_stops_at_end_marker
           (lineTo (startNewSubPath (setUsingNonZeroWinding Path_new false)
                                    F32.zero F32.one) F32.one F32.half)).
  - apply (reach_call _ (CallLineTo F32.one F32.half)).
    apply (reach_call _ (CallStartNewSubPath F32.zero F32.one)).
    apply reach_winding, reach_new.
  - vm_compute. reflexivity.
Defined.

Lemma floatBytes_inj a b l l' :
  floatBytes a ++ l = floatBytes b ++ l' -> a = b /\ l = l'.
Proof.
  destruct a, b. cbn. intros H. injection H as -> -> -> -> ->. split; reflexivity.
Qed.

Lemma elementBytes_inj es : forall es',
  flat_map elementBytes es ++ ["e"%byte] = flat_map elementBytes es' ++ ["e"%byte] ->
  es = es'.
Proof.
  induction es as [|e es IH]; intros es' H.
  - destruct es' as [|e' es']; [reflexivity|].
    destruct e'; cbn in H; discriminate H.
  - destruct es' as [|e' es']; [destruct e; cbn in H; discriminate H|].
    cbn [flat_map] in H. rewrite <- !app_assoc in H.
    destruct e, e'; cbn [elementBytes app] in H; try discriminate H;
      apply (f_equal (@tl byte)) in H; cbn [tl] in H; rewrite <- ?app_assoc in H;
      repeat match type of H with
      | floatBytes _ ++ _ = floatBytes _ ++ _ =>
          apply floatBytes_inj in H; destruct H as [-> H]
      end;
      apply IH in H; subst; reflexivity.
Qed.

(** X9. The binary format tells paths apart: two reachable paths for
    which [writePathToStream] emits the same bytes hold the same floats
    and have the same winding flag. *)
Theorem writePathToStream_is_injective : forall p p' bytes,
  reachable p -> reachable p' ->
  writePathToStream p [] = Some bytes -> writePathToStream p' [] = Some bytes ->
  data p = data p' /\ useNonZeroWinding p = useNonZeroWinding p'.
Proof.
  intros p p' bytes Hp Hp' Hw Hw'.
  destruct (reachable_wellFormed p Hp) as [es [Hd _]].
  destruct (reachable_wellFormed p' Hp') as [es' [Hd' _]].
  unfold writePathToStream in Hw, Hw'.
  rewrite Hd, writeElements_streamData in Hw.
  rewrite Hd', writeElements_streamData in Hw'.
  cbn [option_map writeByte app] in Hw, Hw'. rewrite <- Hw' in Hw.
  injection Hw as Hflag Hbytes.
  apply elementBytes_inj in Hbytes. subst es'. split; [congruence|].
  destruct (useNonZeroWinding p), (useNonZeroWinding p');
    try reflexivity; discriminate Hflag.
Qed.

Lemma writePathToStream_is_injective_witness :
  data (lineTo Path_new F32.one F32.half)
  = data (lineTo (startNewSubPath Path_new F32.zero F32.zero) F32.one F32.half)
  /\ useNonZeroWinding (lineTo Path_new F32.one F32.half)
     = useNonZeroWinding (lineTo (startNewSubPath Path_new F32.zero F32.zero)
                                 F32.one F32.half).
Proof.
  refine (writePathToStream_is_injective
            (lineTo Path_new F32.one F32.half)
            (lineTo (startNewSubPath Path_new F32.zero F32.zero) F32.one F32.half)
            _ _ _ _ _).
  - apply (reach_call _ (CallLineTo F32.one F32.half)). apply reach_new.
  - apply (reach_call _ (CallLineTo F32.one F32.half)).
    apply (reach_call _ (CallStartNewSubPath F32.zero F32.zero)). apply reach_new.
  - vm_compute. reflexivity.
  - vm_compute. reflexivity.
Defined.

(** ** [contains] and the points that are no numbers *)

(** X10. [contains] never reports a point with a NaN coordinate as
    inside, whatever the path, the tolerance and the segments that the
    flattening iterator yields. *)
Theorem contains_rejects_NaN :
  forall (flattening : Path -> AffineTransform -> float -> list LineSegment)
         p x y tolerence,
    F32.isNaN x = true \/ F32.isNaN y = true ->
    contains flattening p x y tolerence = false.
Proof.
  intros flattening p x y tol H. unfold contains.
  destruct (F32.leb x (pathXMin p) || F32.geb x (pathXMax p)
            || F32.leb y (pathYMin p) || F32.geb y (pathYMax p)); [reflexivity|].
  rewrite fold_countCrossing_NaN by exact H.
  destruct (useNonZeroWinding p); reflexivity.
Qed.

Lemma contains_rejects_NaN_witness :
  contains (fun _ _ _ => [mkLineSegment F32.zero F32.zero F32.zero (F32.ofZ 5)])
           (addRectangle Path_new F32.zero F32.zero (F32.ofZ 10) (F32.ofZ 5))
           (F32.ofZ 5) (F32.div F32.zero F32.zero) F32.one = false.
Proof.
  apply contains_rejects_NaN. right. vm_compute. reflexivity.
Defined.

(** ** [Path::Iterator] *)

Lemma element_at p A l k :
  data p = A ++ l -> element p (Z.of_nat (length A) + Z.of_nat k) = nth_error l k.
Proof.
  intros H. unfold element, numElements. rewrite H, length_app.
  replace (0 <=? Z.of_nat (length A) + Z.of_nat k) with true
    by (symmetry; apply Z.leb_le; lia).
  cbn [andb].
  replace (Z.to_nat (Z.of_nat (length A) + Z.of_nat k)) with (length A + k)%nat by lia.
  destruct (Z.of_nat (length A) + Z.of_nat k <? Z.of_nat (length A + length l)) eqn:E.
  - rewrite nth_error_app2 by lia. f_equal. lia.
  - apply Z.ltb_ge in E. symmetry. apply nth_error_None. lia.
Qed.

Lemma next_record p A e T it :
  data p = A ++ elementData e ++ T ->
  Iterator.index it = Z.of_nat (length A) ->
  exists it',
    Iterator.next p it = Some (true, it')
    /\ Iterator.current it' = e
    /\ Iterator.index it' = Z.of_nat (length (A ++ elementData e)).
Proof.
  intros Hd Hi.
  pose proof (element_at p A _ 0 Hd) as E0. rewrite Z.add_0_r in E0.
  pose proof (element_at p A _ 1 Hd) as E1.
  pose proof (element_at p A _ 2 Hd) as E2.
  pose proof (element_at p A _ 3 Hd) as E3.
  pose proof (element_at p A _ 4 Hd) as E4.
  pose proof (element_at p A _ 5 Hd) as E5.
  pose proof (element_at p A _ 6 Hd) as E6.
  assert (Hlt : (Iterator.index it <? numElements p) = true).
  { apply Z.ltb_lt. unfold numElements. rewrite Hi, Hd, !length_app.
    destruct e; cbn [elementData length]; lia. }
  unfold Iterator.next. rewrite Hlt, Hi, E0.
  replace (Z.of_nat (length A) + 1 + 1) with (Z.of_nat (length A) + Z.of_nat 2) by lia.
  replace (Z.of_nat (length A) + 1 + 2) with (Z.of_nat (length A) + Z.of_nat 3) by lia.
  replace (Z.of_nat (length A) + 1 + 3) with (Z.of_nat (length A) + Z.of_nat 4) by lia.
  replace (Z.of_nat (length A) + 1 + 4) with (Z.of_nat (length A) + Z.of_nat 5) by lia.
  replace (Z.of_nat (length A) + 1 + 5) with (Z.of_nat (length A) + Z.of_nat 6) by lia.
  change (Z.of_nat (length A) + 1) with (Z.of_nat (length A) + Z.of_nat 1).
  rewrite ?E1, ?E2, ?E3, ?E4, ?E5, ?E6.
  destruct e; cbn [elementData app nth_error]; autorewrite with markers; cbv beta iota;
    eexists; (split; [reflexivity|]); (split; [reflexivity|]);
    cbn [Iterator.index]; rewrite length_app; cbn [length]; lia.
Qed.

Lemma visit_streamData p es : forall pre it fuel,
  data p = streamData pre ++ streamData es ->
  Iterator.index it = Z.of_nat (length (streamData pre)) ->
  (length es < fuel)%nat ->
  Iterator.visit fuel p it = Some es.
Proof.
  induction es as [|e es IH]; intros pre it fuel Hd Hi Hf.
  - destruct fuel as [|fuel]; [cbn in Hf; lia|].
    cbn [Iterator.visit]. unfold Iterator.next.
    replace (Iterator.index it <? numElements p) with false; [reflexivity|].
    symmetry. apply Z.ltb_ge. unfold numElements.
    rewrite Hi, Hd, length_app. cbn [streamData flat_map length]. lia.
  - destruct fuel as [|fuel]; [cbn in Hf; lia|]. cbn [length] in Hf.
    rewrite streamData_cons in Hd.
    destruct (next_record p _ e _ it Hd Hi) as [it' [En [Ec Ei]]].
    cbn [Iterator.visit]. rewrite En, Ec.
    rewrite (IH (pre ++ [e]) it' fuel); [reflexivity| | |lia].
    + rewrite Hd, streamData_app. cbn [streamData flat_map].
      rewrite app_nil_r, <- app_assoc. reflexivity.
    + rewrite Ei, streamData_app. cbn [streamData flat_map].
      rewrite app_nil_r. reflexivity.
Qed.

(** X11. An iterator over a reachable path never reads outside the
    floats in use: started at index zero, with whatever the fields hold,
    the successive calls of [next] report exactly the records of the
    path, in order, and then return false. *)
Theorem iterator_visits_the_records : forall p it,
  reachable p -> Iterator.index it = 0 ->
  exists es,
    records (data p) = Some es
    /\ Iterator.visit (S (length es)) p it = Some es.
Proof.
  intros p it Hp Hi. destruct (reachable_wellFormed p Hp) as [es [Hd _]].
  exists es. split; [rewrite Hd; apply records_streamData|].
  apply (visit_streamData p es []); [exact Hd|exact Hi|lia].
Qed.

Lemma iterator_visits_the_records_witness :
  exists es,
    records (data (addTriangle Path_new F32.zero F32.zero F32.one F32.zero
                               F32.half F32.one)) = Some es
    /\ Iterator.visit (S (length es))
         (addTriangle Path_new F32.zero F32.zero F32.one F32.zero F32.half F32.one)
         (Iterator.mk 0 Iterator.cubicTo F32.one F32.one F32.one F32.one F32.one F32.one)
       = Some es.
Proof.
  apply (iterator_visits_the_records
           (addTriangle Path_new F32.zero F32.zero F32.one F32.zero F32.half F32.one)).
  - apply (reach_call _ (CallAddTriangle F32.zero F32.zero F32.one F32.zero F32.half F32.one)).
    apply reach_new.
  - reflexivity.
Defined.

(** ** Arcs *)

Section ArcProperties.

Variables sinf cosf : float -> float.
Variable rotation : float -> float -> float -> AffineTransform.

Lemma arcForwards_stuck fuel : forall p cx cy rx ry rot to angle,
  F32.ltb angle to = true ->
  F32.add angle ellipseAngularIncrement = angle ->
  arcForwards sinf cosf rotation fuel p cx cy rx ry rot to angle = None.
Proof.
  induction fuel as [|fuel IH]; intros p cx cy rx ry rot to angle Hlt Hs; [reflexivity|].
  cbn [arcForwards]. rewrite Hlt, Hs.
  destruct (arcPoint sinf cosf rotation cx cy rx ry rot angle) as [x y].
  apply IH; assumption.
Qed.

Lemma arcBackwards_stuck fuel : forall p cx cy rx ry rot to angle,
  F32.gtb angle to = true ->
  F32.sub angle ellipseAngularIncrement = angle ->
  arcBackwards sinf cosf rotation fuel p cx cy rx ry rot to angle = None.
Proof.
  induction fuel as [|fuel IH]; intros p cx cy rx ry rot to angle Hlt Hs; [reflexivity|].
  cbn [arcBackwards]. rewrite Hlt, Hs.
  destruct (arcPoint sinf cosf rotation cx cy rx ry rot angle) as [x y].
  apply IH; assumption.
Qed.

End ArcProperties.

Lemma SFltb_asym x y : SFltb y x = true -> SFltb x y = false.
Proof. unfold SFltb. intros H. sf_cases; cmp_cases. Qed.

Lemma gtb_not_ltb a b : F32.gtb a b = true -> F32.ltb a b = false.
Proof. apply SFltb_asym. Qed.

(** X12. The stepping loop of [addCentredArc] does not end when the
    angle is too large for the increment to change it: if the radii are
    positive and [fromRadians + 0.05f] rounds back to [fromRadians]
    while [fromRadians < toRadians] (or [fromRadians - 0.05f] rounds
    back while [fromRadians > toRadians]), then however many turns the
    loop is given it has not returned, with or without a new sub-path. *)
Theorem addCentredArc_never_returns_when_the_angle_is_stuck :
  forall (sinf cosf : float -> float)
         (rotation : float -> float -> float -> AffineTransform)
         fuel p centreX centreY radiusX radiusY rotationOfEllipse
         fromRadians toRadians startAsNewSubPath,
    F32.gtb radiusX F32.zero = true -> F32.gtb radiusY F32.zero = true ->
    (F32.ltb fromRadians toRadians = true
     /\ F32.add fromRadians ellipseAngularIncrement = fromRadians)
    \/ (F32.gtb fromRadians toRadians = true
        /\ F32.sub fromRadians ellipseAngularIncrement = fromRadians) ->
    addCentredArc sinf cosf rotation fuel p centreX centreY radiusX radiusY
                  rotationOfEllipse fromRadians toRadians startAsNewSubPath
    = None.
Proof.
  intros sinf cosf rotation fuel p cx cy rx ry rot from to start Hx Hy H.
  unfold addCentredArc. rewrite Hx, Hy. cbn [andb].
  destruct H as [[Hlt Hs]|[Hgt Hs]].
  - rewrite Hlt, Hs.
    replace (if start then from else from) with from by (destruct start; reflexivity).
    rewrite arcForwards_stuck by assumption. reflexivity.
  - rewrite (gtb_not_ltb _ _ Hgt), Hs.
    replace (if start then from else from) with from by (destruct start; reflexivity).
    rewrite arcBackwards_stuck by assumption. reflexivity.
Qed.

Lemma addCentredArc_never_returns_when_the_angle_is_stuck_witness :
  addCentredArc (fun _ => F32.zero) (fun _ => F32.one)
                (fun _ _ _ => AffineTransform_identity)
                1000 Path_new F32.zero F32.zero F32.one F32.one F32.zero
                (F32.ofZ 4194304) (F32.ofZ 4194305) true
  = None.
Proof.
  apply addCentredArc_never_returns_when_the_angle_is_stuck.
  - reflexivity.
  - reflexivity.
  - left. split; vm_compute; reflexivity.
Defined.

Lemma lineTo_data p x y :
  exists pre, data (lineTo p x y) = data p ++ pre ++ [lineMarker; x; y].
Proof.
  unfold lineTo. destruct (numElements p =? 0).
  - exists [moveMarker; F32.zero; F32.zero]. cbn [data startNewSubPath].
    rewrite <- app_assoc. reflexivity.
  - exists []. reflexivity.
Qed.

Lemma lineTo_appends (p : Path) x y : exists l, data (lineTo p x y) = data p ++ l.
Proof. destruct (lineTo_data p x y) as [pre E]. eexists. exact E. Qed.

Lemma arcForwards_appends sinf cosf rotation fuel : forall p cx cy rx ry rot to angle q,
  arcForwards sinf cosf rotation fuel p cx cy rx ry rot to angle = Some q ->
  exists l, data q = data p ++ l.
Proof.
  induction fuel as [|fuel IH]; intros p cx cy rx ry rot to angle q H; [discriminate H|].
  cbn [arcForwards] in H. destruct (F32.ltb angle to).
  - destruct (arcPoint sinf cosf rotation cx cy rx ry rot angle) as [x y].
    apply IH in H. exact (appends_trans _ _ _ (lineTo_appends p x y) H).
  - injection H as <-. apply keeps_refl.
Qed.

Lemma arcBackwards_appends sinf cosf rotation fuel : forall p cx cy rx ry rot to angle q,
  arcBackwards sinf cosf rotation fuel p cx cy rx ry rot to angle = Some q ->
  exists l, data q = data p ++ l.
Proof.
  induction fuel as [|fuel IH]; intros p cx cy rx ry rot to angle q H; [discriminate H|].
  cbn [arcBackwards] in H. destruct (F32.gtb angle to).
  - destruct (arcPoint sinf cosf rotation cx cy rx ry rot angle) as [x y].
    apply IH in H. exact (appends_trans _ _ _ (lineTo_appends p x y) H).
  - injection H as <-. apply keeps_refl.
Qed.

(** X13. When [addCentredArc] returns: with a radius that is not
    positive (or a NaN) the path is unchanged; otherwise the floats of
    the receiver stay in front, and the last record is a line to the
    point of the ellipse at [toRadians] itself, whatever the steps in
    between added up to. *)
Theorem addCentredArc_ends_at_toRadians :
  forall (sinf cosf : float -> float)
         (rotation : float -> float -> float -> AffineTransform)
         fuel p centreX centreY radiusX radiusY rotationOfEllipse
         fromRadians toRadians startAsNewSubPath q,
    addCentredArc sinf cosf rotation fuel p centreX centreY radiusX radiusY
                  rotationOfEllipse fromRadians toRadians startAsNewSubPath
    = Some q ->
    if F32.gtb radiusX F32.zero && F32.gtb radiusY F32.zero
    then exists l,
           data q
           = data p ++ l
             ++ [lineMarker;
                 fst (arcPoint sinf cosf rotation centreX centreY radiusX radiusY
                               rotationOfEllipse toRadians);
                 snd (arcPoint sinf cosf rotation centreX centreY radiusX radiusY
                               rotationOfEllipse toRadians)]
    else q = p.
Proof.
  intros sinf cosf rotation fuel p cx cy rx ry rot from to start q H.
  unfold addCentredArc in H.
  destruct (F32.gtb rx F32.zero && F32.gtb ry F32.zero); [|now injection H].
  cbv zeta in H.
  set (p0 := if start
             then let '(x, y) := arcPoint sinf cosf rotation cx cy rx ry rot from in
                  startNewSubPath p x y
             else p) in H.
  assert (H0 : exists l, data p0 = data p ++ l).
  { subst p0. destruct start; [|apply keeps_refl].
    destruct (arcPoint sinf cosf rotation cx cy rx ry rot from) as [x y].
    eexists. reflexivity. }
  destruct (arcPoint sinf cosf rotation cx cy rx ry rot to) as [x y].
  cbn [fst snd].
  match type of H with
  | match ?looped with _ => _ end = _ => destruct looped as [p1|] eqn:E; [|discriminate H]
  end.
  injection H as <-.
  assert (H1 : exists l, data p1 = data p0 ++ l).
  { destruct (F32.ltb from to);
      [eapply arcForwards_appends|eapply arcBackwards_appends]; exact E. }
  destruct H0 as [l0 E0], H1 as [l1 E1], (lineTo_data p1 x y) as [pre E2].
  exists (l0 ++ l1 ++ pre). rewrite E2, E1, E0. repeat rewrite <- app_assoc. reflexivity.
Qed.

Lemma addCentredArc_ends_at_toRadians_witness :
  if F32.gtb F32.one F32.zero && F32.gtb F32.one F32.zero
  then exists l,
         data (lineTo (lineTo Path_new F32.zero F32.one)
                      F32.zero F32.one)
         = data Path_new ++ l
           ++ [lineMarker;
               fst (arcPoint (fun _ => F32.zero) (fun _ => F32.neg F32.one)
                             (fun _ _ _ => AffineTransform_identity)
                             F32.zero F32.zero F32.one F32.one F32.zero
                             ellipseAngularIncrement);
               snd (arcPoint (fun _ => F32.zero) (fun _ => F32.neg F32.one)
                             (fun _ _ _ => AffineTransform_identity)
                             F32.zero F32.zero F32.one F32.one F32.zero
                             ellipseAngularIncrement)]
  else lineTo (lineTo Path_new F32.zero F32.one)
              F32.zero F32.one = Path_new.
Proof.
  apply (addCentredArc_ends_at_toRadians
           (fun _ => F32.zero) (fun _ => F32.neg F32.one)
           (fun _ _ _ => AffineTransform_identity)
           3 Path_new F32.zero F32.zero F32.one F32.one F32.zero
           F32.zero ellipseAngularIncrement false).
  vm_compute. reflexivity.
Defined.

(** ** Stars *)

Lemma appendElements_app p es es' :
  appendElements p (es ++ es') = appendElements (appendElements p es) es'.
Proof. apply fold_left_app. Qed.

Lemma appendElements_lines ls : forall p,
  data p <> [] -> forallb isLineTo ls = true ->
  data (appendElements p ls) = data p ++ streamData ls.
Proof.
  induction ls as [|e ls IH]; intros p Hne Hl.
  - cbn. now rewrite app_nil_r.
  - cbn [forallb] in Hl. apply andb_true_iff in Hl. destruct Hl as [He Hl].
    destruct e as [|lx ly| | |]; try discriminate He.
    cbn [appendElements fold_left appendElement].
    fold (appendElements (lineTo p lx ly) ls).
    assert (Ed : data (lineTo p lx ly) = data p ++ [lineMarker; lx; ly]).
    { unfold lineTo. rewrite numElements_zero_false by exact Hne. reflexivity. }
    rewrite IH; [|rewrite Ed; destruct (data p); discriminate|exact Hl].
    rewrite Ed, streamData_cons, <- app_assoc. reflexivity.
Qed.

Lemma addStarLoop_lines sinf cosf n : forall i p cx cy ir outer sa abp,
  0 < i ->
  exists ls,
    length ls = (2 * n)%nat /\ forallb isLineTo ls = true
    /\ addStarLoop sinf cosf n i p cx cy ir outer sa abp = appendElements p ls.
Proof.
  induction n as [|n IH]; intros i p cx cy ir outer sa abp Hi.
  - exists []. repeat split.
  - cbn [addStarLoop].
    destruct (IH (i + 1) (addStarPoint sinf cosf p cx cy ir outer sa abp i)
                 cx cy ir outer sa abp) as [ls [Hlen [Hall E]]]; [lia|].
    unfold addStarPoint in *.
    replace (i =? 0) with false in * by (symmetry; apply Z.eqb_neq; lia).
    eexists (lineToElement _ _ :: lineToElement _ _ :: ls).
    split; [cbn [length]; lia|]. split; [exact Hall|].
    rewrite E. reflexivity.
Qed.

(** X14. [addStar] with more than one point adds one closed sub-path
    with two vertices for every point: a move to the first outer vertex
    followed by lines only, twice [numberOfPoints] records in all, laid
    down after the floats of the receiver, and then [closeSubPath]. *)
Theorem addStar_adds_two_vertices_per_point :
  forall (sinf cosf : float -> float) (float_Pi : float)
         p centreX centreY numberOfPoints innerRadius outerRadius startAngle,
    1 < numberOfPoints ->
    exists es,
      Z.of_nat (length es) = 2 * numberOfPoints
      /\ beginsWithMove es = true
      /\ forallb isLineTo (tl es) = true
      /\ data (appendElements p es) = data p ++ streamData es
      /\ addStar sinf cosf float_Pi p centreX centreY numberOfPoints
                 innerRadius outerRadius startAngle
         = closeSubPath (appendElements p es).
Proof.
  intros sinf cosf float_Pi p cx cy N ir outer sa HN.
  unfold addStar. replace (N >? 1) with true by (symmetry; apply Z.gtb_lt; lia).
  cbv zeta. set (abp := F32.div (F32.mul float_Pi two) (F32.ofZ N)).
  destruct (Z.to_nat N) as [|n] eqn:En; [lia|].
  cbn [addStarLoop].
  destruct (addStarLoop_lines sinf cosf n (0 + 1)
              (addStarPoint sinf cosf p cx cy ir outer sa abp 0)
              cx cy ir outer sa abp) as [ls [Hlen [Hall E]]]; [lia|].
  unfold addStarPoint in *. cbn [Z.eqb] in *.
  eexists (startNewSubPathElement _ _ :: lineToElement _ _ :: ls).
  split; [cbn [length]; lia|]. split; [reflexivity|]. split; [exact Hall|].
  split.
  - cbn [appendElements fold_left appendElement].
    match goal with
    | |- data (fold_left appendElement ls ?p1) = _ =>
        change (fold_left appendElement ls p1) with (appendElements p1 ls);
        rewrite (appendElements_lines ls p1)
    end.
    + cbn [lineTo startNewSubPath data]. unfold lineTo.
      rewrite numElements_zero_false
        by (cbn [startNewSubPath data]; destruct (data p); discriminate).
      cbn [data startNewSubPath]. rewrite !streamData_cons.
      cbn [elementData]. repeat rewrite <- app_assoc. reflexivity.
    + unfold lineTo. destruct (numElements _ =? 0); cbn [data startNewSubPath];
        destruct (data p); discriminate.
    + exact Hall.
  - rewrite E. reflexivity.
Qed.

Lemma addStar_adds_two_vertices_per_point_witness :
  exists es,
    Z.of_nat (length es) = 2 * 5
    /\ beginsWithMove es = true
    /\ forallb isLineTo (tl es) = true
    /\ data (appendElements Path_new es) = data Path_new ++ streamData es
    /\ addStar (fun _ => F32.zero) (fun _ => F32.one) (F32.ofZ 3)
               Path_new F32.zero F32.zero 5 (F32.ofZ 4) (F32.ofZ 10) F32.zero
       = closeSubPath (appendElements Path_new es).
Proof.
  apply (addStar_adds_two_vertices_per_point
           (fun _ => F32.zero) (fun _ => F32.one) (F32.ofZ 3)
           Path_new F32.zero F32.zero 5 (F32.ofZ 4) (F32.ofZ 10) F32.zero).
  lia.
Defined.

(** ** The size that [getBounds] reports *)

(** Of two canonical floats the one with the smaller exponent has the
    smaller magnitude. *)
Lemma canonical_lt mx ex my ey ez :
  bounded 24 128 mx ex = true -> bounded 24 128 my ey = true ->
  ez <= ex -> ex < ey ->
  Z.pos mx * 2 ^ (ex - ez) < Z.pos my * 2 ^ (ey - ez).
Proof.
  intros Hx Hy Lz Lt.
  pose proof (bounded_facts _ _ Hx) as [Hex [_ [Hmx _]]].
  pose proof (bounded_facts _ _ Hy) as [Hey [_ [_ Hmy]]].
  specialize (Hmy ltac:(lia)).
  replace (ey - ez) with ((ey - ex) + (ex - ez)) by lia.
  rewrite Z.pow_add_r by lia.
  assert (PA : 0 < 2 ^ (ex - ez)) by (apply Z.pow_pos_nonneg; lia).
  assert (PB : 2 ^ 1 <= 2 ^ (ey - ex)) by (apply Z.pow_le_mono_r; lia).
  change (2 ^ 1) with 2 in PB. change (2 ^ 24) with 16777216 in Hmx.
  change (2 ^ 23) with 8388608 in Hmy.
  set (A := 2 ^ (ex - ez)) in *. set (B := 2 ^ (ey - ex)) in *.
  assert (HB : 16777216 <= Z.pos my * B) by nia.
  apply Z.lt_le_trans with (16777216 * A).
  - apply Z.mul_lt_mono_pos_r; assumption.
  - rewrite Z.mul_assoc. apply Z.mul_le_mono_nonneg_r; lia.
Qed.

Lemma aligned_le sx mx ex sy my ey ez :
  bounded 24 128 mx ex = true -> bounded 24 128 my ey = true ->
  ez <= ex -> ez <= ey ->
  SFleb (S754_finite sx mx ex) (S754_finite sy my ey) = true ->
  cond_Zopp sx (Z.pos mx * 2 ^ (ex - ez)) <= cond_Zopp sy (Z.pos my * 2 ^ (ey - ez)).
Proof.
  intros Hx Hy Lx Ly H.
  assert (Px : 0 < Z.pos mx * 2 ^ (ex - ez))
    by (apply Z.mul_pos_pos; [lia|apply Z.pow_pos_nonneg; lia]).
  assert (Py : 0 < Z.pos my * 2 ^ (ey - ez))
    by (apply Z.mul_pos_pos; [lia|apply Z.pow_pos_nonneg; lia]).
  unfold SFleb in H. cbn [SFcompare] in H.
  destruct sx, sy; cbn [cond_Zopp]; try lia; try discriminate H.
  - (* both negative *)
    destruct (Z.compare_spec ex ey) as [E|E|E].
    + subst ey.
      change (Pos.compare_cont Eq mx my) with (Pos.compare mx my) in H.
      destruct (Pos.compare_spec mx my) as [E'|E'|E']; cbn in H; try discriminate H.
      * subst my. lia.
      * assert (Z.pos my < Z.pos mx) by lia. nia.
    + discriminate H.
    + pose proof (canonical_lt my ey mx ex ez Hy Hx Ly E). lia.
  - (* both positive *)
    destruct (Z.compare_spec ex ey) as [E|E|E].
    + subst ey.
      change (Pos.compare_cont Eq mx my) with (Pos.compare mx my) in H.
      destruct (Pos.compare_spec mx my) as [E'|E'|E']; cbn in H; try discriminate H.
      * subst my. lia.
      * assert (Z.pos mx < Z.pos my) by lia. nia.
    + pose proof (canonical_lt mx ex my ey ez Hx Hy Lx E). lia.
    + discriminate H.
Qed.

Lemma SFsub_nonneg x y :
  valid_binary 24 128 x = true -> valid_binary 24 128 y = true ->
  SFleb x y = true ->
  SFltb (SFsub 24 128 y x) (S754_zero false) = false.
Proof.
  intros Hx Hy H.
  destruct x as [sx|sx| |sx mx ex], y as [sy|sy| |sy my ey];
    try discriminate H; try reflexivity;
    try (destruct sx, sy; try discriminate H; reflexivity);
    try (destruct sx; try discriminate H; reflexivity);
    try (destruct sy; try discriminate H; reflexivity).
  rewrite SFsub_finite. cbn [valid_binary] in Hx, Hy.
  pose proof (bounded_facts _ _ Hx) as [Hex _].
  pose proof (bounded_facts _ _ Hy) as [Hey _].
  set (ez := Z.min ey ex) in *.
  assert (Lx : ez <= ex) by (unfold ez; lia).
  assert (Ly : ez <= ey) by (unfold ez; lia).
  rewrite !shl_align_fst by assumption.
  pose proof (aligned_le sx mx ex sy my ey ez Hx Hy Lx Ly H) as Hle.
  destruct (cond_Zopp sy (Z.pos my * 2 ^ (ey - ez))
            - cond_Zopp sx (Z.pos mx * 2 ^ (ex - ez))) as [|M|M] eqn:ES;
    cbn [binary_normalize]; [reflexivity| |lia].
  destruct (round_shape false M ez ltac:(lia)) as [E|[m' [e' [E _]]]];
    rewrite E; reflexivity.
Qed.

Lemma sub_nonneg a b :
  F32.leb a b = true -> F32.ltb (F32.sub b a) F32.zero = false.
Proof.
  unfold F32.leb, F32.ltb. rewrite value_sub.
  change (F32.value F32.zero) with (S754_zero false).
  apply SFsub_nonneg; apply value_valid.
Qed.

(** ** The bounding box of every reachable path *)

Lemma noNaN_prefix (p q : Path) :
  (exists l, data q = data p ++ l) -> noNaN (data q) -> noNaN (data p).
Proof. intros [l E] H. rewrite E in H. apply noNaN_app in H. apply H. Qed.

Lemma boundsInvariant_loadPathFromStreamLoop fuel : forall source p q,
  boundsInvariant p -> loadPathFromStreamLoop fuel source p = Some q ->
  noNaN (data q) -> boundsInvariant q.
Proof.
  induction fuel as [|fuel IH]; intros source p q Hp H Hn; [discriminate H|].
  cbn [loadPathFromStreamLoop] in H.
  destruct (isExhausted source); [injection H as <-; exact Hp|].
  destruct (readByte source) as [c source1].
  repeat match type of H with
  | context [readFloat ?s] => destruct (readFloat s)
  end.
  repeat match type of H with
  | (if ?b then _ else _) = _ => destruct b
  end;
  try (injection H as <-; exact Hp);
  pose proof (noNaN_prefix _ _ (loadPathFromStreamLoop_appends _ _ _ _ H) Hn) as Hn';
  (eapply IH; [|exact H|exact Hn]);
  first [ exact Hp
        | apply (bounds_appendElement _ (startNewSubPathElement _ _)); assumption
        | apply (bounds_appendElement _ (lineToElement _ _)); assumption
        | apply (bounds_appendElement _ (quadraticToElement _ _ _ _)); assumption
        | apply (bounds_appendElement _ (cubicToElement _ _ _ _ _ _)); assumption
        | apply (bounds_appendElement _ closePathElement); assumption
        | apply boundsInvariant_setUsingNonZeroWinding; exact Hp ].
Qed.

Lemma reachable_boundsInvariant p : reachable p -> noNaN (data p) -> boundsInvariant p.
Proof.
  induction 1 as [|p c Hr IH|p other q Hp IHp Ho _ Ha|p b _ IH|p _ _|p t q Hp _ Ht
                 |p source q _ IH Hl]; intros Hn.
  - apply bounds_new.
  - destruct (isAddRectangle c) eqn:Ec.
    + destruct c; try discriminate Ec. cbn [applyCall] in *.
      apply bounds_addRectangle; [|exact Hn]. apply IH.
      rewrite addRectangle_data in Hn. apply noNaN_app in Hn. apply Hn.
    + rewrite applyCall_elements in * by exact Ec.
      apply bounds_appendElements; [|exact Hn]. apply IH.
      exact (noNaN_prefix _ _ (appendElements_grows (callElements c) p) Hn).
  - destruct (addPath_elements p other q (reachable_wellFormed other Ho) Ha) as [es [_ ->]].
    apply bounds_appendElements; [|exact Hn]. apply IHp.
    exact (noNaN_prefix _ _ (appendElements_grows es p) Hn).
  - apply boundsInvariant_setUsingNonZeroWinding, IH, Hn.
  - exists []. repeat split.
  - exact (applyTransform_boundsInvariant p t q (reachable_wellFormed p Hp) Ht Hn).
  - apply (boundsInvariant_loadPathFromStreamLoop _ _ _ _ (IH
             (noNaN_prefix _ _ (loadPathFromStreamLoop_appends _ _ _ _ Hl) Hn)) Hl Hn).
Qed.

(** X6. The bounding box stays exact under every public mutating
    function: on a path reached through builder calls, [addPath],
    [clear], [applyTransform] (which recomputes the box from the
    transformed points) and [loadPathFromStream], with no NaN among the
    stored floats, the bounds are all zero when there is no record and
    otherwise the least and the greatest of the x and of the y
    coordinates of the records. *)
Theorem bounding_box_is_exact_on_reachable_paths : forall p,
  reachable p -> noNaN (data p) ->
  exists es, records (data p) = Some es /\ boundsExact p es.
Proof.
  intros p Hr Hn. destruct (reachable_boundsInvariant p Hr Hn) as [es [Hd [_ He]]].
  exists es. split; [|exact He]. rewrite Hd. apply records_streamData.
Qed.

Lemma bounding_box_is_exact_on_reachable_paths_witness :
  exists es,
    records (data (mkPath [moveMarker; F32.one; F32.half; lineMarker; F32.ofZ 3; F32.one]
                          F32.one (F32.ofZ 3) F32.half F32.one true)) = Some es
    /\ boundsExact (mkPath [moveMarker; F32.one; F32.half; lineMarker; F32.ofZ 3; F32.one]
                           F32.one (F32.ofZ 3) F32.half F32.one true) es.
Proof.
  refine (bounding_box_is_exact_on_reachable_paths _ _ _).
  - refine (reach_applyTransform
              (lineTo (startNewSubPath (clear (lineTo Path_new F32.one F32.one))
                                       F32.zero F32.zero) (F32.ofZ 2) F32.half)
              (AffineTransform_translation F32.one F32.half) _ _ _).
    + apply (reach_call _ (CallLineTo (F32.ofZ 2) F32.half)).
      apply (reach_call _ (CallStartNewSubPath F32.zero F32.zero)).
      apply reach_clear.
      apply (reach_call _ (CallLineTo F32.one F32.one)).
      apply reach_new.
    + vm_compute. reflexivity.
  - apply noNaN_forallb. vm_compute. reflexivity.
Defined.

Lemma extremes_ordered lo hi l :
  isMinOf lo l -> isMaxOf hi l -> F32.leb lo hi = true.
Proof.
  intros [Hin _] [_ Hall]. rewrite Forall_forall in Hall. apply Hall, Hin.
Qed.

(** X15. [getBounds] never reports a negative size: on every reachable
    path without a NaN among its floats, neither the width
    [pathXMax - pathXMin] nor the height [pathYMax - pathYMin] compares
    below zero. *)
Theorem getBounds_size_is_never_negative : forall p,
  reachable p -> noNaN (data p) ->
  F32.ltb (rectW (getBounds p)) F32.zero = false
  /\ F32.ltb (rectH (getBounds p)) F32.zero = false.
Proof.
  intros p Hr Hn. destruct (reachable_boundsInvariant p Hr Hn) as [es [_ [_ He]]].
  unfold getBounds. cbn [rectW rectH].
  destruct es as [|e es].
  - destruct He as [-> [-> [-> ->]]]. split; reflexivity.
  - destruct He as [H1 [H2 [H3 H4]]].
    split; apply sub_nonneg; eapply extremes_ordered; eassumption.
Qed.

Lemma getBounds_size_is_never_negative_witness :
  F32.ltb (rectW (getBounds (addRectangle Path_new F32.one F32.one
                                          (F32.ofZ (-5)) (F32.ofZ (-3)))))
          F32.zero = false
  /\ F32.ltb (rectH (getBounds (addRectangle Path_new F32.one F32.one
                                             (F32.ofZ (-5)) (F32.ofZ (-3)))))
             F32.zero = false.
Proof.
  apply getBounds_size_is_never_negative.
  - apply (reach_call _ (CallAddRectangle F32.one F32.one (F32.ofZ (-5)) (F32.ofZ (-3)))).
    apply reach_new.
  - apply noNaN_forallb. vm_compute. reflexivity.
Defined.

(** ** Adding a path to itself *)

Lemma addPathToItselfStep_record p A e T i :
  data p = A ++ elementData e ++ T ->
  i = Z.of_nat (length A) ->
  addPathToItselfStep p i
  = Some (appendElement p e, i + Z.of_nat (length (elementData e))).
Proof.
  intros Hd ->.
  pose proof (element_at p A _ 0 Hd) as E0. rewrite Z.add_0_r in E0.
  pose proof (element_at p A _ 1 Hd) as E1.
  pose proof (element_at p A _ 2 Hd) as E2.
  pose proof (element_at p A _ 3 Hd) as E3.
  pose proof (element_at p A _ 4 Hd) as E4.
  pose proof (element_at p A _ 5 Hd) as E5.
  pose proof (element_at p A _ 6 Hd) as E6.
  unfold addPathToItselfStep. rewrite E0.
  replace (Z.of_nat (length A) + 1 + 1) with (Z.of_nat (length A) + Z.of_nat 2) by lia.
  replace (Z.of_nat (length A) + 1 + 2) with (Z.of_nat (length A) + Z.of_nat 3) by lia.
  replace (Z.of_nat (length A) + 1 + 3) with (Z.of_nat (length A) + Z.of_nat 4) by lia.
  replace (Z.of_nat (length A) + 1 + 4) with (Z.of_nat (length A) + Z.of_nat 5) by lia.
  replace (Z.of_nat (length A) + 1 + 5) with (Z.of_nat (length A) + Z.of_nat 6) by lia.
  replace (Z.of_nat (length A) + 1 + 6) with (Z.of_nat (length A) + Z.of_nat 7) by lia.
  change (Z.of_nat (length A) + 1) with (Z.of_nat (length A) + Z.of_nat 1).
  rewrite ?E1, ?E2, ?E3, ?E4, ?E5, ?E6.
  destruct e; cbn [elementData app nth_error length appendElement];
    autorewrite with markers; cbv beta iota; reflexivity.
Qed.

Lemma appendRecord_snoc acc a e :
  mayFollow a e = true -> appendRecord (acc ++ [a]) e = (acc ++ [a]) ++ [e].
Proof.
  intros H. destruct (acc ++ [a]) as [|b l] eqn:Eb; [destruct acc; discriminate Eb|].
  destruct e; try reflexivity. cbn [appendRecord]. rewrite <- Eb.
  unfold mayFollow in H. cbn [isClose andb] in H. apply negb_true_iff in H.
  apply orb_false_iff in H. destruct H as [Hc Hv].
  unfold lastCoordIsCloseValue in Hv. rewrite Hc in Hv. cbn [negb andb] in Hv.
  rewrite last_streamData_snoc. unfold F32.neqb. rewrite Hv. reflexivity.
Qed.

Lemma mayFollow_allAdjacent es :
  noConsecutiveClose es = true -> noCloseAfterCloseValue es = true ->
  allAdjacent mayFollow es = true.
Proof.
  induction es as [|a [|b es] IH]; intros Hn Hc; [reflexivity|reflexivity|].
  unfold noConsecutiveClose, noCloseAfterCloseValue in *.
  change (allAdjacent ?R (a :: b :: es)) with (R a b && allAdjacent R (b :: es)) in *.
  cbv beta in Hn, Hc. apply andb_true_iff in Hn, Hc.
  destruct Hn as [Hn1 Hn2], Hc as [Hc1 Hc2].
  rewrite (IH Hn2 Hc2), andb_true_r. unfold mayFollow.
  apply negb_true_iff in Hn1, Hc1. apply negb_true_iff.
  destruct (isClose b); [|reflexivity].
  rewrite andb_true_r in Hn1, Hc1. rewrite Hn1, Hc1. reflexivity.
Qed.

(** The records still to be read, with the first of them repeated at
    the end: what the store holds from the index on once that record has
    been read and appended. *)
Lemma mayFollow_rotate e todo :
  allAdjacent mayFollow ((e :: todo) ++ [e]) = true ->
  allAdjacent mayFollow ((todo ++ [e]) ++ [hd e (todo ++ [e])]) = true.
Proof.
  intros H. destruct todo as [|b todo]; [exact H|].
  cbn [app hd] in *.
  pose proof (allAdjacent_head _ _ _ _ H) as Hb.
  apply allAdjacent_tail in H.
  change (b :: (todo ++ [e]) ++ [b]) with ((b :: todo ++ [e]) ++ [b]).
  rewrite allAdjacent_snoc. rewrite H. cbn [andb].
  change (b :: todo ++ [e]) with ((b :: todo) ++ [e]). rewrite last_last. exact Hb.
Qed.

Lemma addPathToItself_runs_on fuel : forall p i done e todo,
  data p = streamData (done ++ e :: todo) ->
  i = Z.of_nat (length (streamData done)) ->
  allAdjacent mayFollow ((e :: todo) ++ [e]) = true ->
  addPathToItself fuel p i = None.
Proof.
  induction fuel as [|fuel IH]; intros p i done e todo Hd Hi Hr; [reflexivity|].
  cbn [addPathToItself].
  assert (Hd' : data p = streamData done ++ elementData e ++ streamData todo).
  { rewrite Hd, streamData_app, streamData_cons. reflexivity. }
  replace (i <? numElements p) with true.
  2:{ symmetry. apply Z.ltb_lt. unfold numElements. rewrite Hi, Hd', !length_app.
      destruct e; cbn [elementData length]; lia. }
  rewrite (addPathToItselfStep_record p _ e _ i Hd' Hi).
  assert (Hm : mayFollow (last (e :: todo) e) e = true).
  { rewrite allAdjacent_snoc in Hr. apply andb_true_iff in Hr. apply Hr. }
  assert (Ha : appendRecord (done ++ e :: todo) e = (done ++ e :: todo) ++ [e]).
  { destruct (exists_last (l := e :: todo) ltac:(discriminate)) as [front [a Ef]].
    rewrite Ef in Hm. rewrite last_last in Hm.
    rewrite Ef, app_assoc. apply appendRecord_snoc, Hm. }
  pose proof (mayFollow_rotate e todo Hr) as Hr'.
  destruct (todo ++ [e]) as [|e2 todo2] eqn:Et; [destruct todo; discriminate Et|].
  cbn [hd] in Hr'.
  apply (IH _ _ (done ++ [e]) e2 todo2).
  - rewrite (data_appendElement p _ e Hd), Ha, <- Et.
    repeat rewrite <- app_assoc. reflexivity.
  - rewrite Hi, streamData_app, length_app. cbn [streamData flat_map].
    rewrite app_nil_r. lia.
  - exact Hr'.
Qed.

(** X18. Adding a path to itself does not end: for a reachable path
    that holds a record, and in which no close directly follows a
    coordinate with the close marker's value, the loop of
    [addPath (other)] with the receiver as [other] reads at every turn a
    record that an earlier turn has appended, and however many turns it
    is given it has not returned. *)
Theorem addPath_to_itself_never_returns : forall p fuel,
  reachable p -> data p <> [] -> closesFollowOtherValues p = true ->
  addPathToItself fuel p 0 = None.
Proof.
  intros p fuel Hp Hne Hc.
  destruct (reachable_wellFormed p Hp) as [es [Hd [Hb Hn]]].
  unfold closesFollowOtherValues in Hc. rewrite Hd, records_streamData in Hc.
  destruct es as [|e es]; [rewrite Hd in Hne; contradiction|].
  apply (addPathToItself_runs_on fuel p 0 [] e es); [exact Hd|reflexivity|].
  apply allAdjacent_app.
  - apply mayFollow_allAdjacent; assumption.
  - reflexivity.
  - intros a b _ _. cbn [hd]. destruct e; try discriminate Hb.
    unfold mayFollow. reflexivity.
Qed.

Lemma addPath_to_itself_never_returns_witness :
  addPathToItself 1000 (addRectangle Path_new F32.zero F32.zero F32.one F32.one) 0 = None.
Proof.
  apply addPath_to_itself_never_returns.
  - apply (reach_call _ (CallAddRectangle F32.zero F32.zero F32.one F32.one)).
    apply reach_new.
  - discriminate.
  - vm_compute. reflexivity.
Defined.

(** ** The shapes that are built from the primitive calls *)

Lemma reachable_startNewSubPath p x y :
  reachable p -> reachable (startNewSubPath p x y).
Proof. exact (reach_call p (CallStartNewSubPath x y)). Qed.

Lemma reachable_lineTo p x y : reachable p -> reachable (lineTo p x y).
Proof. exact (reach_call p (CallLineTo x y)). Qed.

Lemma reachable_closeSubPath p : reachable p -> reachable (closeSubPath p).
Proof. exact (reach_call p CallCloseSubPath). Qed.

Ltac reach_step :=
  lazymatch goal with
  | |- reachable (lineTo _ _ _) => apply reachable_lineTo
  | |- reachable (startNewSubPath _ _ _) => apply reachable_startNewSubPath
  | |- reachable (closeSubPath _) => apply reachable_closeSubPath
  | |- reachable (if ?b then _ else _) => destruct b
  | |- reachable (let '(_, _) := ?e in _) => destruct e
  | |- reachable ?q =>
      match goal with
      | H : reachable ?p |- _ => constr_eq p q; exact H
      end
  end.

Lemma reachable_addStarLoop sinf cosf n : forall i p cx cy ir outer sa abp,
  reachable p -> reachable (addStarLoop sinf cosf n i p cx cy ir outer sa abp).
Proof.
  induction n as [|n IH]; intros i p cx cy ir outer sa abp H; [exact H|].
  cbn [addStarLoop]. apply IH. unfold addStarPoint. repeat reach_step.
Qed.

(** X19. [addStar], [addLineSegment] and [addArrow] leave a reachable
    path reachable (whatever [sinf], [cosf] and [juce_hypotf] return):
    each is a sequence of [startNewSubPath], [lineTo] and
    [closeSubPath] calls, so what holds of every reachable path holds
    after them. *)
Theorem polygon_shapes_keep_the_path_reachable :
  forall (sinf cosf : float -> float) (float_Pi : float)
         (juce_hypotf : float -> float -> float) p
         centreX centreY numberOfPoints innerRadius outerRadius startAngle
         startX startY endX endY lineThickness arrowheadWidth arrowheadLength,
    reachable p ->
    reachable (addStar sinf cosf float_Pi p centreX centreY numberOfPoints
                       innerRadius outerRadius startAngle)
    /\ reachable (addLineSegment juce_hypotf p startX startY endX endY lineThickness)
    /\ reachable (addArrow juce_hypotf p startX startY endX endY lineThickness
                           arrowheadWidth arrowheadLength).
Proof.
  intros sinf cosf float_Pi juce_hypotf p cx cy numberOfPoints ir outer sa
         sx sy ex ey th aw al H.
  split; [|split].
  - unfold addStar. destruct (numberOfPoints >? 1); [|exact H].
    apply reachable_closeSubPath, reachable_addStarLoop, H.
  - unfold addLineSegment. cbv zeta. repeat reach_step.
  - unfold addArrow. cbv zeta. repeat reach_step.
Qed.

Lemma polygon_shapes_keep_the_path_reachable_witness :
  reachable (addStar (fun _ => F32.zero) (fun _ => F32.one) (F32.ofZ 3)
                     (lineTo Path_new F32.one F32.one)
                     F32.zero F32.zero 5 (F32.ofZ 4) (F32.ofZ 10) F32.zero)
  /\ reachable (addLineSegment (fun _ _ => F32.one) (lineTo Path_new F32.one F32.one)
                               F32.zero F32.zero F32.one F32.zero F32.half)
  /\ reachable (addArrow (fun _ _ => F32.one) (lineTo Path_new F32.one F32.one)
                         F32.zero F32.zero F32.one F32.zero F32.half F32.one F32.half).
Proof.
  apply polygon_shapes_keep_the_path_reachable.
  apply (reach_call _ (CallLineTo F32.one F32.one)), reach_new.
Defined.

Section ArcShapes.

Variables sinf cosf : float -> float.
Variable float_Pi : float.
Variable rotation : float -> float -> float -> AffineTransform.

Lemma reachable_arcForwards fuel : forall p cx cy rx ry rot to angle q,
  reachable p ->
  arcForwards sinf cosf rotation fuel p cx cy rx ry rot to angle = Some q ->
  reachable q.
Proof.
  induction fuel as [|fuel IH]; intros p cx cy rx ry rot to angle q Hp H;
    [discriminate H|].
  cbn [arcForwards] in H. destruct (F32.ltb angle to).
  - destruct (arcPoint sinf cosf rotation cx cy rx ry rot angle) as [x y].
    apply IH in H; [exact H|]. reach_step. exact Hp.
  - injection H as <-. exact Hp.
Qed.

Lemma reachable_arcBackwards fuel : forall p cx cy rx ry rot to angle q,
  reachable p ->
  arcBackwards sinf cosf rotation fuel p cx cy rx ry rot to angle = Some q ->
  reachable q.
Proof.
  induction fuel as [|fuel IH]; intros p cx cy rx ry rot to angle q Hp H;
    [discriminate H|].
  cbn [arcBackwards] in H. destruct (F32.gtb angle to).
  - destruct (arcPoint sinf cosf rotation cx cy rx ry rot angle) as [x y].
    apply IH in H; [exact H|]. reach_step. exact Hp.
  - injection H as <-. exact Hp.
Qed.

Lemma reachable_addCentredArc fuel p cx cy rx ry rot from to start q :
  reachable p ->
  addCentredArc sinf cosf rotation fuel p cx cy rx ry rot from to start = Some q ->
  reachable q.
Proof.
  intros Hp H. unfold addCentredArc in H.
  destruct (F32.gtb rx F32.zero && F32.gtb ry F32.zero); [|injection H as <-; exact Hp].
  cbv zeta in H.
  set (p0 := if start
             then let '(x, y) := arcPoint sinf cosf rotation cx cy rx ry rot from in
                  startNewSubPath p x y
             else p) in H.
  assert (H0 : reachable p0) by (subst p0; repeat reach_step).
  destruct (arcPoint sinf cosf rotation cx cy rx ry rot to) as [x y].
  match type of H with
  | match ?looped with _ => _ end = _ => destruct looped as [p1|] eqn:E; [|discriminate H]
  end.
  injection H as <-. reach_step.
  destruct (F32.ltb from to);
    [eapply reachable_arcForwards|eapply reachable_arcBackwards]; eassumption.
Qed.

Lemma reachable_addArc fuel p x y w h from to start q :
  reachable p -> addArc sinf cosf rotation fuel p x y w h from to start = Some q ->
  reachable q.
Proof. unfold addArc. apply reachable_addCentredArc. Qed.

Lemma reachable_bubbleCorner fuel cs r x y w h from to q :
  (forall p, r = Some p -> reachable p) ->
  bubbleCorner sinf cosf rotation fuel cs r x y w h from to = Some q ->
  reachable q.
Proof.
  intros Hr H. unfold bubbleCorner in H. destruct r as [p|]; [|discriminate H].
  specialize (Hr p eq_refl). destruct (F32.gtb cs F32.zero).
  - eapply reachable_addArc; eassumption.
  - injection H as <-. exact Hr.
Qed.

Lemma reachable_option_map (f : Path -> Path) r :
  (forall p, reachable p -> reachable (f p)) ->
  (forall p, r = Some p -> reachable p) ->
  forall q, option_map f r = Some q -> reachable q.
Proof.
  intros Hf Hr q H. destruct r as [p|]; [|discriminate H].
  injection H as <-. apply Hf, Hr. reflexivity.
Qed.

Lemma returned_reachable (r : option Path) :
  (forall q, r = Some q -> reachable q) ->
  match r with
  | Some q => reachable q
  | None => True
  end.
Proof. intros H. destruct r as [q|]; [apply H; reflexivity|exact I]. Qed.

(** X20. Whenever [addCentredArc], [addArc], [addPieSegment] and
    [addBubble] return, they leave a reachable path reachable (whatever
    [sinf], [cosf] and the rotation return): the points they compute are
    added through [startNewSubPath], [lineTo] and [closeSubPath] alone. *)
Theorem arc_shapes_keep_the_path_reachable :
  forall fuel p x y w h radiusX radiusY rotationOfEllipse fromRadians toRadians
         startAsNewSubPath innerCircleProportionalSize
         cs tipX tipY whichSide arrowPos arrowWidth,
    reachable p ->
    match addCentredArc sinf cosf rotation fuel p x y radiusX radiusY
                        rotationOfEllipse fromRadians toRadians startAsNewSubPath with
    | Some q => reachable q
    | None => True
    end
    /\ match addArc sinf cosf rotation fuel p x y w h fromRadians toRadians
                    startAsNewSubPath with
       | Some q => reachable q
       | None => True
       end
    /\ match addPieSegment sinf cosf float_Pi rotation fuel p x y w h
                           fromRadians toRadians innerCircleProportionalSize with
       | Some q => reachable q
       | None => True
       end
    /\ match addBubble sinf cosf float_Pi rotation fuel p x y w h cs tipX tipY
                       whichSide arrowPos arrowWidth with
       | Some q => reachable q
       | None => True
       end.
Proof.
  intros fuel p x y w h rx ry rot from to start inner cs tipX tipY whichSide
         arrowPos arrowWidth Hp.
  split; [|split; [|split]]; apply returned_reachable; intros q H.
  - eapply reachable_addCentredArc; eassumption.
  - eapply reachable_addArc; eassumption.
  - revert H. unfold addPieSegment. cbv zeta.
    match goal with
    | |- match ?a with _ => _ end = _ -> _ => destruct a as [p1|] eqn:E1; [|discriminate]
    end.
    assert (H1 : reachable p1).
    { eapply reachable_addArc; [|exact E1]. repeat reach_step. }
    apply reachable_option_map.
    + intros p2 H2. reach_step. exact H2.
    + intros p2.
      repeat match goal with
      | |- (if ?b then _ else _) = _ -> _ => destruct b
      end;
      intros H2;
      try (injection H2 as <-; repeat reach_step);
      (eapply reachable_addArc; [|exact H2]); repeat reach_step.
  - revert H. unfold addBubble.
    destruct (F32.gtb w F32.one && F32.gtb h F32.one);
      [|intros H; injection H as <-; exact Hp].
    cbv zeta. apply reachable_option_map.
    { intros p2 H2. reach_step. exact H2. }
    intros p5. apply reachable_bubbleCorner. apply reachable_option_map.
    { intros p2 H2. repeat reach_step. }
    intros p4. apply reachable_bubbleCorner. apply reachable_option_map.
    { intros p2 H2. repeat reach_step. }
    intros p3. apply reachable_bubbleCorner. apply reachable_option_map.
    { intros p2 H2. repeat reach_step. }
    intros p2. apply reachable_bubbleCorner.
    intros p1 H1. injection H1 as <-. repeat reach_step.
Qed.

End ArcShapes.

Lemma arc_shapes_keep_the_path_reachable_witness :
  match addCentredArc (fun _ => F32.zero) (fun _ => F32.one)
                      (fun _ _ _ => AffineTransform_identity)
                      100 (lineTo Path_new F32.one F32.one)
                      F32.zero F32.zero F32.one F32.one F32.zero F32.zero F32.one
                      true with
  | Some q => reachable q
  | None => True
  end
  /\ match addArc (fun _ => F32.zero) (fun _ => F32.one)
                  (fun _ _ _ => AffineTransform_identity)
                  100 (lineTo Path_new F32.one F32.one)
                  F32.zero F32.zero (F32.ofZ 10) (F32.ofZ 5) F32.zero F32.one true with
     | Some q => reachable q
     | None => True
     end
  /\ match addPieSegment (fun _ => F32.zero) (fun _ => F32.one) (F32.ofZ 3)
                         (fun _ _ _ => AffineTransform_identity)
                         100 (lineTo Path_new F32.one F32.one)
                         F32.zero F32.zero (F32.ofZ 10) (F32.ofZ 5) F32.zero F32.one
                         F32.half with
     | Some q => reachable q
     | None => True
     end
  /\ match addBubble (fun _ => F32.zero) (fun _ => F32.one) (F32.ofZ 3)
                     (fun _ _ _ => AffineTransform_identity)
                     100 (lineTo Path_new F32.one F32.one)
                     F32.zero F32.zero (F32.ofZ 10) (F32.ofZ 5) F32.one
                     (F32.ofZ 5) (F32.ofZ (-3)) 0 F32.half F32.one with
     | Some q => reachable q
     | None => True
     end.
Proof.
  apply (arc_shapes_keep_the_path_reachable
           (fun _ => F32.zero) (fun _ => F32.one) (F32.ofZ 3)
           (fun _ _ _ => AffineTransform_identity)
           100 (lineTo Path_new F32.one F32.one)
           F32.zero F32.zero (F32.ofZ 10) (F32.ofZ 5) F32.one F32.one F32.zero
           F32.zero F32.one true F32.half F32.one (F32.ofZ 5) (F32.ofZ (-3)) 0
           F32.half F32.one).
  apply (reach_call _ (CallLineTo F32.one F32.one)), reach_new.
Defined.

(** * The textual format: [toString] and [restoreFromString] *)

Section TextFormat.

Variable isWhitespace : Z -> bool.
Variable getFloatValue : list Z -> float.
Variable floatToString : float -> list Z.

(** What the format relies on: a space is white space, the letters of
    the format are not, and the text of a coordinate is a token that
    does not begin with one of these letters. *)
Hypothesis space_is_whitespace : isWhitespace (chr " ") = true.
Hypothesis letters_are_not_whitespace :
  Forall (fun c => isWhitespace c = false)
         [chr "m"; chr "l"; chr "q"; chr "c"; chr "z"; chr "a"].
Hypothesis coordinates_are_numbers :
  forall x, isNumberToken isWhitespace (coordText floatToString x).

Local Abbreviation isTok := (isToken isWhitespace).
Local Abbreviation ctext := (coordText floatToString).
Local Abbreviation rr := (reread getFloatValue floatToString).

(** ** Tokens *)

Lemma coord_isToken x : isTok (ctext x).
Proof. destruct (coordinates_are_numbers x) as [H1 [H2 _]]. split; assumption. Qed.

Lemma letter_isToken e : isTok [markerChar e].
Proof.
  pose proof letters_are_not_whitespace as H.
  repeat match type of H with
  | Forall _ (_ :: _) => let H1 := fresh "L" in inversion H as [|? ? H1 H']; subst; clear H; rename H' into H
  end.
  split; [discriminate|]. constructor; [|constructor].
  destruct e; cbn [markerChar]; split; try assumption; discriminate.
Qed.

Lemma letter_a_isToken : isTok [chr "a"].
Proof.
  pose proof letters_are_not_whitespace as H.
  rewrite Forall_forall in H. split; [discriminate|].
  constructor; [|constructor]. split; [discriminate|].
  apply H. cbn. tauto.
Qed.

Lemma skipWhitespace_token token rest :
  isTok token -> skipWhitespace isWhitespace (token ++ rest) = token ++ rest.
Proof.
  intros [Hne Hall]. destruct token as [|c token]; [contradiction|].
  inversion Hall as [|? ? [_ Hc] _]; subst. cbn [app skipWhitespace]. rewrite Hc.
  reflexivity.
Qed.

Lemma skipToken_token token : forall rest,
  Forall (fun c => c <> 0 /\ isWhitespace c = false) token ->
  deref rest = 0 \/ isWhitespace (deref rest) = true ->
  skipToken isWhitespace (token ++ rest) = (token, rest).
Proof.
  induction token as [|c token IH]; intros rest Hall Hrest.
  - cbn [app]. destruct rest as [|r rest]; [reflexivity|].
    cbn [skipToken deref] in *.
    destruct Hrest as [-> | ->]; [reflexivity|].
    rewrite andb_false_r. reflexivity.
  - inversion Hall as [|? ? [Hc0 Hcw] Hall']; subst.
    cbn [app skipToken]. rewrite Hcw.
    replace (c =? 0) with false by (symmetry; apply Z.eqb_neq; exact Hc0).
    cbn [negb andb]. rewrite IH by assumption. reflexivity.
Qed.

Lemma joinTokens_cons token tokens :
  tokens <> [] ->
  joinTokens (token :: tokens) = token ++ chr " " :: joinTokens tokens.
Proof. destruct tokens; [contradiction|reflexivity]. Qed.

Lemma joinTokens_starts tokens :
  Forall isTok tokens ->
  skipWhitespace isWhitespace (joinTokens tokens) = joinTokens tokens.
Proof.
  intros H. destruct tokens as [|token tokens]; [reflexivity|].
  inversion H as [|? ? Ht Hts]; subst.
  destruct tokens as [|t2 tokens].
  - cbn [joinTokens]. rewrite <- (app_nil_r token) at 1 2.
    apply skipWhitespace_token, Ht.
  - rewrite joinTokens_cons by discriminate. apply skipWhitespace_token, Ht.
Qed.

Lemma nextToken_join token tokens :
  isTok token -> Forall isTok tokens ->
  nextToken isWhitespace (joinTokens (token :: tokens)) = (token, joinTokens tokens).
Proof.
  intros Ht Hts. unfold nextToken.
  rewrite joinTokens_starts by (constructor; assumption).
  destruct tokens as [|t2 tokens].
  - cbn [joinTokens]. rewrite <- (app_nil_r token) at 1.
    rewrite skipToken_token; [reflexivity|apply Ht|left; reflexivity].
  - rewrite joinTokens_cons by discriminate.
    rewrite skipToken_token;
      [|apply Ht|right; cbn [deref]; exact space_is_whitespace].
    cbn [skipWhitespace]. rewrite space_is_whitespace.
    rewrite joinTokens_starts by exact Hts. reflexivity.
Qed.

Lemma joinTokens_deref token tokens :
  isTok token -> (deref (joinTokens (token :: tokens)) =? 0) = false.
Proof.
  intros [Hne Hall]. destruct token as [|c token]; [contradiction|].
  inversion Hall as [|? ? [Hc _] _]; subst.
  destruct tokens; cbn [joinTokens app deref]; apply Z.eqb_neq; exact Hc.
Qed.

Lemma joinTokens_nil_inv tokens :
  Forall isTok tokens -> joinTokens tokens = [] -> tokens = [].
Proof.
  intros H E. destruct tokens as [|token tokens]; [reflexivity|].
  inversion H as [|? ? [Hne _] _]; subst.
  destruct token; [contradiction|]. destruct tokens; discriminate E.
Qed.

Lemma writeSpaced_join tokens token :
  Forall isTok tokens ->
  writeSpaced (joinTokens tokens) token = joinTokens (tokens ++ [token]).
Proof.
  intros H. induction tokens as [|t1 tokens IH]; [reflexivity|].
  inversion H as [|? ? Ht Hts]; subst.
  unfold writeSpaced.
  destruct (joinTokens (t1 :: tokens)) as [|c s] eqn:E.
  - apply joinTokens_nil_inv in E; [discriminate E|exact H].
  - rewrite <- E. clear E c s.
    destruct tokens as [|t2 tokens]; [reflexivity|].
    rewrite joinTokens_cons by discriminate.
    change ((t1 :: t2 :: tokens) ++ [token]) with (t1 :: (t2 :: tokens) ++ [token]).
    rewrite (joinTokens_cons t1 ((t2 :: tokens) ++ [token])) by (cbn [app]; discriminate).
    rewrite <- IH by exact Hts. unfold writeSpaced.
    destruct (joinTokens (t2 :: tokens)) as [|c s] eqn:E.
    + apply joinTokens_nil_inv in E; [discriminate E|exact Hts].
    + rewrite <- app_assoc. reflexivity.
Qed.

Lemma length_joinTokens tokens :
  Forall isTok tokens -> (length tokens <= length (joinTokens tokens))%nat.
Proof.
  induction tokens as [|token tokens IH]; intros H; [cbn; lia|].
  inversion H as [|? ? [Hne _] Hts]; subst. specialize (IH Hts).
  destruct token as [|c token]; [contradiction|].
  destruct tokens as [|t2 tokens]; [cbn; lia|].
  rewrite joinTokens_cons by discriminate.
  rewrite length_app. cbn [length] in *. lia.
Qed.

(** ** What [toString] writes *)

Lemma recordTokens_isTok es : forall prev,
  Forall isTok (recordTokens floatToString prev es).
Proof.
  induction es as [|e es IH]; intros prev; [constructor|].
  cbn [recordTokens]. apply Forall_app. split.
  - destruct (sameKind prev e); [constructor|].
    constructor; [apply letter_isToken|constructor].
  - apply Forall_app. split; [|apply IH].
    apply Forall_forall. intros t Ht. apply in_map_iff in Ht.
    destruct Ht as [x [<- _]]. apply coord_isToken.
Qed.

Lemma writeCoords_tokens xs : forall n rest tokens,
  length xs = n -> Forall isTok tokens ->
  writeCoords floatToString n (xs ++ rest) (joinTokens tokens)
  = (joinTokens (tokens ++ map ctext xs), rest).
Proof.
  induction xs as [|x xs IH]; intros n rest tokens Hn Ht.
  - cbn [length] in Hn. subst n. cbn [app map]. rewrite app_nil_r.
    destruct rest; reflexivity.
  - cbn [length] in Hn. subst n. cbn [app writeCoords map].
    rewrite writeSpaced_join by exact Ht.
    rewrite IH; [|reflexivity|].
    + rewrite <- app_assoc. reflexivity.
    + apply Forall_app. split; [exact Ht|].
      constructor; [apply coord_isToken|constructor].
Qed.

Lemma neqb_lastMarker prev e :
  F32.neqb (hd F32.zero (elementData e)) (lastMarkerOf prev) = negb (sameKind prev e).
Proof.
  destruct prev as [e'|]; [destruct e'|]; destruct e;
    cbn [elementData hd lastMarkerOf sameKind markerChar]; vm_compute; reflexivity.
Qed.

Lemma sameKind_lastMarker prev e :
  sameKind prev e = true -> lastMarkerOf prev = lastMarkerOf (Some e).
Proof.
  destruct prev as [e'|]; [|discriminate].
  destruct e', e; cbn [sameKind markerChar lastMarkerOf elementData hd]; intros H;
    try reflexivity; vm_compute in H; discriminate H.
Qed.

Lemma toStringLoop_step fuel e rest last s :
  toStringLoop floatToString (S fuel) (elementData e ++ rest) last s
  = (let '(s', last') :=
       if F32.neqb (hd F32.zero (elementData e)) last
       then (writeSpaced s [markerChar e], hd F32.zero (elementData e))
       else (s, last) in
     let '(s'', rest') :=
       writeCoords floatToString (length (tl (elementData e)))
                   (tl (elementData e) ++ rest) s' in
     toStringLoop floatToString fuel rest' last' s'').
Proof.
  destruct e; cbn [elementData app hd tl length markerChar toStringLoop];
    autorewrite with markers; cbv beta iota; reflexivity.
Qed.

Lemma toStringLoop_tokens es : forall fuel prev tokens,
  (length es < fuel)%nat -> Forall isTok tokens ->
  toStringLoop floatToString fuel (streamData es) (lastMarkerOf prev) (joinTokens tokens)
  = Some (joinTokens (tokens ++ recordTokens floatToString prev es)).
Proof.
  induction es as [|e es IH]; intros fuel prev tokens Hf Ht.
  - destruct fuel as [|fuel]; [cbn in Hf; lia|]. cbn. now rewrite app_nil_r.
  - destruct fuel as [|fuel]; [cbn in Hf; lia|]. cbn [length] in Hf.
    rewrite streamData_cons, toStringLoop_step, neqb_lastMarker.
    cbn [recordTokens].
    destruct (sameKind prev e) eqn:Es; cbn [negb].
    + rewrite writeCoords_tokens by (reflexivity || exact Ht).
      rewrite (sameKind_lastMarker prev e Es).
      rewrite IH; [|lia|].
      * cbn [app]. rewrite <- app_assoc. reflexivity.
      * apply Forall_app. split; [exact Ht|].
        apply Forall_forall. intros t Hin. apply in_map_iff in Hin.
        destruct Hin as [x [<- _]]. apply coord_isToken.
    + rewrite writeSpaced_join by exact Ht.
      rewrite writeCoords_tokens;
        [|reflexivity
         |apply Forall_app; split;
          [exact Ht|constructor; [apply letter_isToken|constructor]]].
      change (hd F32.zero (elementData e)) with (lastMarkerOf (Some e)).
      rewrite IH; [|lia|].
      * repeat rewrite <- app_assoc. reflexivity.
      * apply Forall_app. split.
        -- apply Forall_app. split;
             [exact Ht|constructor; [apply letter_isToken|constructor]].
        -- apply Forall_forall. intros t Hin. apply in_map_iff in Hin.
           destruct Hin as [x [<- _]]. apply coord_isToken.
Qed.

(** ** What [restoreFromString] reads *)

Lemma readValues_tokens xs : forall rest,
  Forall isTok rest ->
  readValues isWhitespace getFloatValue (length xs) (joinTokens (map ctext xs ++ rest))
  = (map rr xs, joinTokens rest).
Proof.
  induction xs as [|x xs IH]; intros rest Hr; [reflexivity|].
  cbn [length map app readValues].
  rewrite nextToken_join; [|apply coord_isToken|].
  - rewrite IH by exact Hr. reflexivity.
  - apply Forall_app. split; [|exact Hr].
    apply Forall_forall. intros t Hin. apply in_map_iff in Hin.
    destruct Hin as [y [<- _]]. apply coord_isToken.
Qed.

Lemma tokenHeader_letter e marker numValues :
  tokenHeader (markerChar e) marker numValues
  = Some (markerChar e, Z.of_nat (length (tl (elementData e))), 0).
Proof. destruct e; reflexivity. Qed.

Lemma tokenHeader_number x marker numValues :
  tokenHeader (deref (ctext x)) marker numValues = Some (marker, numValues, 1).
Proof.
  destruct (coordinates_are_numbers x) as [_ [_ Hn]].
  unfold tokenHeader.
  repeat match goal with
  | |- context [deref (ctext x) =? ?c] =>
      replace (deref (ctext x) =? c) with false
        by (symmetry; apply Z.eqb_neq; intros E; apply Hn; rewrite E; cbn; tauto)
  end.
  reflexivity.
Qed.

Lemma switchMarker_record e p :
  switchMarker (markerChar e) (map rr (tl (elementData e))) p
  = appendElement p (mapCoords rr e).
Proof. destruct e; reflexivity. Qed.

Lemma sameKind_state prev e :
  sameKind prev e = true -> restoreState prev = restoreState (Some e).
Proof.
  destruct prev as [e'|]; [|discriminate].
  destruct e', e; cbn [sameKind markerChar restoreState]; intros H;
    try reflexivity; vm_compute in H; discriminate H.
Qed.

Lemma sameKind_close prev e :
  sameKind prev e = true -> tl (elementData e) = [] ->
  exists e', prev = Some e' /\ isClose e' = true /\ isClose e = true.
Proof.
  destruct prev as [e'|]; [|discriminate]. intros H Hc. exists e'.
  destruct e; try discriminate Hc.
  destruct e'; cbn [sameKind markerChar] in H; vm_compute in H; try discriminate H.
  repeat split.
Qed.

Lemma restoreFromStringLoop_tokens es : forall fuel prev p,
  (length es < fuel)%nat ->
  noConsecutiveClose (match prev with Some e' => e' :: es | None => es end) = true ->
  restoreFromStringLoop isWhitespace getFloatValue fuel
    (joinTokens (recordTokens floatToString prev es))
    (fst (restoreState prev)) (snd (restoreState prev)) p
  = Some (appendElements p (map (mapCoords rr) es)).
Proof.
  induction es as [|e es IH]; intros fuel prev p Hf Hn.
  - destruct fuel as [|fuel]; [cbn in Hf; lia|]. reflexivity.
  - destruct fuel as [|fuel]; [cbn in Hf; lia|]. cbn [length] in Hf.
    assert (Hn' : noConsecutiveClose (e :: es) = true).
    { destruct prev; [apply allAdjacent_tail in Hn|]; exact Hn. }
    pose proof (recordTokens_isTok es (Some e)) as HR.
    cbn [recordTokens map appendElements fold_left].
    fold (appendElements (appendElement p (mapCoords rr e)) (map (mapCoords rr) es)).
    destruct (sameKind prev e) eqn:Es.
    + destruct (tl (elementData e)) as [|x xs] eqn:Ec.
      { destruct (sameKind_close prev e Es Ec) as [e' [-> [C1 C2]]].
        unfold noConsecutiveClose in Hn. cbn [allAdjacent] in Hn.
        rewrite C1, C2 in Hn. discriminate Hn. }
      cbn [app map]. cbn [restoreFromStringLoop].
      rewrite joinTokens_deref by apply coord_isToken.
      rewrite nextToken_join;
        [|apply coord_isToken
         |apply Forall_app; split; [|exact HR];
          apply Forall_forall; intros t Hin; apply in_map_iff in Hin;
          destruct Hin as [y [<- _]]; apply coord_isToken].
      rewrite tokenHeader_number. cbn [Z.eqb Pos.eqb].
      rewrite (sameKind_state prev e Es). cbn [restoreState fst snd].
      rewrite Ec.
      replace (Z.to_nat (Z.of_nat (length (x :: xs)) - 1)) with (length xs)
        by (cbn [length]; lia).
      rewrite readValues_tokens by exact HR.
      match goal with
      | |- context [switchMarker _ ?values _] =>
          replace values with (map rr (tl (elementData e)))
            by (rewrite Ec; reflexivity)
      end.
      rewrite <- Ec, switchMarker_record.
      apply (IH fuel (Some e)); [lia|exact Hn'].
    + cbn [app]. cbn [restoreFromStringLoop].
      rewrite joinTokens_deref by apply letter_isToken.
      rewrite nextToken_join;
        [|apply letter_isToken
         |apply Forall_app; split; [|exact HR];
          apply Forall_forall; intros t Hin; apply in_map_iff in Hin;
          destruct Hin as [y [<- _]]; apply coord_isToken].
      cbn [deref]. rewrite tokenHeader_letter. cbn [Z.eqb].
      replace (Z.to_nat (Z.of_nat (length (tl (elementData e))) - 0))
        with (length (tl (elementData e))) by lia.
      rewrite readValues_tokens by exact HR.
      cbn [app]. rewrite switchMarker_record.
      apply (IH fuel (Some e)); [lia|exact Hn'].
Qed.

(** ** Writing and reading back *)

Lemma length_streamData es : (length es <= length (streamData es))%nat.
Proof.
  induction es as [|e es IH]; [cbn; lia|].
  rewrite streamData_cons, length_app. destruct e; cbn [elementData length]; lia.
Qed.

Lemma length_recordTokens es : forall prev,
  noConsecutiveClose (match prev with Some e' => e' :: es | None => es end) = true ->
  (length es <= length (recordTokens floatToString prev es))%nat.
Proof.
  induction es as [|e es IH]; intros prev Hn; [cbn; lia|].
  assert (Hn' : noConsecutiveClose (e :: es) = true).
  { destruct prev; [apply allAdjacent_tail in Hn|]; exact Hn. }
  specialize (IH (Some e) Hn').
  cbn [recordTokens length]. rewrite !length_app, length_map.
  destruct (sameKind prev e) eqn:Es; cbn [length]; [|lia].
  destruct (tl (elementData e)) as [|x xs] eqn:Ec; [|cbn [length]; lia].
  destruct (sameKind_close prev e Es Ec) as [e' [-> [C1 C2]]].
  unfold noConsecutiveClose in Hn. cbn [allAdjacent] in Hn.
  rewrite C1, C2 in Hn. discriminate Hn.
Qed.

Lemma isClose_mapCoords f e : isClose (mapCoords f e) = isClose e.
Proof. destruct e; reflexivity. Qed.

Lemma isMove_mapCoords f e : isMove (mapCoords f e) = isMove e.
Proof. destruct e; reflexivity. Qed.

(** X16. The textual round trip keeps the structure of a path: for a
    reachable path, [toString] returns a text, and [restoreFromString]
    on that text, whatever the receiver held, replays the records of the
    path in order through the builder functions, each coordinate with
    the value that its text reads back as, and sets the same winding
    flag; unless a close record then directly follows a coordinate that
    reads back as the close marker's value, the restored path holds
    records of the same kinds in the same order. *)
Theorem text_roundtrip_keeps_the_records : forall p receiver,
  reachable p ->
  exists text es restored,
    toString floatToString p = Some text
    /\ records (data p) = Some es
    /\ restoreFromString isWhitespace getFloatValue receiver text = Some restored
    /\ restored
       = appendElements (setUsingNonZeroWinding Path_new (useNonZeroWinding p))
                        (map (mapCoords rr) es)
    /\ useNonZeroWinding restored = useNonZeroWinding p
    /\ (noCloseAfterCloseValue (map (mapCoords rr) es) = true ->
        records (data restored) = Some (map (mapCoords rr) es)).
Proof.
  intros p receiver Hp.
  destruct (reachable_wellFormed p Hp) as [es [Hd [Hb Hn]]].
  set (pre := if useNonZeroWinding p then [] else [[chr "a"]]).
  assert (Hpre : Forall isTok pre).
  { subst pre. destruct (useNonZeroWinding p);
      [constructor|constructor; [apply letter_a_isToken|constructor]]. }
  pose proof (recordTokens_isTok es None) as HR.
  pose proof (length_recordTokens es None Hn) as HL.
  exists (joinTokens (pre ++ recordTokens floatToString None es)), es.
  exists (appendElements (setUsingNonZeroWinding Path_new (useNonZeroWinding p))
                         (map (mapCoords rr) es)).
  split; [|split; [|split; [|split; [|split]]]].
  - unfold toString. rewrite Hd.
    replace (if useNonZeroWinding p then [] else [chr "a"]) with (joinTokens pre)
      by (subst pre; destruct (useNonZeroWinding p); reflexivity).
    apply (toStringLoop_tokens es _ None); [|exact Hpre].
    pose proof (length_streamData es). lia.
  - rewrite Hd. apply records_streamData.
  - unfold restoreFromString. subst pre.
    destruct (useNonZeroWinding p).
    + cbn [app].
      apply (restoreFromStringLoop_tokens es _ None); [|exact Hn].
      pose proof (length_joinTokens _ HR). lia.
    + cbn [app]. cbn [restoreFromStringLoop].
      rewrite joinTokens_deref by apply letter_a_isToken.
      rewrite nextToken_join; [|apply letter_a_isToken|exact HR].
      cbn [deref].
      change (tokenHeader (chr "a") (chr "m") 2) with (@None (Z * Z * Z)).
      cbv beta iota.
      apply (restoreFromStringLoop_tokens es _ None); [|exact Hn].
      pose proof (length_joinTokens
                    ([chr "a"] :: recordTokens floatToString None es)
                    ltac:(constructor; [apply letter_a_isToken|exact HR])) as HJ.
      cbn [length] in HJ. lia.
  - reflexivity.
  - rewrite useNonZeroWinding_appendElements. reflexivity.
  - intros Hc.
    rewrite (data_appendElements _ _ []) by reflexivity.
    rewrite fold_appendRecord_move; [apply records_streamData| | |exact Hc].
    + destruct es as [|e es]; [reflexivity|]. cbn [map beginsWithMove] in *.
      now rewrite isMove_mapCoords.
    + unfold noConsecutiveClose. rewrite allAdjacent_map; [exact Hn|].
      intros a b. now rewrite !isClose_mapCoords.
Qed.

(** ** [restoreFromString] on any string *)

Lemma skipWhitespace_length t :
  (length (skipWhitespace isWhitespace t) <= length t)%nat.
Proof.
  induction t as [|c t IH]; [cbn; lia|].
  cbn [skipWhitespace]. destruct (isWhitespace c); cbn [length] in *; lia.
Qed.

Lemma skipToken_length t :
  (length (snd (skipToken isWhitespace t)) <= length t)%nat.
Proof.
  induction t as [|c t IH]; [cbn; lia|].
  cbn [skipToken]. destruct (negb (c =? 0) && negb (isWhitespace c)).
  - destruct (skipToken isWhitespace t). cbn [snd length] in *. lia.
  - cbn [snd length]. lia.
Qed.

Lemma nextToken_length t :
  (length (snd (nextToken isWhitespace t)) <= length t)%nat.
Proof.
  unfold nextToken.
  pose proof (skipWhitespace_length t) as H1.
  pose proof (skipToken_length (skipWhitespace isWhitespace t)) as H2.
  destruct (skipToken isWhitespace (skipWhitespace isWhitespace t)) as [token t'].
  cbn [snd] in *. pose proof (skipWhitespace_length t'). lia.
Qed.

Lemma nextToken_progress t :
  (deref t =? 0) = false ->
  (length (snd (nextToken isWhitespace t)) < length t)%nat.
Proof.
  intros H. destruct t as [|c t]; [discriminate H|]. cbn [deref] in H.
  unfold nextToken. cbn [skipWhitespace].
  destruct (isWhitespace c) eqn:Ec.
  - pose proof (skipWhitespace_length t) as H1.
    pose proof (skipToken_length (skipWhitespace isWhitespace t)) as H2.
    destruct (skipToken isWhitespace (skipWhitespace isWhitespace t)) as [token t'].
    cbn [snd length] in *. pose proof (skipWhitespace_length t'). lia.
  - cbn [skipToken]. rewrite H, Ec. cbn [negb andb].
    pose proof (skipToken_length t) as H2.
    destruct (skipToken isWhitespace t) as [token t'].
    cbn [snd length] in *. pose proof (skipWhitespace_length t'). lia.
Qed.

Lemma readValues_length n : forall t,
  (length (snd (readValues isWhitespace getFloatValue n t)) <= length t)%nat.
Proof.
  induction n as [|n IH]; intros t; [cbn; lia|].
  cbn [readValues]. pose proof (nextToken_length t) as H1.
  destruct (nextToken isWhitespace t) as [token t1]. specialize (IH t1).
  destruct (readValues isWhitespace getFloatValue n t1) as [values t2].
  cbn [snd] in *. lia.
Qed.

Lemma reachable_switchMarker marker values p :
  reachable p -> reachable (switchMarker marker values p).
Proof.
  intros H. unfold switchMarker.
  repeat match goal with
  | |- reachable (if ?b then _ else _) => destruct b
  end; try exact H.
  - exact (reach_call p (CallStartNewSubPath _ _) H).
  - exact (reach_call p (CallLineTo _ _) H).
  - exact (reach_call p (CallQuadraticTo _ _ _ _) H).
  - exact (reach_call p (CallCubicTo _ _ _ _ _ _) H).
  - exact (reach_call p CallCloseSubPath H).
Qed.

Lemma restoreFromStringLoop_reachable fuel : forall t marker numValues p,
  (length t < fuel)%nat -> reachable p ->
  exists q,
    restoreFromStringLoop isWhitespace getFloatValue fuel t marker numValues p = Some q
    /\ reachable q.
Proof.
  induction fuel as [|fuel IH]; intros t marker numValues p Hf Hp; [lia|].
  cbn [restoreFromStringLoop].
  destruct (deref t =? 0) eqn:E0; [exists p; split; [reflexivity|exact Hp]|].
  pose proof (nextToken_progress t E0) as H1.
  destruct (nextToken isWhitespace t) as [token t1]. cbn [snd] in H1.
  destruct (tokenHeader (deref token) marker numValues) as [[[m n] startNum]|].
  - pose proof (readValues_length (Z.to_nat (n - startNum)) t1) as H2.
    destruct (readValues isWhitespace getFloatValue (Z.to_nat (n - startNum)) t1)
      as [read t2].
    cbn [snd] in H2. apply IH; [lia|]. apply reachable_switchMarker, Hp.
  - apply IH; [lia|]. apply reach_winding, Hp.
Qed.

(** X17. [restoreFromString] returns for every string, with any white
    space, letters and numbers in it; what the receiver held before
    plays no part in the result (unlike [loadPathFromStream], it clears
    the path and resets the winding flag first); and the path it leaves
    is one that the builder calls reach from the empty path. *)
Theorem restoreFromString_returns_a_reachable_path : forall receiver stringVersion,
  exists restored,
    restoreFromString isWhitespace getFloatValue receiver stringVersion = Some restored
    /\ restoreFromString isWhitespace getFloatValue Path_new stringVersion
       = Some restored
    /\ reachable restored.
Proof.
  intros receiver s.
  destruct (restoreFromStringLoop_reachable (S (length s)) s (chr "m") 2 Path_new
              ltac:(lia) reach_new) as [q [Hq Hr]].
  exists q. split; [exact Hq|split; [exact Hq|exact Hr]].
Qed.

End TextFormat.

Lemma text_roundtrip_keeps_the_records_witness :
  exists text es restored,
    toString (fun _ => [chr "7"])
             (closeSubPath (lineTo (lineTo (startNewSubPath
                (setUsingNonZeroWinding Path_new false) F32.one F32.one)
                F32.half F32.one) F32.zero F32.zero))
    = Some text
    /\ records (data (closeSubPath (lineTo (lineTo (startNewSubPath
                (setUsingNonZeroWinding Path_new false) F32.one F32.one)
                F32.half F32.one) F32.zero F32.zero))) = Some es
    /\ restoreFromString (fun c => c =? chr " ") (fun _ => F32.one)
                         (addRectangle Path_new F32.zero F32.zero F32.one F32.one) text
       = Some restored
    /\ restored
       = appendElements
           (setUsingNonZeroWinding Path_new
              (useNonZeroWinding (closeSubPath (lineTo (lineTo (startNewSubPath
                (setUsingNonZeroWinding Path_new false) F32.one F32.one)
                F32.half F32.one) F32.zero F32.zero))))
           (map (mapCoords (reread (fun _ => F32.one) (fun _ => [chr "7"]))) es)
    /\ useNonZeroWinding restored
       = useNonZeroWinding (closeSubPath (lineTo (lineTo (startNewSubPath
                (setUsingNonZeroWinding Path_new false) F32.one F32.one)
                F32.half F32.one) F32.zero F32.zero))
    /\ (noCloseAfterCloseValue
          (map (mapCoords (reread (fun _ => F32.one) (fun _ => [chr "7"]))) es) = true ->
        records (data restored)
        = Some (map (mapCoords (reread (fun _ => F32.one) (fun _ => [chr "7"]))) es)).
Proof.
  apply (text_roundtrip_keeps_the_records
           (fun c => c =? chr " ") (fun _ => F32.one) (fun _ => [chr "7"])).
  - reflexivity.
  - repeat constructor.
  - intros x. split; [discriminate|]. split.
    + constructor; [|constructor]. split; [discriminate|reflexivity].
    + cbn. intros [H|[H|[H|[H|[H|[H|H]]]]]]; try discriminate H. exact H.
  - apply (reach_call _ CallCloseSubPath).
    apply (reach_call _ (CallLineTo F32.zero F32.zero)).
    apply (reach_call _ (CallLineTo F32.half F32.one)).
    apply (reach_call _ (CallStartNewSubPath F32.one F32.one)).
    apply reach_winding, reach_new.
Defined.
